(** * sep.c: separating points by axis-parallel lines, greedily

    A shallow embedding of [src/sep.c] and proofs about its connectivity
    graph, its candidate generator [div_axis] and its greedy loop.

    The file has four parts: the embedding of the program, with the
    invariants and relations the statements use; the lemmas about the
    embedding; the theorems that settle the claims C1 to C10; further
    properties of the program, X1 to X24.

    Modelling conventions.
    - C [int]s are [Z].  Every counter of the program is bounded by
      [MAX_PTS * MAX_PTS], far from the 32-bit limits, so no wrap-around
      is written out.  Array positions that the program only ever uses as
      non-negative indices are [nat].
    - A C [float] is the rational number it holds, and every [float]
      operation of the program (the conversion of an [int], [-], [/],
      [+]) is the exact operation followed by [round32], the rounding
      of IEEE binary32: to 24 significant bits, to the nearest, ties to
      even.  The program only rounds multiples of 1/2 below 2^33 in
      absolute value, so neither overflow nor the subnormal range of
      binary32 is ever met, and they are not modelled.  Comparisons of
      [float]s are comparisons of rationals.
    - The file of an instance is the sequence of integers it holds.  A
      result [None] of the loader stands for undefined behaviour of the
      C program: [fscanf] reading an integer that does not fit an
      [int], or the store [x_pt_taken[x] = 1] with [x] outside the
      array.
    - The static arrays [points], [sorted_x_pt], [sorted_y_pt], [x_lines],
      [y_lines] and [all_lines] are lists holding the filled prefix of the
      array; the counters [n_x_lines], [n_y_lines] and [n_lines] are the
      lengths of the corresponding lists.  [n_pts] and [rem_cons] are kept
      as the integers the program stores.
    - A pointer into [points] is the index of the point; a pointer into
      [x_lines] or [y_lines] is a [line_ptr]; [NULL] is [None].
    - A [while] loop over a counter is a [Fixpoint] on the number of
      iterations left.  Recursion that is not structural ([div_axis]) and
      the loop of [main] take fuel, and are proved to return when given
      enough.
    - Reads outside the filled part of an array find the zero value of
      the static array, except in [div_axis], where such a read is the
      result [None]: it is the one place where the program performs one
      (on an instance of zero points).
    - Not modelled: the content of [x_pt_taken] and [y_pt_taken]
      (written, never read; the bounds of the store into [x_pt_taken]
      are checked), the [pt_adj_ln_*] fields, the printing functions,
      the capacity [MAX_PTS] of the line arrays, and files whose content
      is not a sequence of integers. *)

From Stdlib Require Import ZArith QArith Qabs Qround Qpower Lia Lqa.
From stdpp Require Import base list numbers sorting.

Local Open Scope Z_scope.
#[local] Set Warnings "-clear-no-such-hyp".

(** * The embedding *)

(** ** Machine numbers: [int] and [float] *)

Definition INT_MIN : Z := - 2 ^ 31.
Definition INT_MAX : Z := 2 ^ 31 - 1.

(** The integer can be stored in an [int]. *)
Definition fits_int (z : Z) : bool := (INT_MIN <=? z) && (z <=? INT_MAX).

Definition pow2 (e : Z) : Q := (2 ^ e)%Q.

(** The binade of [q]: [2^(mag q) <= |q| < 2^(mag q + 1)] when [q] is
    not zero. *)
Definition mag (q : Q) : Z :=
  let e := Z.log2 (Z.abs (Qnum q)) - Z.log2 (Zpos (Qden q)) in
  if Qle_bool (pow2 e) (Qabs q) then e else e - 1.

(** The exponent of the unit in the last place of a binary32 number of
    the binade of [q]: the significand has 24 bits. *)
Definition ulp_exp (q : Q) : Z := mag q - 23.

(** [q] in units of the last place. *)
Definition scaled (q : Q) : Q := (q / pow2 (ulp_exp q))%Q.

(** Rounding to the nearest integer, ties to even. *)
Definition rne (q : Q) : Z :=
  let f := Qfloor q in
  match (q - inject_Z f ?= 1 # 2)%Q with
  | Lt => f
  | Gt => f + 1
  | Eq => if Z.even f then f else f + 1
  end.

(** [q] is a binary32 number: a whole number of units of the last
    place. *)
Definition representable32 (q : Q) : bool :=
  Qeq_bool (inject_Z (Qfloor (scaled q))) (scaled q).

(** The binary32 number nearest to [q], ties to even. *)
Definition round32 (q : Q) : Q :=
  if representable32 q then q
  else (inject_Z (rne (scaled q)) * pow2 (ulp_exp q))%Q.

(** [(float)z] for an [int] [z], and the [float] operations [a + b],
    [a - b] and [a / b]. *)
Definition float_of_int (z : Z) : Q := round32 (inject_Z z).
Definition fadd32 (a b : Q) : Q := round32 (a + b).
Definition fsub32 (a b : Q) : Q := round32 (a - b).
Definition fdiv32 (a b : Q) : Q := round32 (a / b).

(** ** Data model *)

Definition MAX_PTS : Z := 100.

Inductive axis_t := X | Y.

Inductive ret_val_t :=
  | SUCCESS
  | READ_NO_POINTS
  | READ_N_POINTS_MORE_LESS
  | READ_NOT_FOUND
  | INS_LN_EXIST.

Record line_t := mk_line {
  ln_axis : axis_t;
  ln_committed : Z;
  ln_inter : Q
}.

(** [pt_connections] is the malloc'ed block of [MAX_PTS] pointers; the
    four [pt_adj_ln_*] fields are only ever set to [NULL] and are left
    out. *)
Record point_t := mk_point {
  pt_x : Z;
  pt_y : Z;
  pt_con_cnt : Z;
  pt_self_ix : nat;
  pt_connections : list (option nat)
}.

(** [&x_lines[k]] and [&y_lines[k]]. *)
Inductive line_ptr :=
  | XLn (k : nat)
  | YLn (k : nat).

Record state := mk_state {
  points : list point_t;
  sorted_x_pt : list nat;
  sorted_y_pt : list nat;
  x_lines : list line_t;
  y_lines : list line_t;
  all_lines : list line_ptr;
  n_pts : Z;
  rem_cons : Z
}.

Definition n_x_lines (s : state) : nat := length (x_lines s).
Definition n_y_lines (s : state) : nat := length (y_lines s).
Definition n_lines (s : state) : nat := length (all_lines s).

Definition zero_point : point_t := mk_point 0 0 0 0%nat [].
Definition zero_line : line_t := mk_line X 0 0%Q.

#[global] Instance point_inhabited : Inhabited point_t := populate zero_point.
#[global] Instance line_inhabited : Inhabited line_t := populate zero_line.

(** The static initialisers of the globals. *)
Definition initial_state : state := mk_state [] [] [] [] [] [] 0 0.

Definition set_points (ps : list point_t) (s : state) : state :=
  mk_state ps (sorted_x_pt s) (sorted_y_pt s) (x_lines s) (y_lines s)
           (all_lines s) (n_pts s) (rem_cons s).

Definition set_sorted (sx sy : list nat) (s : state) : state :=
  mk_state (points s) sx sy (x_lines s) (y_lines s)
           (all_lines s) (n_pts s) (rem_cons s).

Definition set_x_lines (ls : list line_t) (s : state) : state :=
  mk_state (points s) (sorted_x_pt s) (sorted_y_pt s) ls (y_lines s)
           (all_lines s) (n_pts s) (rem_cons s).

Definition set_y_lines (ls : list line_t) (s : state) : state :=
  mk_state (points s) (sorted_x_pt s) (sorted_y_pt s) (x_lines s) ls
           (all_lines s) (n_pts s) (rem_cons s).

Definition set_all_lines (al : list line_ptr) (s : state) : state :=
  mk_state (points s) (sorted_x_pt s) (sorted_y_pt s) (x_lines s) (y_lines s)
           al (n_pts s) (rem_cons s).

Definition set_n_pts (n : Z) (s : state) : state :=
  mk_state (points s) (sorted_x_pt s) (sorted_y_pt s) (x_lines s) (y_lines s)
           (all_lines s) n (rem_cons s).

Definition set_rem_cons (r : Z) (s : state) : state :=
  mk_state (points s) (sorted_x_pt s) (sorted_y_pt s) (x_lines s) (y_lines s)
           (all_lines s) (n_pts s) r.

(** The sorted view of an axis: [sorted_x_pt] or [sorted_y_pt]. *)
Definition view (axis : axis_t) (s : state) : list nat :=
  match axis with X => sorted_x_pt s | Y => sorted_y_pt s end.

Definition lines_of (axis : axis_t) (s : state) : list line_t :=
  match axis with X => x_lines s | Y => y_lines s end.

(** [pt_x] or [pt_y], by axis. *)
Definition pt_coord (axis : axis_t) (p : point_t) : Z :=
  match axis with X => pt_x p | Y => pt_y p end.

(** [*l] for a line pointer [l]. *)
Definition deref (l : line_ptr) (s : state) : line_t :=
  match l with
  | XLn k => x_lines s !!! k
  | YLn k => y_lines s !!! k
  end.

Definition valid_ptr (l : line_ptr) (s : state) : Prop :=
  match l with
  | XLn k => (k < n_x_lines s)%nat
  | YLn k => (k < n_y_lines s)%nat
  end.

(** [points[i].pt_connections[j]]; outside the arrays the model reads
    [NULL]. *)
Definition conn (s : state) (i j : nat) : option nat :=
  match points s !! i with
  | Some p => match pt_connections p !! j with
              | Some c => c
              | None => None
              end
  | None => None
  end.

(** ** Sorting: [x_pt_compare], [y_pt_compare], [sort_points] *)

Definition pt_compare (axis : axis_t) (s : state) (p1 p2 : nat) : Z :=
  let c1 := pt_coord axis (points s !!! p1) in
  let c2 := pt_coord axis (points s !!! p2) in
  if c1 >? c2 then 1
  else if c1 <? c2 then -1
  else 0.

Definition x_pt_compare := pt_compare X.
Definition y_pt_compare := pt_compare Y.

(** [qsort] is specified only up to the order of elements that compare
    equal; the model fixes one such order (a stable insertion sort). *)
Fixpoint qsort_insert (cmp : nat → nat → Z) (p : nat) (l : list nat)
  : list nat :=
  match l with
  | [] => [p]
  | q :: l' => if cmp p q >? 0 then q :: qsort_insert cmp p l' else p :: l
  end.

Fixpoint qsort (cmp : nat → nat → Z) (l : list nat) : list nat :=
  match l with
  | [] => []
  | p :: l' => qsort_insert cmp p (qsort cmp l')
  end.

Definition sort_points (s : state) : state :=
  set_sorted (qsort (x_pt_compare s) (sorted_x_pt s))
             (qsort (y_pt_compare s) (sorted_y_pt s)) s.

(** ** The connectivity graph: [initialize_connections],
       [free_connections], [disconnect_points] *)

Definition set_connections (c : list (option nat)) (p : point_t) : point_t :=
  mk_point (pt_x p) (pt_y p) (pt_con_cnt p) (pt_self_ix p) c.

Definition set_con_cnt (c : Z) (p : point_t) : point_t :=
  mk_point (pt_x p) (pt_y p) c (pt_self_ix p) (pt_connections p).

Definition set_self_ix (i : nat) (p : point_t) : point_t :=
  mk_point (pt_x p) (pt_y p) (pt_con_cnt p) i (pt_connections p).

(** [p.pt_connections[j] = c] *)
Definition store_connection (j : nat) (c : option nat) (p : point_t)
  : point_t :=
  set_connections (<[j := c]> (pt_connections p)) p.

(** [points[i].pt_connections = malloc(sizeof (point_t * ) * MAX_PTS)];
    the fresh block is modelled as holding [NULL]s. *)
Definition malloc_connections (p : point_t) : point_t :=
  set_connections (replicate (Z.to_nat MAX_PTS) None) p.

(** The first loop; [k] counts the iterations left, [n_pts - i]. *)
Fixpoint alloc_loop (k i : nat) (s : state) : state :=
  match k with
  | O => s
  | S k' =>
      alloc_loop k' (S i) (set_points (alter malloc_connections i (points s)) s)
  end.

(** The body of the inner loop, without [j++]. *)
Definition init_step (i j : nat) (s : state) : state :=
  if negb (i =? j)%nat then
    let ps := alter (store_connection j (Some j)) i (points s) in
    let ps := alter (λ p, set_con_cnt (pt_con_cnt p + 1) p) i ps in
    set_rem_cons (rem_cons s + 1) (set_points ps s)
  else
    set_points (alter (store_connection j None) i (points s)) s.

(** The inner loop over [j]; [k] is [n_pts - j]. *)
Fixpoint init_inner (k i j : nat) (s : state) : state :=
  match k with
  | O => s
  | S k' => init_inner k' i (S j) (init_step i j s)
  end.

(** The outer loop over [i]; [k] is [n_pts - i]. *)
Fixpoint init_outer (k i : nat) (s : state) : state :=
  match k with
  | O => s
  | S k' =>
      let s1 := set_points (alter (set_self_ix i) i (points s)) s in
      let s2 := init_inner (Z.to_nat (n_pts s1)) i 0 s1 in
      init_outer k' (S i) s2
  end.

(** [None] is the [exit(0)] taken when the counter check fails. *)
Definition initialize_connections (s : state) : option state :=
  let n := Z.to_nat (n_pts s) in
  let s1 := alloc_loop n 0 s in
  let s2 := init_outer n 0 s1 in
  if negb (rem_cons s2 =? n_pts s2 * (n_pts s2 - 1)) then None else Some s2.

(** The blocks are freed and four counters reset; [rem_cons] is not. *)
Definition free_connections (s : state) : state :=
  mk_state (points s) (sorted_x_pt s) (sorted_y_pt s) [] [] [] 0 (rem_cons s).

Definition is_connected (s : state) (i j : nat) : bool :=
  match conn s i j with Some _ => true | None => false end.

Definition disconnect_points (pt1 pt2 : nat) (s : state) : state :=
  if is_connected s pt1 pt2 then
    let ps := alter (store_connection pt2 None) pt1 (points s) in
    let ps := alter (store_connection pt1 None) pt2 ps in
    let ps := alter (λ p, set_con_cnt (pt_con_cnt p - 1) p) pt1 ps in
    let ps := alter (λ p, set_con_cnt (pt_con_cnt p - 1) p) pt2 ps in
    set_rem_cons (rem_cons s - 2) (set_points ps s)
  else s.

(** ** The loader: [read_instance_file] *)

(** [points[i].pt_x = x; points[i].pt_y = y; points[i].pt_con_cnt = 0].
    The fields [pt_self_ix] and [pt_connections] are not written: they
    keep what the array cell held (zero in a cell never used before). *)
Definition load_point (x y : Z) (p : point_t) : point_t :=
  mk_point x y 0 (pt_self_ix p) (pt_connections p).

(** A write to [points[i]], where [i] is at most the length of the filled
    prefix: the cell after the prefix is a zero cell of the static array. *)
Definition write_point (i : nat) (f : point_t → point_t)
    (ps : list point_t) : list point_t :=
  if (i <? length ps)%nat then alter f i ps else ps ++ [f zero_point].

(** [x_pt_taken[x] = 1] stays inside the array of [MAX_PTS] cells. *)
Definition in_taken (x : Z) : bool := (0 <=? x) && (x <? MAX_PTS).

(** The file is the sequence of integers it holds.  [fscanf("%d %d")]
    returns [EOF] when no integer is left; with a single integer left it
    assigns [x] only, returns 1, and the loop body still runs with the
    previous [y].  The call is made before [i < MAX_PTS] is tested.
    The result is [None] when [fscanf] meets an integer that does not
    fit an [int], and when the body stores into [x_pt_taken] outside the
    array. *)
Fixpoint read_points (toks : list Z) (x y : Z) (i : nat)
    (ps : list point_t) : option (nat * list point_t) :=
  match toks with
  | [] => Some (i, ps)
  | x' :: toks' =>
      if negb (fits_int x') then None
      else
        match toks' with
        | [] =>
            if Z.of_nat i <? MAX_PTS then
              if negb (in_taken x') then None
              else read_points toks' x' y (S i)
                     (write_point i (load_point x' y) ps)
            else Some (i, ps)
        | y' :: toks'' =>
            if negb (fits_int y') then None
            else if Z.of_nat i <? MAX_PTS then
              if negb (in_taken x') then None
              else read_points toks'' x' y' (S i)
                     (write_point i (load_point x' y') ps)
            else Some (i, ps)
        end
  end.

(** [inst] is [None] when [fopen] fails, and the integers of the file
    otherwise.  The result is [None] when the header does not fit an
    [int] or [read_points] is undefined. *)
Definition read_instance_file (inst : option (list Z)) (s : state)
  : option (ret_val_t * state) :=
  match inst with
  | None => Some (READ_NOT_FOUND, s)
  | Some [] => Some (READ_NO_POINTS, s)
  | Some (declared :: toks) =>
      if negb (fits_int declared) then None
      else
        let s1 := set_n_pts declared s in
        match read_points toks 0 0 0 (points s1) with
        | None => None
        | Some (i, ps) =>
            let s2 := set_points ps s1 in
            if negb (Z.of_nat i =? n_pts s2)
            then Some (READ_N_POINTS_MORE_LESS, s2)
            else
              let js := seq 0 (Z.to_nat (n_pts s2)) in
              Some (SUCCESS, set_sorted js js s2)
        end
  end.

(** ** Locating a line in a sorted view: [get_point_nearest_inter] *)

(** [(float)ls[i]->pt_x] or [(float)ls[i]->pt_y]. *)
Definition coord_at (axis : axis_t) (s : state) (i : nat) : Q :=
  float_of_int (pt_coord axis (points s !!! (view axis s !!! i))).

(** The scan; [k] is [n_pts - i]. *)
Fixpoint nearest_loop (k : nat) (axis : axis_t) (inter : Q) (s : state)
    (i : nat) : Z :=
  match k with
  | O => -1
  | S k' =>
      if negb (Qle_bool (coord_at axis s i) inter) then Z.of_nat i - 1
      else nearest_loop k' axis inter s (S i)
  end.

Definition get_point_nearest_inter (axis : axis_t) (inter : Q) (s : state)
  : Z :=
  nearest_loop (Z.to_nat (n_pts s)) axis inter s 0.

(** ** Committing and testing a line: [commit], [check_con] *)

(** [ls[i]->pt_self_ix] *)
Definition self_ix_at (axis : axis_t) (s : state) (i : nat) : nat :=
  pt_self_ix (points s !!! (view axis s !!! i)).

Definition mark_committed (ln : line_t) : line_t :=
  mk_line (ln_axis ln) 1 (ln_inter ln).

(** [l->ln_committed = 1] *)
Definition set_committed (l : line_ptr) (s : state) : state :=
  match l with
  | XLn k => set_x_lines (alter mark_committed k (x_lines s)) s
  | YLn k => set_y_lines (alter mark_committed k (y_lines s)) s
  end.

(** The inner loop of [commit]; [k] is [n_pts - j]. *)
Fixpoint commit_inner (k : nat) (axis : axis_t) (i j : nat) (s : state)
  : state :=
  match k with
  | O => s
  | S k' =>
      commit_inner k' axis i (S j)
        (disconnect_points (self_ix_at axis s i) (self_ix_at axis s j) s)
  end.

(** The outer loop of [commit]; [k] is [p + 1 - i]. *)
Fixpoint commit_outer (k : nat) (axis : axis_t) (p : Z) (i : nat)
    (s : state) : state :=
  match k with
  | O => s
  | S k' =>
      commit_outer k' axis p (S i)
        (commit_inner (Z.to_nat (n_pts s - (p + 1))) axis i
           (Z.to_nat (p + 1)) s)
  end.

(** [all_lines[n_lines] = l] and the later [n_lines++] are one append. *)
Definition commit (l : line_ptr) (s : state) : state :=
  let s := set_committed l s in
  let axis := ln_axis (deref l s) in
  let inter := ln_inter (deref l s) in
  let s := set_all_lines (all_lines s ++ [l]) s in
  let p := get_point_nearest_inter axis inter s in
  commit_outer (Z.to_nat (p + 1)) axis p 0 s.

(** The inner loop of [check_con]; [k] is [n_pts - j]. *)
Fixpoint check_inner (k : nat) (axis : axis_t) (i j : nat) (s : state)
  : bool :=
  match k with
  | O => false
  | S k' =>
      if is_connected s (self_ix_at axis s i) (self_ix_at axis s j) then true
      else check_inner k' axis i (S j) s
  end.

(** The outer loop of [check_con]; [k] is [p + 1 - i]. *)
Fixpoint check_outer (k : nat) (axis : axis_t) (p : Z) (i : nat) (s : state)
  : bool :=
  match k with
  | O => false
  | S k' =>
      if check_inner (Z.to_nat (n_pts s - (p + 1))) axis i
           (Z.to_nat (p + 1)) s
      then true
      else check_outer k' axis p (S i) s
  end.

(** The C function returns 1 or 0. *)
Definition check_con (l : line_ptr) (s : state) : bool :=
  let axis := ln_axis (deref l s) in
  let inter := ln_inter (deref l s) in
  let p := get_point_nearest_inter axis inter s in
  check_outer (Z.to_nat (p + 1)) axis p 0 s.

(** ** The candidate generator: [div_axis] *)

(** [ls[i]] dereferenced, for an [int] index; [None] when the index is
    outside the filled part of the view. *)
Definition point_at (axis : axis_t) (s : state) (i : Z) : option point_t :=
  if i <? 0 then None
  else match view axis s !! Z.to_nat i with
       | Some k => points s !! k
       | None => None
       end.

(** [x_lines[n_x_lines] = ln; n_x_lines++], or the same on [y_lines]. *)
Definition push_line (axis : axis_t) (ln : line_t) (s : state) : state :=
  match axis with
  | X => set_x_lines (x_lines s ++ [ln]) s
  | Y => set_y_lines (y_lines s ++ [ln]) s
  end.

(** [half]: [if (span%2) half = ((span-1)/2); else half = span/2;] *)
Definition half_of (span : Z) : Z :=
  if negb (Z.rem span 2 =? 0) then Z.quot (span - 1) 2 else Z.quot span 2.

(** The two branches of the C function differ only in the axis they
    read and the array they fill; the model takes the axis as a
    parameter.  [/] and [%] of C on [int]s are [Z.quot] and [Z.rem]; the
    five [float] variables are computed in binary32, [ptdiff/2] after
    the conversion of the [int] 2.  The result is [None] when a point
    outside the view is read, or when the depth [fuel] is used up. *)
Fixpoint div_axis_rec (fuel : nat) (axis : axis_t) (from to : Z) (s : state)
  : option state :=
  match fuel with
  | O => None
  | S fuel' =>
      if from =? to then Some s
      else
        let span := to - from in
        if (span =? 0) || (span =? 1) then Some s
        else
          let half := half_of span in
          if negb (half =? 0) then
            match point_at axis s (from + half),
                  point_at axis s (from + (half + 1)) with
            | Some pt1, Some pt2 =>
                let pta := float_of_int (pt_coord axis pt1) in
                let ptb := float_of_int (pt_coord axis pt2) in
                let ptdiff := fsub32 ptb pta in
                let ptmid_dist := fdiv32 ptdiff (float_of_int 2) in
                let ptmid_coord := fadd32 pta ptmid_dist in
                let s1 := push_line axis (mk_line axis 0 ptmid_coord) s in
                if negb (span =? 2) then
                  match div_axis_rec fuel' axis from (from + half) s1 with
                  | Some s2 => div_axis_rec fuel' axis (from + half) to s2
                  | None => None
                  end
                else Some s1
            | _, _ => None
            end
          else Some s
  end.

Definition div_axis (axis : axis_t) (from to : Z) (s : state) : option state :=
  div_axis_rec (S (Z.to_nat (to - from))) axis from to s.

(** ** The greedy loop and the body of [main] *)

Definition loop_cond (s : state) (clx cly : nat) : bool :=
  negb (rem_cons s =? 0) && (clx <? n_x_lines s)%nat && (cly <? n_y_lines s)%nat.

Definition loop_body (s : state) (clx cly : nat) : state * nat * nat :=
  let con := check_con (XLn clx) s in
  let s := if con then commit (XLn clx) s else s in
  let clx := S clx in
  let con := check_con (YLn cly) s in
  let s := if con then commit (YLn cly) s else s in
  let cly := S cly in
  (s, clx, cly).

(** [fuel] bounds the number of iterations; [None] when it is used up
    while the loop condition still holds. *)
Fixpoint greedy_loop (fuel : nat) (s : state) (clx cly : nat)
  : option (state * nat * nat) :=
  if loop_cond s clx cly then
    match fuel with
    | O => None
    | S fuel' =>
        let '(s', clx', cly') := loop_body s clx cly in
        greedy_loop fuel' s' clx' cly'
    end
  else Some (s, clx, cly).

(** The state of the program when the loop of one instance is entered:
    after the loader, the sort, the initialisation and both calls of
    [div_axis].  [LoadUndefined] is the undefined behaviour of the
    loader, [Quit] its error results, [CounterMismatch] the [exit(0)]
    of the initialisation, [OutOfBounds] the read outside the view in
    [div_axis]. *)
Inductive prepared :=
  | LoadUndefined
  | Quit (r : ret_val_t)
  | CounterMismatch
  | OutOfBounds
  | Ready (s : state).

Definition prepare (inst : option (list Z)) (s : state) : prepared :=
  match read_instance_file inst s with
  | None => LoadUndefined
  | Some (SUCCESS, s1) =>
      match initialize_connections (sort_points s1) with
      | None => CounterMismatch
      | Some s2 =>
          match div_axis X 0 (n_pts s2 - 1) s2 with
          | None => OutOfBounds
          | Some s3 =>
              match div_axis Y 0 (n_pts s3 - 1) s3 with
              | None => OutOfBounds
              | Some s4 => Ready s4
              end
          end
      end
  | Some (r, _) => Quit r
  end.

(** The state when [serialize_solution] is called, with the two cursors. *)
Definition solve (fuel : nat) (inst : option (list Z)) (s : state)
  : option (state * nat * nat) :=
  match prepare inst s with
  | Ready s' => greedy_loop fuel s' 0 0
  | _ => None
  end.

(** What [serialize_solution] writes after the count: the axis tag and
    the intersect of every committed line, in order. *)
Definition solution (s : state) : list (axis_t * Q) :=
  map (λ l, (ln_axis (deref l s), ln_inter (deref l s))) (all_lines s).

(** ** Counting disconnected pairs *)

(** The number of [i < n] with [f i]. *)
Fixpoint count_upto (n : nat) (f : nat → bool) : nat :=
  match n with
  | O => O
  | S n' => (count_upto n' f + if f n' then 1 else 0)%nat
  end.

Fixpoint sum_upto (n : nat) (f : nat → nat) : nat :=
  match n with
  | O => O
  | S n' => (sum_upto n' f + f n')%nat
  end.

(** The unordered pairs [{i, j}], [i < j < n_pts], whose entry [(i, j)]
    is [NULL]. *)
Definition disconnected_pairs (s : state) : nat :=
  sum_upto (Z.to_nat (n_pts s))
    (λ j, count_upto j (λ i, negb (is_connected s i j))).

(** ** States of one instance *)

(** What [main] guarantees when it starts on an instance: the line
    counters are zero (static initialiser, or [free_connections]). *)
Definition instance_start (s : state) : Prop :=
  x_lines s = [] ∧ y_lines s = [] ∧ all_lines s = [].

(** The states the program goes through between [initialize_connections]
    and [free_connections]. *)
Inductive reachable : state → Prop :=
  | reach_init inst s0 s1 s2 :
      read_instance_file inst s0 = Some (SUCCESS, s1) →
      initialize_connections (sort_points s1) = Some s2 →
      reachable s2
  | reach_div_axis axis from to s s' :
      reachable s →
      div_axis axis from to s = Some s' →
      reachable s'
  | reach_disconnect pt1 pt2 s :
      reachable s →
      (pt1 < Z.to_nat (n_pts s))%nat →
      (pt2 < Z.to_nat (n_pts s))%nat →
      reachable (disconnect_points pt1 pt2 s)
  | reach_commit l s :
      reachable s →
      valid_ptr l s →
      reachable (commit l s).

(** The coordinate that the comparison functions read for the point
    [points[k]]. *)
Definition key (axis : axis_t) (s : state) (k : nat) : Z :=
  pt_coord axis (points s !!! k).

(** The structural invariant of reachable states. *)
Record shape_ok (s : state) : Prop := {
  ok_n_pts : 0 ≤ n_pts s ≤ MAX_PTS;
  ok_points : (Z.to_nat (n_pts s) ≤ length (points s))%nat;
  ok_self_ix : ∀ i p,
    (i < Z.to_nat (n_pts s))%nat → points s !! i = Some p → pt_self_ix p = i;
  ok_view_len : ∀ axis, length (view axis s) = Z.to_nat (n_pts s);
  ok_view_lt : ∀ axis i k,
    view axis s !! i = Some k → (k < Z.to_nat (n_pts s))%nat;
  ok_sorted : ∀ axis,
    StronglySorted (λ a b, key axis s a ≤ key axis s b) (view axis s)
}.

(** The invariant of the connectivity graph. *)
Record graph_ok (s : state) : Prop := {
  ok_diag : ∀ i, (i < Z.to_nat (n_pts s))%nat → conn s i i = None;
  ok_sym : ∀ i j,
    (i < Z.to_nat (n_pts s))%nat → (j < Z.to_nat (n_pts s))%nat →
    (conn s i j = None ↔ conn s j i = None);
  ok_rem_cons :
    rem_cons s =
    n_pts s * (n_pts s - 1) - 2 * Z.of_nat (disconnected_pairs s)
}.

(** ** What each operation leaves unchanged *)

(** The fields of a point that only the loader and the initialisation
    write. *)
Definition geom (p : point_t) : Z * Z * nat :=
  (pt_x p, pt_y p, pt_self_ix p).

(** Two states with the same points, views and point count; connection
    entries, connection counts, lines and [rem_cons] may differ. *)
Record frame_eq (s s' : state) : Prop := {
  fr_geom : geom <$> points s = geom <$> points s';
  fr_sorted_x : sorted_x_pt s = sorted_x_pt s';
  fr_sorted_y : sorted_y_pt s = sorted_y_pt s';
  fr_n_pts : n_pts s = n_pts s'
}.

(** Entries are only ever cleared. *)
Definition cleared_stay (s s' : state) : Prop :=
  ∀ a b, conn s a b = None → conn s' a b = None.

(** The size of the block [points[i].pt_connections]. *)
Definition row_len (s : state) (i : nat) : nat :=
  match points s !! i with
  | Some p => length (pt_connections p)
  | None => O
  end.

(** The fields that the initialisation leaves alone. *)
Record init_frame (s s' : state) : Prop := {
  if_n_pts : n_pts s' = n_pts s;
  if_sorted_x : sorted_x_pt s' = sorted_x_pt s;
  if_sorted_y : sorted_y_pt s' = sorted_y_pt s;
  if_x_lines : x_lines s' = x_lines s;
  if_y_lines : y_lines s' = y_lines s;
  if_all_lines : all_lines s' = all_lines s;
  if_length : length (points s') = length (points s);
  if_xy : (λ p, (pt_x p, pt_y p)) <$> points s' =
          (λ p, (pt_x p, pt_y p)) <$> points s
}.

(** What [div_axis] leaves alone: everything but the lines of [axis]. *)
Record div_frame (axis : axis_t) (s s' : state) : Prop := {
  df_points : points s' = points s;
  df_sorted_x : sorted_x_pt s' = sorted_x_pt s;
  df_sorted_y : sorted_y_pt s' = sorted_y_pt s;
  df_n_pts : n_pts s' = n_pts s;
  df_rem_cons : rem_cons s' = rem_cons s;
  df_all_lines : all_lines s' = all_lines s;
  df_other : ∀ axis', axis' ≠ axis → lines_of axis' s' = lines_of axis' s
}.

(** ** The split of a view and the candidate lines *)

(** The positions of a view split by [p]: [i <= p < j < n_pts]. *)
Definition across (p : Z) (s : state) (i j : nat) : Prop :=
  Z.of_nat i ≤ p ∧ p < Z.of_nat j ∧ Z.of_nat j < n_pts s.

(** The number of lines one call of [div_axis_rec] stores. *)
Fixpoint div_count (fuel : nat) (from to : Z) : nat :=
  match fuel with
  | O => O
  | S fuel' =>
      if from =? to then O
      else
        let span := to - from in
        if (span =? 0) || (span =? 1) then O
        else
          let half := half_of span in
          if negb (half =? 0) then
            if negb (span =? 2) then
              S (div_count fuel' from (from + half)
                 + div_count fuel' (from + half) to)
            else 1%nat
          else O
  end.

(** [ptmid_coord] of [div_axis], from [pta] and [ptb]. *)
Definition float_mid (pta ptb : Q) : Q :=
  fadd32 pta (fdiv32 (fsub32 ptb pta) (float_of_int 2)).

(** [ln] is the uncommitted line of [axis] half-way between the points
    at positions [k] and [k + 1] of the view, computed as [div_axis]
    computes it. *)
Definition midpoint_line (axis : axis_t) (s : state) (k : Z) (ln : line_t)
  : Prop :=
  ∃ pt1 pt2,
    point_at axis s k = Some pt1 ∧
    point_at axis s (k + 1) = Some pt2 ∧
    ln = mk_line axis 0
           (float_mid (float_of_int (pt_coord axis pt1))
                      (float_of_int (pt_coord axis pt2))).

(** ** Runs of the greedy loop *)

(** [loop_iter k s clx cly s' clx' cly']: the loop entered with [s] and
    the cursors [clx], [cly] runs its body [k] times, the condition
    holding before each, and is then in [s'] with [clx'], [cly']. *)
Inductive loop_iter :
  nat → state → nat → nat → state → nat → nat → Prop :=
  | loop_iter_O s clx cly : loop_iter O s clx cly s clx cly
  | loop_iter_S k s clx cly s1 clx1 cly1 s' clx' cly' :
      loop_cond s clx cly = true →
      loop_body s clx cly = (s1, clx1, cly1) →
      loop_iter k s1 clx1 cly1 s' clx' cly' →
      loop_iter (S k) s clx cly s' clx' cly'.

(** What holds of the loop of an instance whose two line arrays have the
    same length. *)
Record loop_inv (s : state) (clx cly : nat) : Prop := {
  li_reachable : reachable s;
  li_cursors : clx = cly;
  li_lines : n_x_lines s = n_y_lines s;
  li_bound : (clx ≤ n_x_lines s)%nat
}.

(** ** The specification's operations, for comparison *)

(** From the words of the specification ([nearest_index_left_of]): the
    position, within the view of [axis], of the last point whose
    coordinate is at most [c]; -1 when there is none. *)
Definition nearest_index_left_of (axis : axis_t) (c : Q) (s : state) : Z :=
  foldl (λ acc i, if Qle_bool (coord_at axis s i) c then Z.of_nat i else acc)
        (-1) (seq 0 (Z.to_nat (n_pts s))).

(** The coordinate of the point at position [i] of the view, as the
    integer the instance gives. *)
Definition int_coord_at (axis : axis_t) (s : state) (i : nat) : Z :=
  pt_coord axis (points s !!! (view axis s !!! i)).

(** From the words of the specification (candidate lines): [ln] lies at
    the midpoint (the average) of the coordinates of the points at the
    positions [k] and [k + 1] of the view, strictly between the two, and
    on no point's coordinate. *)
Definition strictly_between_at (axis : axis_t) (s : state) (k : nat)
    (ln : line_t) : Prop :=
  (ln_inter ln ==
   (inject_Z (int_coord_at axis s k) + inject_Z (int_coord_at axis s (S k)))
   / 2)%Q ∧
  (inject_Z (int_coord_at axis s k) < ln_inter ln)%Q ∧
  (ln_inter ln < inject_Z (int_coord_at axis s (S k)))%Q ∧
  ∀ i, (i < Z.to_nat (n_pts s))%nat →
       ¬ (inject_Z (int_coord_at axis s i) == ln_inter ln)%Q.

Definition strictly_between (axis : axis_t) (s : state) (ln : line_t) : Prop :=
  ∃ k : nat, (S k < Z.to_nat (n_pts s))%nat ∧ strictly_between_at axis s k ln.

(** The two points at the positions [k] and [k + 1] of the view have
    different coordinates, of absolute value at most 2^23: the range in
    which binary32 holds every integer and every half of an integer. *)
Definition exact_pair (axis : axis_t) (s : state) (k : nat) : Prop :=
  int_coord_at axis s k ≠ int_coord_at axis s (S k) ∧
  Z.abs (int_coord_at axis s k) ≤ 2 ^ 23 ∧
  Z.abs (int_coord_at axis s (S k)) ≤ 2 ^ 23.

(** ** Example instances *)

(** Four points with distinct coordinates on both axes:
    (0,3), (1,1), (2,0), (3,2). *)
Definition example_file : list Z := [4; 0; 3; 1; 1; 2; 0; 3; 2].

(** Two points: (0,0), (1,1). *)
Definition pair_file : list Z := [2; 0; 0; 1; 1].

(** Three points, two of which share the largest [x]:
    (0,0), (3,1), (3,2). *)
Definition duplicate_file : list Z := [3; 0; 0; 3; 1; 3; 2].

Definition ready_state (file : list Z) : state :=
  match prepare (Some file) initial_state with
  | Ready s => s
  | _ => initial_state
  end.

(** The state that the loader leaves when it reads [file] in [s]. *)
Definition loaded_state (file : list Z) (s : state) : state :=
  match read_instance_file (Some file) s with
  | Some (_, s1) => s1
  | None => s
  end.

Definition example_loaded : state := loaded_state example_file initial_state.

Definition example_ready : state := ready_state example_file.
Definition duplicate_ready : state := ready_state duplicate_file.


(** ** Instance files laid out pair by pair *)

(** The integers of a file that holds the coordinate pairs [pairs] after
    its header. *)
Definition flatten_pairs (pairs : list (Z * Z)) : list Z :=
  concat (map (λ xy, [xy.1; xy.2]) pairs).

(** The loader can store the pair: [x] is an index of [x_pt_taken] and
    [y] fits an [int]. *)
Definition pair_ok (xy : Z * Z) : bool := in_taken xy.1 && fits_int xy.2.

(** The file that declares and holds [pairs]. *)
Definition file_of (pairs : list (Z * Z)) : list Z :=
  Z.of_nat (length pairs) :: flatten_pairs pairs.

(** ** The connection count of a point *)

(** The number of set entries in the row of point [i]. *)
Definition live_in_row (s : state) (i : nat) : nat :=
  count_upto (Z.to_nat (n_pts s)) (λ j, is_connected s i j).

(** [points[m].pt_con_cnt], when the cell is in the filled prefix. *)
Definition cnt_at (s : state) (m : nat) : option Z :=
  pt_con_cnt <$> points s !! m.

(** Every point's [pt_con_cnt] is the number of points it is connected
    to. *)
Definition con_cnt_ok (s : state) : Prop :=
  ∀ i, (i < Z.to_nat (n_pts s))%nat →
       cnt_at s i = Some (Z.of_nat (live_in_row s i)).

(** The number of set entries of the whole matrix. *)
Definition live_entries (s : state) : nat :=
  sum_upto (Z.to_nat (n_pts s)) (live_in_row s).

(** [rem_cons] counts the set entries. *)
Definition rem_cons_ok (s : state) : Prop :=
  rem_cons s = Z.of_nat (live_entries s).

(** ** The sides of a line *)

(** Point [a] is at or before the line on the line's axis and point [b]
    is after it: the test [coord > inter] of [get_point_nearest_inter],
    on the coordinate converted to [float], fails on [a] and holds on
    [b]. *)
Definition splits (ln : line_t) (s : state) (a b : nat) : bool :=
  Qle_bool (float_of_int (key (ln_axis ln) s a)) (ln_inter ln)
  && negb (Qle_bool (float_of_int (key (ln_axis ln) s b)) (ln_inter ln)).

(** The line has the two points on different sides. *)
Definition separates (ln : line_t) (s : state) (a b : nat) : bool :=
  splits ln s a b || splits ln s b a.

(** ** Runs of the loop and the lines written out *)

#[global] Instance line_ptr_eq_dec : EqDecision line_ptr.
Proof. solve_decision. Defined.

(** The array a pointer points into. *)
Definition ptr_axis (l : line_ptr) : axis_t :=
  match l with XLn _ => X | YLn _ => Y end.

(** [l] points at a line that the cursors [clx], [cly] have passed. *)
Definition behind (clx cly : nat) (l : line_ptr) : Prop :=
  match l with XLn k => (k < clx)%nat | YLn k => (k < cly)%nat end.

(** The candidates of [s] are those of [s0], up to their [ln_committed]
    flags, over the same points. *)
Record lines_kept (s0 s : state) : Prop := {
  lk_frame : frame_eq s0 s;
  lk_x : n_x_lines s = n_x_lines s0;
  lk_y : n_y_lines s = n_y_lines s0;
  lk_line : ∀ l, ln_axis (deref l s) = ln_axis (deref l s0) ∧
                 ln_inter (deref l s) = ln_inter (deref l s0)
}.

(** What holds of [all_lines] and of the graph while the loop runs with
    the cursors at [clx] and [cly]. *)
Record run_inv (s : state) (clx cly : nat) : Prop := {
  ri_nodup : NoDup (all_lines s);
  ri_behind : ∀ l, l ∈ all_lines s → behind clx cly l ∧ valid_ptr l s;
  ri_flag : ∀ l, valid_ptr l s →
    ln_committed (deref l s) = if bool_decide (l ∈ all_lines s) then 1 else 0;
  ri_sep : ∀ a b,
    (a < Z.to_nat (n_pts s))%nat → (b < Z.to_nat (n_pts s))%nat → a ≠ b →
    (conn s a b = None ↔
     ∃ l, l ∈ all_lines s ∧ separates (deref l s) s a b = true);
  ri_count :
    2 * Z.of_nat (n_lines s) + rem_cons s ≤ n_pts s * (n_pts s - 1)
}.

(** The points [a] and [b] hold the first two positions of the view. *)
Definition first_two (axis : axis_t) (s : state) (a b : nat) : Prop :=
  (view axis s !! 0%nat = Some a ∧ view axis s !! 1%nat = Some b) ∨
  (view axis s !! 0%nat = Some b ∧ view axis s !! 1%nat = Some a).

(** Three points, two of them with the adjacent [y] coordinates 2^23
    and 2^23 + 1: (0,0), (1,8388608), (2,8388609). *)
Definition large_file : list Z := [3; 0; 0; 1; 8388608; 2; 8388609].
Definition large_ready : state := ready_state large_file.

(** Three points on a diagonal: (0,0), (1,1), (2,2). *)
Definition diagonal_file : list Z := [3; 0; 0; 1; 1; 2; 2].
Definition diagonal_ready : state := ready_state diagonal_file.

(** The examples after one iteration of the loop. *)
Definition example_final : state := (loop_body example_ready 0 0).1.1.
Definition diagonal_final : state := (loop_body diagonal_ready 0 0).1.1.

(** The sum of the [pt_con_cnt] fields of the points of the instance. *)
Definition con_cnt_total (s : state) : Z :=
  foldr (λ i acc, pt_con_cnt (points s !!! i) + acc) 0
        (seq 0 (Z.to_nat (n_pts s))).
(** * Binary32 rounding *)

Section binary32.

Local Open Scope Q_scope.

Lemma pow2_pos e : 0 < pow2 e.
Proof. apply Qpower_0_lt. reflexivity. Qed.

Lemma pow2_add a b : pow2 (a + b) == pow2 a * pow2 b.
Proof. apply Qpower_plus. discriminate. Qed.

Lemma pow2_le a b : (a <= b)%Z -> pow2 a <= pow2 b.
Proof. intros H. apply Qpower_le_compat_l; [exact H|discriminate]. Qed.

Lemma pow2_lt a b : (a < b)%Z -> pow2 a < pow2 b.
Proof. intros H. apply Qpower_lt_compat_l; [exact H|reflexivity]. Qed.

Lemma pow2_lt_inv a b : pow2 a < pow2 b -> (a < b)%Z.
Proof. intros H. eapply Qpower_lt_compat_l_inv; [exact H|reflexivity]. Qed.

Lemma pow2_Z n : (0 <= n)%Z -> pow2 n == inject_Z (2 ^ n).
Proof. intros H. unfold pow2. by rewrite Zpower_Qpower. Qed.

Lemma pow2_0 : pow2 0 == 1.
Proof. reflexivity. Qed.

Lemma pow2_cancel a b : pow2 (a + b) / pow2 b == pow2 a.
Proof.
  rewrite pow2_add. field. pose proof (pow2_pos b). lra.
Qed.

(** Multiplication and division by a power of two keep the order. *)
Lemma Qdiv_pow2_le x y e : x <= y -> x / pow2 e <= y / pow2 e.
Proof.
  intros H. unfold Qdiv. apply Qmult_le_compat_r; [done|].
  apply Qlt_le_weak, Qinv_lt_0_compat, pow2_pos.
Qed.

Lemma Qdiv_pow2_lt x y e : x < y -> x / pow2 e < y / pow2 e.
Proof.
  intros H. unfold Qdiv. apply Qmult_lt_compat_r; [|done].
  apply Qinv_lt_0_compat, pow2_pos.
Qed.

Lemma Qdiv_mult_pow2 x e : x / pow2 e * pow2 e == x.
Proof. field. pose proof (pow2_pos e). lra. Qed.

Lemma Qmult_div_pow2 x e : x * pow2 e / pow2 e == x.
Proof. field. pose proof (pow2_pos e). lra. Qed.

Lemma Qabs_div_pow2 x e : Qabs (x / pow2 e) == Qabs x / pow2 e.
Proof.
  unfold Qdiv. rewrite Qabs_Qmult, Qabs_Qinv.
  rewrite (Qabs_pos (pow2 e)); [reflexivity|apply Qlt_le_weak, pow2_pos].
Qed.

Lemma Qabs_mult_pow2 x e : Qabs (x * pow2 e) == Qabs x * pow2 e.
Proof.
  rewrite Qabs_Qmult.
  rewrite (Qabs_pos (pow2 e)); [reflexivity|apply Qlt_le_weak, pow2_pos].
Qed.

Lemma Qabs_inject_Z z : Qabs (inject_Z z) == inject_Z (Z.abs z).
Proof. reflexivity. Qed.

Lemma Qmult_le_l_weak x y z : 0 <= z -> x <= y -> z * x <= z * y.
Proof.
  intros Hz H. rewrite (Qmult_comm z x), (Qmult_comm z y).
  by apply Qmult_le_compat_r.
Qed.

(** The integers between two powers of two. *)
Lemma log2_bounds (n : Z) :
  (0 < n)%Z -> pow2 (Z.log2 n) <= inject_Z n < pow2 (Z.log2 n + 1).
Proof.
  intros Hn. destruct (Z.log2_spec n Hn) as [H1 H2].
  pose proof (Z.log2_nonneg n) as H0.
  rewrite !pow2_Z by lia. rewrite <-Zle_Qle, <-Zlt_Qlt.
  replace (Z.log2 n + 1)%Z with (Z.succ (Z.log2 n)) by lia. done.
Qed.

Lemma mag_spec q :
  ~ q == 0 -> pow2 (mag q) <= Qabs q /\ Qabs q < pow2 (mag q + 1).
Proof.
  intros Hq. destruct q as [n d].
  assert (Hn : (0 < Z.abs n)%Z).
  { destruct (Z.eq_dec n 0%Z) as [->|]; [|lia]. exfalso. apply Hq. reflexivity. }
  unfold mag. cbn [Qnum Qden].
  set (a := Z.log2 (Z.abs n)). set (b := Z.log2 (Z.pos d)).
  destruct (log2_bounds (Z.abs n) Hn) as [Ha1 Ha2]. fold a in Ha1, Ha2.
  destruct (log2_bounds (Z.pos d) ltac:(lia)) as [Hb1 Hb2]. fold b in Hb1, Hb2.
  assert (Habs : Qabs (n # d) * inject_Z (Z.pos d) == inject_Z (Z.abs n)).
  { rewrite <-Zabs_Qabs. unfold Qeq, Qmult, inject_Z. simpl. lia. }
  assert (Hd : 0 < inject_Z (Z.pos d)) by (rewrite <-(Zlt_Qlt 0); lia).
  pose proof (Qabs_nonneg (n # d)) as Hnn.
  set (x := Qabs (n # d)) in *.
  (* x * 2^b <= x * d = |n| < 2^(a+1)   and   2^a <= |n| = x * d < x * 2^(b+1) *)
  assert (Hup : x < pow2 (a - b + 1)).
  { apply (Qmult_lt_r _ _ (pow2 b)); [apply pow2_pos|].
    rewrite <-pow2_add. replace (a - b + 1 + b)%Z with (a + 1)%Z by lia.
    eapply Qle_lt_trans; [|exact Ha2]. rewrite <-Habs.
    apply Qmult_le_l_weak; done. }
  assert (Hlo : pow2 (a - b - 1) <= x).
  { apply (Qmult_le_r _ _ (pow2 (b + 1))); [apply pow2_pos|].
    rewrite <-pow2_add. replace (a - b - 1 + (b + 1))%Z with a by lia.
    eapply Qle_trans; [exact Ha1|]. rewrite <-Habs.
    apply Qmult_le_l_weak; [done|]. by apply Qlt_le_weak. }
  destruct (Qle_bool (pow2 (a - b)) x) eqn:Ht.
  - apply Qle_bool_iff in Ht. done.
  - replace (a - b - 1 + 1)%Z with (a - b)%Z by lia. split; [done|].
    apply Qnot_le_lt. intros H. apply Qle_bool_iff in H. congruence.
Qed.

Lemma mag_unique q e :
  pow2 e <= Qabs q -> Qabs q < pow2 (e + 1) -> mag q = e.
Proof.
  intros H1 H2.
  assert (Hq : ~ q == 0).
  { intros Hq. rewrite Hq in H1. pose proof (pow2_pos e).
    change (Qabs 0) with 0 in H1. lra. }
  destruct (mag_spec q Hq) as [H3 H4].
  assert (mag q < e + 1)%Z
    by (apply pow2_lt_inv; eapply Qle_lt_trans; [exact H3|exact H2]).
  assert (e < mag q + 1)%Z
    by (apply pow2_lt_inv; eapply Qle_lt_trans; [exact H1|exact H4]).
  lia.
Qed.

Lemma mag_comp x y : ~ x == 0 -> x == y -> mag x = mag y.
Proof.
  intros Hx Hxy. symmetry. destruct (mag_spec x Hx) as [H1 H2].
  apply mag_unique; by rewrite <-Hxy.
Qed.

Lemma mag_le x y : ~ x == 0 -> Qabs x <= Qabs y -> (mag x <= mag y)%Z.
Proof.
  intros Hx Hxy.
  assert (Hy : ~ y == 0).
  { intros Hy. rewrite Hy in Hxy. change (Qabs 0) with 0 in Hxy.
    pose proof (Qabs_nonneg x). apply Hx.
    destruct (Qabs_Qle_condition x 0) as [Hc _].
    destruct Hc as [? ?]; [lra|]. change (- 0) with 0 in *. lra. }
  destruct (mag_spec x Hx) as [H1 _]. destruct (mag_spec y Hy) as [_ H2].
  assert (mag x < mag y + 1)%Z; [|lia].
  apply pow2_lt_inv. lra.
Qed.

(** The scaled value of a number that is not zero has 24 bits before
    the point. *)
Lemma scaled_bounds q :
  ~ q == 0 ->
  inject_Z (2 ^ 23) <= Qabs (scaled q) /\ Qabs (scaled q) < inject_Z (2 ^ 24).
Proof.
  intros Hq. destruct (mag_spec q Hq) as [H1 H2]. unfold scaled, ulp_exp.
  rewrite Qabs_div_pow2. rewrite <-!pow2_Z by lia.
  rewrite <-(pow2_cancel 23 (mag q - 23)), <-(pow2_cancel 24 (mag q - 23)).
  replace (23 + (mag q - 23))%Z with (mag q) by lia.
  replace (24 + (mag q - 23))%Z with (mag q + 1)%Z by lia.
  split; [by apply Qdiv_pow2_le|by apply Qdiv_pow2_lt].
Qed.

Lemma scaled_zero q : q == 0 -> scaled q == 0.
Proof.
  intros Hq. unfold scaled. set (p := pow2 (ulp_exp q)). rewrite Hq.
  reflexivity.
Qed.

Lemma scaled_mult q : scaled q * pow2 (ulp_exp q) == q.
Proof. apply Qdiv_mult_pow2. Qed.

(** ** Rounding to an integer *)

Lemma Qfloor_unique k x :
  inject_Z k <= x -> x < inject_Z (k + 1) -> Qfloor x = k.
Proof.
  intros H1 H2. pose proof (Qfloor_le x) as H3. pose proof (Qlt_floor x) as H4.
  assert (inject_Z k < inject_Z (Qfloor x + 1)) as H5 by lra.
  assert (inject_Z (Qfloor x) < inject_Z (k + 1)) as H6 by lra.
  rewrite <-Zlt_Qlt in H5, H6. lia.
Qed.

Lemma rne_floor q : (Qfloor q <= rne q <= Qfloor q + 1)%Z.
Proof. unfold rne. repeat case_match; lia. Qed.

Lemma rne_Z z : rne (inject_Z z) = z.
Proof.
  unfold rne. rewrite Qfloor_Z.
  assert ((inject_Z z - inject_Z z ?= 1 # 2) = Lt) as ->; [|done].
  apply (proj1 (Qlt_alt _ _)). lra.
Qed.

#[global] Instance rne_comp : Proper (Qeq ==> eq) rne.
Proof.
  intros x y Hxy. unfold rne. rewrite (Qfloor_comp _ _ Hxy).
  assert ((x - inject_Z (Qfloor y) ?= 1 # 2)
          = (y - inject_Z (Qfloor y) ?= 1 # 2)) as ->; [|done].
  by rewrite Hxy.
Qed.

Lemma rne_lower k q : inject_Z k <= q -> (k <= rne q)%Z.
Proof.
  intros H. pose proof (Qfloor_resp_le _ _ H) as Hf. rewrite Qfloor_Z in Hf.
  pose proof (rne_floor q). lia.
Qed.

Lemma rne_upper k q : q <= inject_Z k -> (rne q <= k)%Z.
Proof.
  intros H. pose proof (Qfloor_resp_le _ _ H) as Hf. rewrite Qfloor_Z in Hf.
  destruct (Z.eq_dec (Qfloor q) k) as [He|Hne].
  - assert (q == inject_Z k) as ->.
    { pose proof (Qfloor_le q). rewrite He in *. lra. }
    rewrite rne_Z. lia.
  - pose proof (rne_floor q). lia.
Qed.

Lemma rne_mono p q : p <= q -> (rne p <= rne q)%Z.
Proof.
  intros H. pose proof (Qfloor_resp_le _ _ H) as Hf.
  pose proof (rne_floor p) as Hp. pose proof (rne_floor q) as Hq.
  destruct (Z.eq_dec (Qfloor p) (Qfloor q)) as [He|Hne]; [|lia].
  unfold rne. rewrite <-He.
  destruct (p - inject_Z (Qfloor p) ?= 1 # 2) eqn:Cp;
    destruct (q - inject_Z (Qfloor p) ?= 1 # 2) eqn:Cq;
    repeat case_match; try lia.
  - apply (proj2 (Qeq_alt _ _)) in Cp. apply (proj2 (Qlt_alt _ _)) in Cq. lra.
  - apply (proj2 (Qgt_alt _ _)) in Cp. apply (proj2 (Qeq_alt _ _)) in Cq. lra.
  - apply (proj2 (Qgt_alt _ _)) in Cp. apply (proj2 (Qlt_alt _ _)) in Cq. lra.
Qed.

Lemma rne_abs_bound q (K : Z) :
  Qabs q <= inject_Z K -> (Z.abs (rne q) <= K)%Z.
Proof.
  intros H. apply Qabs_Qle_condition in H as [H1 H2].
  assert (inject_Z (- K) <= q) as H3
    by (rewrite inject_Z_opp; exact H1).
  apply rne_lower in H3. apply rne_upper in H2. lia.
Qed.

(** ** Rounding to binary32 *)

Lemma is_int_intro s k :
  s == inject_Z k -> Qeq_bool (inject_Z (Qfloor s)) s = true.
Proof.
  intros H. apply Qeq_bool_iff. rewrite (Qfloor_comp _ _ H), Qfloor_Z.
  by symmetry.
Qed.

Lemma representable32_zero q : q == 0 -> representable32 q = true.
Proof.
  intros Hq. unfold representable32.
  apply (is_int_intro _ 0%Z). by apply scaled_zero.
Qed.

(** A number with a significand of at most 24 bits is representable. *)
Lemma representable32_intro (m u : Z) q :
  q == inject_Z m * pow2 u -> (Z.abs m <= 2 ^ 24)%Z ->
  representable32 q = true.
Proof.
  intros Hq Hm. destruct (Z.eq_dec m 0%Z) as [->|Hm0].
  { apply representable32_zero. rewrite Hq. ring. }
  set (a := Z.log2 (Z.abs m)).
  destruct (log2_bounds (Z.abs m) ltac:(lia)) as [Ha1 Ha2]. fold a in Ha1, Ha2.
  assert (Habs : Qabs q == inject_Z (Z.abs m) * pow2 u)
    by (rewrite Hq, Qabs_mult_pow2; reflexivity).
  assert (Hmag : mag q = (a + u)%Z).
  { apply mag_unique; rewrite Habs.
    - rewrite pow2_add. apply Qmult_le_compat_r; [done|].
      apply Qlt_le_weak, pow2_pos.
    - replace (a + u + 1)%Z with (a + 1 + u)%Z by lia. rewrite pow2_add.
      apply Qmult_lt_compat_r; [apply pow2_pos|done]. }
  assert (Ha0 : (0 <= a)%Z) by apply Z.log2_nonneg.
  assert (Ha24 : (a <= 24)%Z).
  { assert (a < 25)%Z; [|lia]. apply pow2_lt_inv.
    eapply Qle_lt_trans; [exact Ha1|].
    rewrite pow2_Z by lia. rewrite <-Zlt_Qlt.
    change (2 ^ 25)%Z with 33554432%Z. change (2 ^ 24)%Z with 16777216%Z in Hm.
    lia. }
  unfold representable32.
  assert (Hs : scaled q == inject_Z m * pow2 (23 - a)).
  { unfold scaled, ulp_exp. rewrite Hmag, Hq.
    replace u with ((23 - a) + (a + u - 23))%Z at 1 by lia.
    rewrite pow2_add. field. pose proof (pow2_pos (a + u - 23)). lra. }
  destruct (Z.eq_dec a 24%Z) as [Ha|Ha].
  - assert (Z.abs m = 16777216)%Z as Hm24.
    { rewrite Ha in Ha1. rewrite pow2_Z in Ha1 by lia.
      rewrite <-Zle_Qle in Ha1.
      change (2 ^ 24)%Z with 16777216%Z in *. lia. }
    apply (is_int_intro _ (m / 2)%Z). rewrite Hs, Ha.
    assert (m = 16777216 \/ m = -16777216)%Z as [->| ->] by lia; reflexivity.
  - apply (is_int_intro _ (m * 2 ^ (23 - a))%Z). rewrite Hs.
    rewrite pow2_Z by lia. by rewrite inject_Z_mult.
Qed.

Lemma representable32_inject_Z z :
  (Z.abs z <= 2 ^ 24)%Z -> representable32 (inject_Z z) = true.
Proof.
  intros H. apply (representable32_intro z 0%Z); [|done].
  rewrite pow2_0. ring.
Qed.

(** [round32] is the scaled value rounded to an integer, scaled back. *)
Lemma round32_eq q :
  round32 q == inject_Z (rne (scaled q)) * pow2 (ulp_exp q).
Proof.
  unfold round32. destruct (representable32 q) eqn:Hr; [|reflexivity].
  unfold representable32 in Hr. apply Qeq_bool_iff in Hr.
  rewrite <-Hr at 1. rewrite rne_Z, Hr. symmetry. apply scaled_mult.
Qed.

Lemma round32_exact q : representable32 q = true -> round32 q = q.
Proof. intros H. unfold round32. by rewrite H. Qed.

Lemma round32_representable q : representable32 (round32 q) = true.
Proof.
  unfold round32. destruct (representable32 q) eqn:Hr; [done|].
  apply (representable32_intro (rne (scaled q)) (ulp_exp q)); [reflexivity|].
  apply rne_abs_bound.
  destruct (Qeq_dec q 0) as [Hq|Hq].
  - rewrite (scaled_zero q Hq). done.
  - apply Qlt_le_weak, scaled_bounds. done.
Qed.

Lemma round32_idem q : round32 (round32 q) = round32 q.
Proof. apply round32_exact, round32_representable. Qed.

Lemma round32_nonneg q : 0 <= q -> 0 <= round32 q.
Proof.
  intros H. rewrite round32_eq.
  apply Qmult_le_0_compat; [|apply Qlt_le_weak, pow2_pos].
  rewrite <-(Zle_Qle 0). apply rne_lower.
  unfold scaled. unfold Qdiv. apply Qmult_le_0_compat; [done|].
  apply Qlt_le_weak, Qinv_lt_0_compat, pow2_pos.
Qed.

Lemma round32_nonpos q : q <= 0 -> round32 q <= 0.
Proof.
  intros H. rewrite round32_eq.
  assert (inject_Z (rne (scaled q)) <= 0).
  { rewrite <-(Zle_Qle _ 0). apply rne_upper.
    pose proof (Qdiv_pow2_le q 0 (ulp_exp q) H) as H'.
    assert (0 / pow2 (ulp_exp q) == 0) as H0 by (unfold Qdiv; ring).
    unfold scaled. rewrite H0 in H'. exact H'. }
  pose proof (pow2_pos (ulp_exp q)).
  rewrite <-(Qmult_0_l (pow2 (ulp_exp q))).
  apply Qmult_le_compat_r; lra.
Qed.

(** A multiple of a power of two not below the unit in the last place
    of [q] bounds the rounding of [q] as it bounds [q]. *)
Lemma multiple_scaled (k e u : Z) :
  (u <= e)%Z ->
  inject_Z k * pow2 e == inject_Z (k * 2 ^ (e - u)) * pow2 u.
Proof.
  intros H. rewrite inject_Z_mult, <-pow2_Z by lia.
  replace e with ((e - u) + u)%Z at 1 by lia. rewrite pow2_add. ring.
Qed.

Lemma round32_lower q (k e : Z) :
  (ulp_exp q <= e)%Z ->
  inject_Z k * pow2 e <= q -> inject_Z k * pow2 e <= round32 q.
Proof.
  intros He H. rewrite round32_eq, (multiple_scaled k e (ulp_exp q) He) in *.
  apply Qmult_le_compat_r; [|apply Qlt_le_weak, pow2_pos].
  rewrite <-Zle_Qle. apply rne_lower. unfold scaled.
  rewrite <-(Qmult_div_pow2 (inject_Z _) (ulp_exp q)).
  by apply Qdiv_pow2_le.
Qed.

Lemma round32_upper q (k e : Z) :
  (ulp_exp q <= e)%Z ->
  q <= inject_Z k * pow2 e -> round32 q <= inject_Z k * pow2 e.
Proof.
  intros He H. rewrite round32_eq, (multiple_scaled k e (ulp_exp q) He) in *.
  apply Qmult_le_compat_r; [|apply Qlt_le_weak, pow2_pos].
  rewrite <-Zle_Qle. apply rne_upper. unfold scaled.
  rewrite <-(Qmult_div_pow2 (inject_Z _) (ulp_exp q)).
  by apply Qdiv_pow2_le.
Qed.

Lemma round32_mono_same x y :
  ulp_exp x = ulp_exp y -> x <= y -> round32 x <= round32 y.
Proof.
  intros He H. rewrite !round32_eq, He.
  apply Qmult_le_compat_r; [|apply Qlt_le_weak, pow2_pos].
  rewrite <-Zle_Qle. apply rne_mono. unfold scaled. rewrite He.
  by apply Qdiv_pow2_le.
Qed.

(** Rounding keeps the order. *)
Lemma round32_mono x y : x <= y -> round32 x <= round32 y.
Proof.
  intros H.
  destruct (Qlt_le_dec 0 x) as [Hx|Hx].
  - (* both positive *)
    assert (Hx0 : ~ x == 0) by (intros E; rewrite E in Hx; lra).
    assert (Hy0 : ~ y == 0) by (intros E; rewrite E in H; lra).
    assert (Hm : (mag x <= mag y)%Z).
    { apply mag_le; [done|]. rewrite !Qabs_pos by lra. done. }
    destruct (Z.eq_dec (mag x) (mag y)) as [Heq|Hne].
    { apply round32_mono_same; [|done]. unfold ulp_exp. by rewrite Heq. }
    destruct (mag_spec x Hx0) as [_ Hxu]. destruct (mag_spec y Hy0) as [Hyl _].
    rewrite Qabs_pos in Hxu, Hyl by lra.
    pose proof (pow2_le (mag x + 1) (mag y) ltac:(lia)) as Hp.
    apply (Qle_trans _ (inject_Z 1 * pow2 (mag y))).
    + apply round32_upper; [unfold ulp_exp; lia|].
      change (inject_Z 1) with 1. lra.
    + apply round32_lower; [unfold ulp_exp; lia|].
      change (inject_Z 1) with 1. lra.
  - destruct (Qlt_le_dec y 0) as [Hy|Hy].
    + (* both negative *)
      assert (Hx0 : ~ x == 0) by (intros E; rewrite E in H; lra).
      assert (Hy0 : ~ y == 0) by (intros E; rewrite E in Hy; lra).
      assert (Hm : (mag y <= mag x)%Z).
      { apply mag_le; [done|]. rewrite !Qabs_neg by lra. lra. }
      destruct (Z.eq_dec (mag x) (mag y)) as [Heq|Hne].
      { apply round32_mono_same; [|done]. unfold ulp_exp. by rewrite Heq. }
      destruct (mag_spec x Hx0) as [Hxl _]. destruct (mag_spec y Hy0) as [_ Hyu].
      rewrite Qabs_neg in Hxl, Hyu by lra.
      pose proof (pow2_le (mag y + 1) (mag x) ltac:(lia)) as Hp.
      apply (Qle_trans _ (inject_Z (-1) * pow2 (mag x))).
      * apply round32_upper; [unfold ulp_exp; lia|].
        change (inject_Z (-1)) with (-1). lra.
      * apply round32_lower; [unfold ulp_exp; lia|].
        change (inject_Z (-1)) with (-1). lra.
    + apply (Qle_trans _ 0); [by apply round32_nonpos|by apply round32_nonneg].
Qed.

#[global] Instance round32_comp : Proper (Qeq ==> Qeq) round32.
Proof.
  intros x y Hxy. apply Qle_antisym; apply round32_mono; rewrite Hxy; lra.
Qed.

Lemma representable32_comp x y :
  x == y -> representable32 x = true -> representable32 y = true.
Proof.
  intros Hxy Hx. destruct (Qeq_dec x 0) as [H0|H0].
  - apply representable32_zero. by rewrite <-Hxy.
  - unfold representable32 in *. apply Qeq_bool_iff in Hx.
    apply (is_int_intro _ (Qfloor (scaled x))).
    rewrite Hx. unfold scaled, ulp_exp. rewrite <-(mag_comp x y H0 Hxy).
    set (p := pow2 (mag x - 23)). by rewrite Hxy.
Qed.

(** A representable number below (above) [q] is below (above) its
    rounding. *)
Lemma round32_ge f q :
  representable32 f = true -> f <= q -> f <= round32 q.
Proof.
  intros Hf H. rewrite <-(round32_exact f Hf). by apply round32_mono.
Qed.

Lemma round32_le f q :
  representable32 f = true -> q <= f -> round32 q <= f.
Proof.
  intros Hf H. rewrite <-(round32_exact f Hf). by apply round32_mono.
Qed.

(** ** The operations of the program *)

Lemma float_of_int_mono z1 z2 :
  (z1 <= z2)%Z -> float_of_int z1 <= float_of_int z2.
Proof. intros H. apply round32_mono. by rewrite <-Zle_Qle. Qed.

Lemma float_of_int_exact z :
  (Z.abs z <= 2 ^ 24)%Z -> float_of_int z = inject_Z z.
Proof. intros H. by apply round32_exact, representable32_inject_Z. Qed.

Lemma float_of_int_representable z :
  representable32 (float_of_int z) = true.
Proof. apply round32_representable. Qed.

Lemma float_of_int_2 : float_of_int 2 = 2.
Proof. reflexivity. Qed.

(** Halves of integers of at most 24 bits are representable. *)
Lemma representable32_half (h : Z) q :
  q == inject_Z h / 2 -> (Z.abs h <= 2 ^ 24)%Z -> representable32 q = true.
Proof.
  intros Hq Hh. apply (representable32_intro h (-1)); [|done].
  rewrite Hq. reflexivity.
Qed.


(** ** The midpoint of [div_axis] *)

(** It is not below the lower coordinate. *)
Lemma float_mid_ge pta ptb :
  representable32 pta = true -> pta <= ptb -> pta <= float_mid pta ptb.
Proof.
  intros Hf H. unfold float_mid, fadd32, fdiv32, fsub32.
  apply round32_ge; [done|].
  assert (0 <= round32 (round32 (ptb - pta) / float_of_int 2)).
  { apply round32_nonneg. rewrite float_of_int_2.
    assert (0 <= round32 (ptb - pta)) by (apply round32_nonneg; lra).
    set (d := round32 (ptb - pta)) in *.
    change (d / 2) with (d * (1 # 2)). lra. }
  lra.
Qed.

(** Between two equal coordinates it is that coordinate. *)
Lemma float_mid_same pta ptb :
  representable32 pta = true -> ptb == pta -> float_mid pta ptb == pta.
Proof.
  intros Hf H. unfold float_mid, fadd32, fdiv32, fsub32.
  assert (round32 (ptb - pta) == 0) as H1.
  { rewrite (round32_comp _ 0) by (rewrite H; ring). reflexivity. }
  assert (round32 (round32 (ptb - pta) / float_of_int 2) == 0) as H2.
  { rewrite (round32_comp _ 0); [reflexivity|].
    rewrite H1. reflexivity. }
  rewrite (round32_comp _ pta) by (rewrite H2; ring).
  by rewrite (round32_exact pta Hf).
Qed.

Lemma inject_Z_minus a b : inject_Z (a - b) == inject_Z a - inject_Z b.
Proof. unfold Z.sub. rewrite inject_Z_plus, inject_Z_opp. reflexivity. Qed.

(** On integers of absolute value at most 2^23 no operation rounds. *)
Lemma float_mid_exact (a b : Z) :
  (Z.abs a <= 2 ^ 23)%Z -> (Z.abs b <= 2 ^ 23)%Z ->
  float_mid (float_of_int a) (float_of_int b)
  = inject_Z a + (inject_Z b - inject_Z a) / 2.
Proof.
  intros Ha Hb.
  change (2 ^ 23)%Z with 8388608%Z in Ha, Hb.
  rewrite !float_of_int_exact by (change (2 ^ 24)%Z with 16777216%Z; lia).
  unfold float_mid, fadd32, fdiv32, fsub32. rewrite float_of_int_2.
  assert (H1 : round32 (inject_Z b - inject_Z a) = inject_Z b - inject_Z a).
  { apply round32_exact, (representable32_intro (b - a) 0%Z).
    - rewrite pow2_0, inject_Z_minus. ring.
    - change (2 ^ 24)%Z with 16777216%Z. lia. }
  rewrite H1.
  assert (H2 : round32 ((inject_Z b - inject_Z a) / 2)
               = (inject_Z b - inject_Z a) / 2).
  { apply round32_exact, (representable32_half (b - a)).
    - rewrite inject_Z_minus. reflexivity.
    - change (2 ^ 24)%Z with 16777216%Z. lia. }
  rewrite H2.
  apply round32_exact, (representable32_half (a + b)).
  - rewrite inject_Z_plus. field.
  - change (2 ^ 24)%Z with 16777216%Z. lia.
Qed.

End binary32.

(** * Properties of the embedding *)

(** ** Basic facts about the graph *)

Section connections.

Implicit Types (s : state) (ps : list point_t) (p : point_t).

Lemma conn_set_points_id s i j : conn (set_points (points s) s) i j = conn s i j.
Proof. reflexivity. Qed.

Lemma conn_set_rem_cons s r i j : conn (set_rem_cons r s) i j = conn s i j.
Proof. reflexivity. Qed.

(** Writing [points[a].pt_connections[b] = c] and reading an entry. *)
Lemma conn_store s ps a b c i j :
  conn (set_points (alter (store_connection b c) a ps) s) i j =
  if decide (i = a ∧ j = b) then
    match ps !! a with
    | Some p => if decide (b < length (pt_connections p))%nat then c else None
    | None => None
    end
  else conn (set_points ps s) i j.
Proof.
  unfold conn. simpl. rewrite list_lookup_alter.
  destruct (decide (a = i)) as [->|Hne].
  - destruct (ps !! i) as [p|] eqn:Hp; simpl.
    + destruct (decide (j = b)) as [->|Hjb].
      * rewrite decide_True; [|done].
        destruct (decide (b < length (pt_connections p))%nat) as [Hlt|Hge].
        -- rewrite list_lookup_insert_eq; done.
        -- rewrite list_insert_ge; [|lia].
           rewrite lookup_ge_None_2; [done|lia].
      * rewrite decide_False; [|naive_solver].
        rewrite list_lookup_insert_ne; done.
    + case_decide; done.
  - rewrite decide_False; [done|naive_solver].
Qed.

Lemma conn_set_con_cnt s ps (f : point_t → Z) a i j :
  conn (set_points (alter (λ p, set_con_cnt (f p) p) a ps) s) i j
  = conn (set_points ps s) i j.
Proof.
  unfold conn. simpl. rewrite list_lookup_alter.
  case_decide; subst; [|done]. by destruct (ps !! i).
Qed.

Lemma conn_set_self_ix s ps k a i j :
  conn (set_points (alter (set_self_ix k) a ps) s) i j
  = conn (set_points ps s) i j.
Proof.
  unfold conn. simpl. rewrite list_lookup_alter.
  case_decide; subst; [|done]. by destruct (ps !! i).
Qed.

Lemma is_connected_Some s i j : is_connected s i j = true ↔ is_Some (conn s i j).
Proof. unfold is_connected, is_Some. destruct (conn s i j); naive_solver. Qed.

Lemma is_connected_None s i j : is_connected s i j = false ↔ conn s i j = None.
Proof. unfold is_connected. by destruct (conn s i j). Qed.

(** The effect of [disconnect_points] on every entry. *)
Lemma conn_disconnect s pt1 pt2 i j :
  conn (disconnect_points pt1 pt2 s) i j =
  if is_connected s pt1 pt2 &&
     bool_decide ((i = pt1 ∧ j = pt2) ∨ (i = pt2 ∧ j = pt1))
  then None else conn s i j.
Proof.
  unfold disconnect_points.
  destruct (is_connected s pt1 pt2) eqn:Hc; [|done]. simpl.
  rewrite conn_set_rem_cons, !conn_set_con_cnt, !conn_store.
  rewrite conn_set_points_id.
  case_bool_decide as Hij.
  - repeat case_decide; repeat case_match; try done; naive_solver.
  - rewrite !decide_False; [done|naive_solver..].
Qed.

End connections.

Section frame.

Implicit Types (s : state) (ps : list point_t) (p : point_t).

Lemma frame_eq_refl s : frame_eq s s.
Proof. by split. Qed.

Lemma frame_eq_trans s1 s2 s3 : frame_eq s1 s2 → frame_eq s2 s3 → frame_eq s1 s3.
Proof. intros [] []. split; congruence. Qed.

Lemma frame_eq_sym s1 s2 : frame_eq s1 s2 → frame_eq s2 s1.
Proof. intros []. by split. Qed.

Lemma geom_alter (f : point_t → point_t) i ps :
  (∀ p, geom (f p) = geom p) → geom <$> alter f i ps = geom <$> ps.
Proof.
  intros Hf. revert i. induction ps as [|p ps IH]; intros [|i]; try done.
  - cbn. by rewrite Hf.
  - cbn. f_equal. apply IH.
Qed.

Lemma frame_eq_view axis s s' : frame_eq s s' → view axis s = view axis s'.
Proof. intros []. by destruct axis. Qed.

Lemma frame_eq_geom_total s s' k :
  frame_eq s s' → geom (points s !!! k) = geom (points s' !!! k).
Proof.
  intros [Hg _ _ _]. rewrite !list_lookup_total_alt.
  apply (f_equal (λ l, l !! k)) in Hg. rewrite !list_lookup_fmap in Hg.
  destruct (points s !! k), (points s' !! k); simplify_eq/=; [|done].
  unfold geom. congruence.
Qed.

Lemma frame_eq_coord_at axis s s' i :
  frame_eq s s' → coord_at axis s i = coord_at axis s' i.
Proof.
  intros H. unfold coord_at. rewrite (frame_eq_view axis s s' H).
  pose proof (frame_eq_geom_total s s' (view axis s' !!! i) H) as Hg.
  unfold geom in Hg. destruct axis; simpl in *; congruence.
Qed.

Lemma frame_eq_self_ix_at axis s s' i :
  frame_eq s s' → self_ix_at axis s i = self_ix_at axis s' i.
Proof.
  intros H. unfold self_ix_at. rewrite (frame_eq_view axis s s' H).
  pose proof (frame_eq_geom_total s s' (view axis s' !!! i) H) as Hg.
  unfold geom in Hg. simplify_eq. congruence.
Qed.

Lemma frame_eq_nearest_loop k axis inter s s' i :
  frame_eq s s' →
  nearest_loop k axis inter s i = nearest_loop k axis inter s' i.
Proof.
  intros H. revert i. induction k as [|k IH]; intros i; simpl; [done|].
  by rewrite (frame_eq_coord_at axis s s' i H), IH.
Qed.

Lemma frame_eq_nearest axis inter s s' :
  frame_eq s s' →
  get_point_nearest_inter axis inter s = get_point_nearest_inter axis inter s'.
Proof.
  intros H. unfold get_point_nearest_inter. rewrite (fr_n_pts s s' H).
  by apply frame_eq_nearest_loop.
Qed.

Lemma disconnect_frame pt1 pt2 s : frame_eq s (disconnect_points pt1 pt2 s).
Proof.
  unfold disconnect_points. destruct (is_connected s pt1 pt2); [|apply frame_eq_refl].
  split; simpl; try done.
  by rewrite !geom_alter.
Qed.

Lemma disconnect_lines pt1 pt2 s :
  x_lines (disconnect_points pt1 pt2 s) = x_lines s ∧
  y_lines (disconnect_points pt1 pt2 s) = y_lines s ∧
  all_lines (disconnect_points pt1 pt2 s) = all_lines s.
Proof. unfold disconnect_points. by destruct (is_connected s pt1 pt2). Qed.

Lemma disconnect_points_length pt1 pt2 s :
  length (points (disconnect_points pt1 pt2 s)) = length (points s).
Proof.
  unfold disconnect_points. destruct (is_connected s pt1 pt2); [|done].
  simpl. by rewrite !length_alter.
Qed.

Lemma disconnect_rem_cons pt1 pt2 s :
  rem_cons (disconnect_points pt1 pt2 s) =
  if is_connected s pt1 pt2 then rem_cons s - 2 else rem_cons s.
Proof. unfold disconnect_points. by destruct (is_connected s pt1 pt2). Qed.

End frame.

Section commit_and_check.

Implicit Types (s : state) (l : line_ptr).

Lemma disconnect_cleared_stay pt1 pt2 s :
  cleared_stay s (disconnect_points pt1 pt2 s).
Proof.
  intros a b H. rewrite conn_disconnect. by case_match.
Qed.

Lemma disconnect_clears pt1 pt2 s :
  conn (disconnect_points pt1 pt2 s) pt1 pt2 = None.
Proof.
  rewrite conn_disconnect.
  destruct (is_connected s pt1 pt2) eqn:Hc; simpl.
  - rewrite bool_decide_eq_true_2; [done|by left].
  - by apply is_connected_None.
Qed.

Lemma commit_inner_spec k axis i j s :
  let s' := commit_inner k axis i j s in
  frame_eq s s' ∧
  (x_lines s' = x_lines s ∧ y_lines s' = y_lines s ∧
   all_lines s' = all_lines s) ∧
  cleared_stay s s' ∧
  ∀ j', (j ≤ j' < j + k)%nat →
        conn s' (self_ix_at axis s i) (self_ix_at axis s j') = None.
Proof.
  revert j s. induction k as [|k IH]; intros j s; simpl.
  - split; [apply frame_eq_refl|]. split; [done|].
    split; [by intros ??|]. intros; lia.
  - set (s1 := disconnect_points _ _ s).
    destruct (IH (S j) s1) as (Hf & (Hx & Hy & Ha) & Hmono & Hclr).
    assert (Hf1 : frame_eq s s1) by apply disconnect_frame.
    destruct (disconnect_lines (self_ix_at axis s i) (self_ix_at axis s j) s)
      as (Hx1 & Hy1 & Ha1).
    split; [by eapply frame_eq_trans|].
    split; [unfold s1 in *; repeat split; congruence|].
    split.
    + intros a b H. apply Hmono. by apply disconnect_cleared_stay.
    + intros j' Hj'.
      rewrite !(frame_eq_self_ix_at axis s s1 _ Hf1).
      destruct (decide (j' = j)) as [->|Hne].
      * apply Hmono. rewrite <-!(frame_eq_self_ix_at axis s s1 _ Hf1).
        apply disconnect_clears.
      * apply Hclr. lia.
Qed.

Lemma commit_outer_spec k axis p i s :
  let s' := commit_outer k axis p i s in
  frame_eq s s' ∧
  (x_lines s' = x_lines s ∧ y_lines s' = y_lines s ∧
   all_lines s' = all_lines s) ∧
  cleared_stay s s' ∧
  ∀ i' j', (i ≤ i' < i + k)%nat →
           (Z.to_nat (p + 1) ≤ j' < Z.to_nat (p + 1) + Z.to_nat (n_pts s - (p + 1)))%nat →
           conn s' (self_ix_at axis s i') (self_ix_at axis s j') = None.
Proof.
  revert i s. induction k as [|k IH]; intros i s; simpl.
  - split; [apply frame_eq_refl|]. split; [done|].
    split; [by intros ??|]. intros; lia.
  - set (s1 := commit_inner _ axis i _ s).
    destruct (commit_inner_spec (Z.to_nat (n_pts s - (p + 1))) axis i
                (Z.to_nat (p + 1)) s) as (Hf1 & (Hx1 & Hy1 & Ha1) & Hmono1 & Hclr1).
    fold s1 in Hf1, Hx1, Hy1, Ha1, Hmono1, Hclr1.
    destruct (IH (S i) s1) as (Hf & (Hx & Hy & Ha) & Hmono & Hclr).
    split; [by eapply frame_eq_trans|].
    split; [repeat split; congruence|].
    split.
    + intros a b H. by apply Hmono, Hmono1.
    + intros i' j' Hi' Hj'.
      destruct (decide (i' = i)) as [->|Hne].
      * apply Hmono. by apply Hclr1.
      * rewrite !(frame_eq_self_ix_at axis s s1 _ Hf1).
        apply Hclr; [lia|]. by rewrite <-(fr_n_pts s s1 Hf1).
Qed.

Lemma deref_set_committed l s :
  ln_axis (deref l (set_committed l s)) = ln_axis (deref l s) ∧
  ln_inter (deref l (set_committed l s)) = ln_inter (deref l s).
Proof.
  destruct l as [k|k]; simpl;
    rewrite !list_lookup_total_alt, list_lookup_alter_eq.
  - by destruct (x_lines s !! k).
  - by destruct (y_lines s !! k).
Qed.

Lemma set_committed_frame l s : frame_eq s (set_committed l s).
Proof. by destruct l. Qed.

Lemma conn_set_committed l s i j : conn (set_committed l s) i j = conn s i j.
Proof. by destruct l. Qed.

(** [commit] as the graph sees it: the loops run on a state with the
    same points and views, for the line's own axis and intersect. *)
Lemma commit_unfold l s :
  let axis := ln_axis (deref l s) in
  let p := get_point_nearest_inter axis (ln_inter (deref l s)) s in
  ∃ s0, frame_eq s s0 ∧ (∀ i j, conn s0 i j = conn s i j) ∧
        rem_cons s0 = rem_cons s ∧
        x_lines s0 = x_lines (set_committed l s) ∧
        y_lines s0 = y_lines (set_committed l s) ∧
        all_lines s0 = all_lines s ++ [l] ∧
        commit l s = commit_outer (Z.to_nat (p + 1)) axis p 0 s0.
Proof.
  intros axis p. unfold commit.
  destruct (deref_set_committed l s) as [Ha Hi].
  set (s0 := set_all_lines _ (set_committed l s)).
  assert (Hf : frame_eq s s0).
  { eapply frame_eq_trans; [apply (set_committed_frame l)|]. by split. }
  exists s0. split; [done|].
  split; [intros i j; apply (conn_set_committed l)|].
  split; [by destruct l|].
  split; [by destruct l|]. split; [by destruct l|]. split; [by destruct l|].
  rewrite Ha, Hi. fold axis.
  by rewrite <-(frame_eq_nearest axis _ s s0 Hf).
Qed.

Lemma commit_frame l s : frame_eq s (commit l s).
Proof.
  destruct (commit_unfold l s) as (s0 & Hf & _ & _ & _ & _ & _ & ->).
  eapply frame_eq_trans; [done|]. apply commit_outer_spec.
Qed.

Lemma commit_cleared_stay l s : cleared_stay s (commit l s).
Proof.
  destruct (commit_unfold l s) as (s0 & Hf & Hc & _ & _ & _ & _ & ->).
  intros a b H. apply commit_outer_spec. by rewrite Hc.
Qed.

Lemma commit_clears l s i j :
  let axis := ln_axis (deref l s) in
  let p := get_point_nearest_inter axis (ln_inter (deref l s)) s in
  across p s i j →
  conn (commit l s) (self_ix_at axis s i) (self_ix_at axis s j) = None.
Proof.
  intros axis p (Hi & Hj & Hn).
  destruct (commit_unfold l s) as (s0 & Hf & Hc & _ & _ & _ & _ & ->).
  fold axis p.
  rewrite !(frame_eq_self_ix_at axis s s0 _ Hf).
  apply commit_outer_spec; [lia|].
  rewrite <-(fr_n_pts s s0 Hf). lia.
Qed.

Lemma check_inner_false k axis i j s :
  check_inner k axis i j s = false ↔
  ∀ j', (j ≤ j' < j + k)%nat →
        conn s (self_ix_at axis s i) (self_ix_at axis s j') = None.
Proof.
  revert j. induction k as [|k IH]; intros j; simpl.
  - split; [intros; lia|done].
  - destruct (is_connected s _ _) eqn:Hc.
    + split; [done|]. intros H. apply is_connected_Some in Hc.
      rewrite (H j) in Hc; [by destruct Hc|lia].
    + rewrite IH. apply is_connected_None in Hc. split.
      * intros H j' Hj'. destruct (decide (j' = j)) as [->|]; [done|].
        apply H. lia.
      * intros H j' Hj'. apply H. lia.
Qed.

Lemma check_outer_false k axis p i s :
  check_outer k axis p i s = false ↔
  ∀ i' j', (i ≤ i' < i + k)%nat →
           (Z.to_nat (p + 1) ≤ j' < Z.to_nat (p + 1) + Z.to_nat (n_pts s - (p + 1)))%nat →
           conn s (self_ix_at axis s i') (self_ix_at axis s j') = None.
Proof.
  revert i. induction k as [|k IH]; intros i; simpl.
  - split; [intros; lia|done].
  - destruct (check_inner _ axis i _ s) eqn:Hc.
    + split; [done|]. intros H.
      assert (check_inner (Z.to_nat (n_pts s - (p + 1))) axis i
                (Z.to_nat (p + 1)) s = false) as Hc'; [|congruence].
      apply check_inner_false. intros j' Hj'. apply H; lia.
    + rewrite IH. rewrite check_inner_false in Hc. split.
      * intros H i' j' Hi' Hj'. destruct (decide (i' = i)) as [->|].
        -- by apply Hc.
        -- apply H; lia.
      * intros H i' j' Hi' Hj'. apply H; lia.
Qed.

Lemma nearest_loop_ge k axis inter s i : -1 ≤ nearest_loop k axis inter s i.
Proof.
  revert i. induction k as [|k IH]; intros i; simpl; [lia|].
  case_match; [lia|apply IH].
Qed.

Lemma nearest_ge axis inter s : -1 ≤ get_point_nearest_inter axis inter s.
Proof. apply nearest_loop_ge. Qed.

(** [check_con] is false exactly when no entry across the split is set. *)
Lemma check_con_false l s :
  let axis := ln_axis (deref l s) in
  let p := get_point_nearest_inter axis (ln_inter (deref l s)) s in
  check_con l s = false ↔
  ∀ i j, across p s i j →
         conn s (self_ix_at axis s i) (self_ix_at axis s j) = None.
Proof.
  intros axis p. unfold check_con. fold axis p.
  pose proof (nearest_ge axis (ln_inter (deref l s)) s) as Hp. fold p in Hp.
  rewrite check_outer_false. split.
  - intros H i j (Hi & Hj & Hn). apply H; lia.
  - intros H i j Hi Hj. apply H. unfold across. lia.
Qed.

End commit_and_check.

Section loader.

Implicit Types (s : state) (ps : list point_t) (toks : list Z).

Lemma write_point_length i f ps :
  (i ≤ length ps)%nat → (S i ≤ length (write_point i f ps))%nat.
Proof.
  intros H. unfold write_point. case_match eqn:Hlt.
  - apply Nat.ltb_lt in Hlt. rewrite length_alter. lia.
  - rewrite length_app. simpl. lia.
Qed.

Lemma in_taken_fits x : in_taken x = true → fits_int x = true.
Proof.
  unfold in_taken, fits_int, MAX_PTS, INT_MIN, INT_MAX.
  rewrite !andb_true_iff, !Z.leb_le, Z.ltb_lt. lia.
Qed.

(** The number of points stored: one for every call of [fscanf] that
    finds an integer, up to [MAX_PTS]. *)
Lemma read_points_count toks :
  ∀ x y i ps j ps',
    Z.of_nat i ≤ MAX_PTS →
    read_points toks x y i ps = Some (j, ps') →
    Z.of_nat j =
    Z.min (Z.of_nat i + (Z.of_nat (length toks) + 1) `div` 2) MAX_PTS.
Proof.
  assert (H : ∀ n toks, (length toks < n)%nat → ∀ x y i ps j ps',
    Z.of_nat i ≤ MAX_PTS →
    read_points toks x y i ps = Some (j, ps') →
    Z.of_nat j =
    Z.min (Z.of_nat i + (Z.of_nat (length toks) + 1) `div` 2) MAX_PTS).
  { clear toks. induction n as [|n IH]; intros toks Hn x y i ps j ps' Hi;
      [lia|].
    destruct toks as [|x' [|y' toks]]; simpl.
    - intros [= <- <-]. change ((Z.of_nat 0 + 1) `div` 2) with 0. lia.
    - change ((Z.of_nat 1 + 1) `div` 2) with 1.
      destruct (fits_int x'); simpl; [|done].
      destruct (Z.ltb_spec (Z.of_nat i) MAX_PTS); simpl.
      + destruct (in_taken x'); simpl; [|done]. intros [= <- <-]. lia.
      + intros [= <- <-]. lia.
    - replace ((Z.of_nat (S (S (length toks))) + 1) `div` 2)
        with ((Z.of_nat (length toks) + 1) `div` 2 + 1).
      2:{ replace (Z.of_nat (S (S (length toks))) + 1)
            with ((Z.of_nat (length toks) + 1) + 1 * 2) by lia.
          by rewrite Z.div_add. }
      assert (0 ≤ (Z.of_nat (length toks) + 1) `div` 2)
        by (apply Z.div_pos; lia).
      destruct (fits_int x'); simpl; [|done].
      destruct (fits_int y'); simpl; [|done].
      destruct (Z.ltb_spec (Z.of_nat i) MAX_PTS); simpl.
      + destruct (in_taken x'); simpl; [|done]. intros Hr.
        apply IH in Hr; [|simpl in *; lia..]. lia.
      + intros [= <- <-]. lia. }
  intros. eapply H; [apply Nat.lt_succ_diag_r|done..].
Qed.

Lemma read_points_length toks :
  ∀ x y i ps j ps',
    (i ≤ length ps)%nat →
    read_points toks x y i ps = Some (j, ps') →
    (j ≤ length ps')%nat.
Proof.
  assert (H : ∀ n toks, (length toks < n)%nat → ∀ x y i ps j ps',
    (i ≤ length ps)%nat →
    read_points toks x y i ps = Some (j, ps') →
    (j ≤ length ps')%nat).
  { clear toks. induction n as [|n IH]; intros toks Hn x y i ps j ps' Hi;
      [lia|].
    destruct toks as [|x' [|y' toks]]; simpl.
    - by intros [= <- <-].
    - destruct (fits_int x'); simpl; [|done].
      case_match; simpl; [|by intros [= <- <-]].
      destruct (in_taken x'); simpl; [|done]. intros [= <- <-].
      by apply write_point_length.
    - destruct (fits_int x'); simpl; [|done].
      destruct (fits_int y'); simpl; [|done].
      case_match; simpl; [|by intros [= <- <-]].
      destruct (in_taken x'); simpl; [|done].
      apply IH; [simpl in Hn; lia|]. by apply write_point_length. }
  intros. eapply H; [apply Nat.lt_succ_diag_r|done..].
Qed.

(** What a successful load leaves behind. *)
Lemma read_instance_file_success inst s s1 :
  read_instance_file inst s = Some (SUCCESS, s1) →
  0 ≤ n_pts s1 ≤ MAX_PTS ∧
  (Z.to_nat (n_pts s1) ≤ length (points s1))%nat ∧
  sorted_x_pt s1 = seq 0 (Z.to_nat (n_pts s1)) ∧
  sorted_y_pt s1 = seq 0 (Z.to_nat (n_pts s1)) ∧
  x_lines s1 = x_lines s ∧ y_lines s1 = y_lines s ∧
  all_lines s1 = all_lines s ∧ rem_cons s1 = rem_cons s.
Proof.
  unfold read_instance_file. destruct inst as [[|declared toks]|]; try done.
  destruct (fits_int declared); simpl; [|done].
  destruct (read_points toks 0 0 0 (points s)) as [[i ps]|] eqn:Hr; [|done].
  simpl. destruct (Z.eqb_spec (Z.of_nat i) declared) as [<-|]; simpl; [|done].
  intros [= <-]. simpl.
  pose proof (read_points_count toks 0 0 0%nat (points s) i ps
                ltac:(done) Hr) as Hc.
  pose proof (read_points_length toks 0 0 0%nat (points s) i ps
                ltac:(lia) Hr) as Hl.
  simpl in Hc. rewrite Nat2Z.id. unfold MAX_PTS in *.
  repeat split; try done; try lia.
Qed.

Lemma qsort_insert_perm cmp p l : qsort_insert cmp p l ≡ₚ p :: l.
Proof.
  induction l as [|q l IH]; simpl; [done|].
  case_match; [|done]. rewrite IH. apply Permutation_swap.
Qed.

Lemma qsort_perm cmp l : qsort cmp l ≡ₚ l.
Proof.
  induction l as [|p l IH]; simpl; [done|].
  by rewrite qsort_insert_perm, IH.
Qed.

End loader.

Section initialisation.

Implicit Types (s : state) (ps : list point_t) (p : point_t).

Lemma init_frame_refl s : init_frame s s.
Proof. by split. Qed.

Lemma init_frame_trans s1 s2 s3 :
  init_frame s1 s2 → init_frame s2 s3 → init_frame s1 s3.
Proof. intros [] []. split; congruence. Qed.

Lemma fmap_alter_same {B} (g : point_t → B) (f : point_t → point_t) i ps :
  (∀ p, g (f p) = g p) → g <$> alter f i ps = g <$> ps.
Proof.
  intros Hf. revert i. induction ps as [|p ps IH]; intros [|i]; try done.
  - cbn. by rewrite Hf.
  - cbn. f_equal. apply IH.
Qed.

Lemma init_frame_alter (f : point_t → point_t) i ps s :
  (∀ p, pt_x (f p) = pt_x p ∧ pt_y (f p) = pt_y p) →
  init_frame (set_points ps s) (set_points (alter f i ps) s).
Proof.
  intros Hf. split; simpl; try done.
  - by rewrite length_alter.
  - apply fmap_alter_same. intros p. destruct (Hf p). congruence.
Qed.

Lemma row_len_alter (f : point_t → point_t) i ps s m :
  (∀ p, length (pt_connections (f p)) = length (pt_connections p)) →
  row_len (set_points (alter f i ps) s) m = row_len (set_points ps s) m.
Proof.
  intros Hf. unfold row_len. simpl. rewrite list_lookup_alter.
  case_decide; subst; [|done]. destruct (ps !! m); simpl; [|done].
  apply Hf.
Qed.

Lemma self_ix_alter (f : point_t → point_t) i ps m :
  (∀ p, pt_self_ix (f p) = pt_self_ix p) →
  pt_self_ix <$> (alter f i ps) !! m = pt_self_ix <$> ps !! m.
Proof.
  intros Hf. rewrite list_lookup_alter.
  case_decide; subst; [|done]. destruct (ps !! m); simpl; [|done].
  by rewrite Hf.
Qed.

Lemma conn_store_row s ps a b c i j :
  conn (set_points (alter (store_connection b c) a ps) s) i j =
  if decide (i = a ∧ j = b) then
    if decide (b < row_len (set_points ps s) a)%nat then c else None
  else conn (set_points ps s) i j.
Proof.
  rewrite conn_store. unfold row_len. simpl. by destruct (ps !! a).
Qed.

Lemma init_step_spec i j s :
  let s' := init_step i j s in
  init_frame s s' ∧
  (∀ m, row_len s' m = row_len s m) ∧
  (∀ m, pt_self_ix <$> points s' !! m = pt_self_ix <$> points s !! m) ∧
  ∀ a b, conn s' a b =
         if decide (a = i ∧ b = j) then
           if decide (j < row_len s i)%nat
           then (if decide (i = j) then None else Some j) else None
         else conn s a b.
Proof.
  unfold init_step. destruct s as [ps sx sy xl yl al n r].
  set (s := mk_state ps sx sy xl yl al n r).
  change ps with (points s).
  destruct (Nat.eqb_spec i j) as [->|Hne]; simpl.
  - split; [by apply (init_frame_alter _ _ (points s) s)|].
    split; [intros m; apply (row_len_alter _ _ (points s) s); intros p; simpl; apply length_insert|].
    split; [intros m; by apply self_ix_alter|].
    intros a b. rewrite conn_store_row. by rewrite (decide_True (P := j = j)).
  - split.
    { eapply init_frame_trans;
        [apply (init_frame_alter (store_connection j (Some j)) i (points s) s); done|].
      destruct (init_frame_alter (λ p, set_con_cnt (pt_con_cnt p + 1) p) i
                  (alter (store_connection j (Some j)) i (points s)) s) as []; [done|].
      by split. }
    split.
    { intros m.
      change (row_len (set_rem_cons ?r ?s) m) with (row_len s m).
      rewrite row_len_alter by done.
      apply (row_len_alter _ _ (points s) s). intros p. simpl. apply length_insert. }
    split.
    { intros m. simpl. rewrite self_ix_alter by done. by apply self_ix_alter. }
    intros a b. rewrite conn_set_rem_cons, conn_set_con_cnt, conn_store_row.
    by rewrite (decide_False (P := i = j)).
Qed.

End initialisation.

Section init_loops.

Implicit Types (s : state) (ps : list point_t) (p : point_t).

Lemma init_inner_spec k i j s :
  let s' := init_inner k i j s in
  init_frame s s' ∧
  (∀ m, row_len s' m = row_len s m) ∧
  (∀ m, pt_self_ix <$> points s' !! m = pt_self_ix <$> points s !! m) ∧
  ∀ a b, conn s' a b =
         if decide (a = i ∧ (j ≤ b < j + k)%nat) then
           if decide (b < row_len s i)%nat
           then (if decide (i = b) then None else Some b) else None
         else conn s a b.
Proof.
  revert j s. induction k as [|k IH]; intros j s; simpl.
  - split; [apply init_frame_refl|]. do 2 (split; [done|]).
    intros a b. rewrite decide_False; [done|lia].
  - destruct (init_step_spec i j s) as (Hf1 & Hr1 & Hs1 & Hc1).
    destruct (IH (S j) (init_step i j s)) as (Hf & Hr & Hs & Hc).
    split; [by eapply init_frame_trans|].
    split; [intros m; by rewrite Hr, Hr1|].
    split; [intros m; by rewrite Hs, Hs1|].
    intros a b. rewrite Hc, Hc1, Hr1.
    repeat case_decide; destruct_and?; subst; try done; try (exfalso; lia).
Qed.

Lemma init_outer_spec k i s :
  let s' := init_outer k i s in
  init_frame s s' ∧
  (∀ m, row_len s' m = row_len s m) ∧
  (∀ m, pt_self_ix <$> points s' !! m =
        if decide ((i ≤ m < i + k)%nat ∧ (m < length (points s))%nat)
        then Some m else pt_self_ix <$> points s !! m) ∧
  ∀ a b, conn s' a b =
         if decide ((i ≤ a < i + k)%nat ∧ (b < Z.to_nat (n_pts s))%nat) then
           if decide (b < row_len s a)%nat
           then (if decide (a = b) then None else Some b) else None
         else conn s a b.
Proof.
  revert i s. induction k as [|k IH]; intros i s; simpl.
  - split; [apply init_frame_refl|]. split; [done|].
    split; intros; (rewrite decide_False; [done|lia]).
  - destruct s as [ps sx sy xl yl al n r].
    set (s := mk_state ps sx sy xl yl al n r). change ps with (points s).
    set (s1 := set_points (alter (set_self_ix i) i (points s)) s).
    assert (Hf0 : init_frame s s1)
      by (by apply (init_frame_alter _ _ (points s) s)).
    assert (Hr0 : ∀ m, row_len s1 m = row_len s m)
      by (intros m; by apply (row_len_alter _ _ (points s) s)).
    assert (Hc0 : ∀ a b, conn s1 a b = conn s a b)
      by (intros a b; apply conn_set_self_ix).
    assert (Hn0 : n_pts s1 = n_pts s) by done.
    destruct (init_inner_spec (Z.to_nat (n_pts s1)) i 0 s1)
      as (Hf1 & Hr1 & Hs1 & Hc1).
    set (s2 := init_inner (Z.to_nat (n_pts s1)) i 0 s1) in *.
    destruct (IH (S i) s2) as (Hf & Hr & Hs & Hc).
    split; [eapply init_frame_trans; [|done]; by eapply init_frame_trans|].
    split; [intros m; by rewrite Hr, Hr1, Hr0|].
    split.
    + intros m. rewrite Hs, Hs1, (if_length _ _ Hf1), (if_length _ _ Hf0).
      unfold s1. simpl. rewrite list_lookup_alter.
      destruct (ps !! m) as [p|] eqn:Hp.
      * pose proof (lookup_lt_Some _ _ _ Hp) as Hlt.
        repeat case_decide; destruct_and?; subst; try done;
          try (exfalso; lia); by rewrite ?Hp.
      * pose proof (proj1 (lookup_ge_None _ _) Hp) as Hge.
        repeat case_decide; destruct_and?; subst; try done;
          try (exfalso; lia); by rewrite ?Hp.
    + intros a b. rewrite Hc, Hc1, !Hr1, !Hr0, Hc0.
      rewrite (if_n_pts _ _ Hf1), Hn0.
      repeat case_decide; destruct_and?; subst; try done; try (exfalso; lia).
Qed.

Lemma alloc_loop_spec k i s :
  let s' := alloc_loop k i s in
  init_frame s s' ∧
  rem_cons s' = rem_cons s ∧
  (∀ m, row_len s' m =
        if decide ((i ≤ m < i + k)%nat ∧ (m < length (points s))%nat)
        then Z.to_nat MAX_PTS else row_len s m).
Proof.
  revert i s. induction k as [|k IH]; intros i s; simpl.
  - split; [apply init_frame_refl|]. split; [done|].
    intros; (rewrite decide_False; [done|lia]).
  - destruct s as [ps sx sy xl yl al n r].
    set (s := mk_state ps sx sy xl yl al n r). change ps with (points s).
    set (s1 := set_points (alter malloc_connections i (points s)) s).
    assert (Hf0 : init_frame s s1)
      by (by apply (init_frame_alter _ _ (points s) s)).
    destruct (IH (S i) s1) as (Hf & Hrem & Hr).
    split; [by eapply init_frame_trans|]. split; [by rewrite Hrem|].
    intros m. rewrite Hr, (if_length _ _ Hf0).
    unfold row_len, s1. simpl. rewrite list_lookup_alter.
    destruct (ps !! m) as [p|] eqn:Hp.
    + pose proof (lookup_lt_Some _ _ _ Hp) as Hlt.
      repeat case_decide; destruct_and?; subst; simpl; try done;
        try (exfalso; lia); rewrite ?Hp; simpl; by rewrite ?length_replicate.
    + pose proof (proj1 (lookup_ge_None _ _) Hp) as Hge.
      repeat case_decide; destruct_and?; subst; simpl; try done;
        try (exfalso; lia); by rewrite ?Hp.
Qed.

End init_loops.

Section counting.

Implicit Types (f g : nat → bool) (u v : nat → nat).

Lemma count_upto_le n f : (count_upto n f ≤ n)%nat.
Proof. induction n as [|n IH]; simpl; [done|]. case_match; lia. Qed.

Lemma count_upto_ext n f g :
  (∀ i, (i < n)%nat → f i = g i) → count_upto n f = count_upto n g.
Proof.
  induction n as [|n IH]; intros H; simpl; [done|].
  rewrite IH, (H n); [done|lia|]. intros i Hi. apply H. lia.
Qed.

Lemma count_upto_none n f :
  (∀ i, (i < n)%nat → f i = false) → count_upto n f = 0%nat.
Proof.
  induction n as [|n IH]; intros H; simpl; [done|].
  rewrite IH, (H n); [done|lia|]. intros i Hi. apply H. lia.
Qed.

(** Setting one more index raises the count by one. *)
Lemma count_upto_set n f g a :
  (a < n)%nat → f a = false → g a = true →
  (∀ i, (i < n)%nat → i ≠ a → f i = g i) →
  count_upto n g = S (count_upto n f).
Proof.
  induction n as [|n IH]; intros Ha Hf Hg H; simpl; [lia|].
  destruct (decide (a = n)) as [->|Hne].
  - rewrite Hf, Hg. rewrite (count_upto_ext n f g); [lia|].
    intros i Hi. apply H; lia.
  - rewrite IH, (H n); [lia|lia|done|lia|done|done|].
    intros i Hi ?. apply H; [lia|done].
Qed.

Lemma sum_upto_ext n u v :
  (∀ j, (j < n)%nat → u j = v j) → sum_upto n u = sum_upto n v.
Proof.
  induction n as [|n IH]; intros H; simpl; [done|].
  rewrite IH, (H n); [done|lia|]. intros i Hi. apply H. lia.
Qed.

Lemma sum_upto_le n u v :
  (∀ j, (j < n)%nat → (u j ≤ v j)%nat) → (sum_upto n u ≤ sum_upto n v)%nat.
Proof.
  induction n as [|n IH]; intros H; simpl; [done|].
  assert (u n ≤ v n)%nat by (apply H; lia).
  assert (sum_upto n u ≤ sum_upto n v)%nat; [|lia].
  apply IH. intros j Hj. apply H. lia.
Qed.

Lemma sum_upto_succ n u v a :
  (a < n)%nat → v a = S (u a) →
  (∀ j, (j < n)%nat → j ≠ a → u j = v j) →
  sum_upto n v = S (sum_upto n u).
Proof.
  induction n as [|n IH]; intros Ha Hv H; simpl; [lia|].
  destruct (decide (a = n)) as [->|Hne].
  - rewrite Hv. rewrite (sum_upto_ext n u v); [lia|].
    intros i Hi. apply H; lia.
  - rewrite IH, (H n); [lia|lia|done|lia|done|].
    intros i Hi ?. apply H; [lia|done].
Qed.

(** There are [n (n - 1) / 2] pairs [i < j < n]. *)
Lemma sum_upto_id n :
  2 * Z.of_nat (sum_upto n (λ j, j)) = Z.of_nat n * (Z.of_nat n - 1).
Proof. induction n as [|n IH]; simpl; [done|]. lia. Qed.

Lemma disconnected_pairs_bound s :
  0 ≤ n_pts s →
  2 * Z.of_nat (disconnected_pairs s) ≤ n_pts s * (n_pts s - 1).
Proof.
  intros Hn. unfold disconnected_pairs.
  pose proof (sum_upto_le (Z.to_nat (n_pts s))
    (λ j, count_upto j (λ i, negb (is_connected s i j))) (λ j, j)) as H.
  pose proof (sum_upto_id (Z.to_nat (n_pts s))) as Hid.
  rewrite Z2Nat.id in Hid by done.
  assert (sum_upto (Z.to_nat (n_pts s))
            (λ j, count_upto j (λ i, negb (is_connected s i j)))
          ≤ sum_upto (Z.to_nat (n_pts s)) (λ j, j))%nat; [|lia].
  apply H. intros j _. apply count_upto_le.
Qed.

Lemma pairs_even n : Z.even (n * (n - 1)) = true.
Proof.
  rewrite Z.even_mul, Z.even_sub. simpl.
  destruct (Z.even n); done.
Qed.

End counting.

Section sorting.

Implicit Types (s : state) (l : list nat).

Lemma pt_compare_pos axis s p q :
  (pt_compare axis s p q >? 0) = (key axis s p >? key axis s q).
Proof.
  unfold pt_compare, key.
  destruct (Z.gtb_spec (pt_coord axis (points s !!! p))
                       (pt_coord axis (points s !!! q))); [done|].
  by case_match.
Qed.

Lemma qsort_insert_sorted axis s p l :
  StronglySorted (λ a b, key axis s a ≤ key axis s b) l →
  StronglySorted (λ a b, key axis s a ≤ key axis s b)
    (qsort_insert (pt_compare axis s) p l).
Proof.
  induction 1 as [|q l Hl IH Hq]; simpl.
  - by repeat constructor.
  - rewrite pt_compare_pos.
    destruct (Z.gtb_spec (key axis s p) (key axis s q)) as [Hgt|Hle].
    + constructor; [done|].
      rewrite qsort_insert_perm. constructor; [lia|done].
    + constructor; [by constructor|].
      constructor; [done|].
      eapply List.Forall_impl; [|exact Hq]. simpl. intros; lia.
Qed.

Lemma qsort_sorted axis s l :
  StronglySorted (λ a b, key axis s a ≤ key axis s b)
    (qsort (pt_compare axis s) l).
Proof.
  induction l as [|p l IH]; simpl; [constructor|].
  by apply qsort_insert_sorted.
Qed.

Lemma StronglySorted_lookup {A} (R : A → A → Prop) (l : list A) i j a b :
  StronglySorted R l → (i < j)%nat →
  l !! i = Some a → l !! j = Some b → R a b.
Proof.
  intros Hs. revert i j. induction Hs as [|x l Hl IH Hx]; intros i j Hij Ha Hb.
  - done.
  - destruct j as [|j]; [lia|]. destruct i as [|i]; simpl in *.
    + simplify_eq. rewrite Forall_forall in Hx. apply Hx.
      by eapply list_elem_of_lookup_2.
    + eapply (IH i j); [lia|done..].
Qed.

Lemma key_init_frame axis s s' k :
  init_frame s s' → key axis s' k = key axis s k.
Proof.
  intros Hf. pose proof (if_xy _ _ Hf) as Hxy. unfold key.
  rewrite !list_lookup_total_alt.
  apply (f_equal (λ xs, xs !! k)) in Hxy. rewrite !list_lookup_fmap in Hxy.
  destruct (points s' !! k), (points s !! k); simpl in Hxy; try done.
  injection Hxy as Hx Hy. by destruct axis.
Qed.

Lemma key_div_frame axis axis' s s' k :
  div_frame axis' s s' → key axis s' k = key axis s k.
Proof. intros Hf. unfold key. by rewrite (df_points _ _ _ Hf). Qed.

Lemma StronglySorted_weaken {A} (R R' : A → A → Prop) (l : list A) :
  (∀ a b, R a b → R' a b) → StronglySorted R l → StronglySorted R' l.
Proof.
  intros HR. induction 1 as [|x l Hl IH Hx]; constructor; [done|].
  eapply List.Forall_impl; [|exact Hx]. apply HR.
Qed.

Lemma key_frame_eq axis s s' k :
  frame_eq s s' → key axis s' k = key axis s k.
Proof.
  intros Hf. pose proof (frame_eq_geom_total s s' k Hf) as Hg.
  unfold key, geom in *. simplify_eq. by destruct axis.
Qed.

End sorting.

Section invariants.

Implicit Types (s : state) (ps : list point_t) (p : point_t).

Lemma initialize_connections_spec s s2 :
  0 ≤ n_pts s ≤ MAX_PTS →
  (Z.to_nat (n_pts s) ≤ length (points s))%nat →
  initialize_connections s = Some s2 →
  init_frame s s2 ∧
  rem_cons s2 = n_pts s * (n_pts s - 1) ∧
  (∀ i p, (i < Z.to_nat (n_pts s))%nat →
          points s2 !! i = Some p → pt_self_ix p = i) ∧
  ∀ a b, (a < Z.to_nat (n_pts s))%nat → (b < Z.to_nat (n_pts s))%nat →
         conn s2 a b = if decide (a = b) then None else Some b.
Proof.
  intros Hn Hlen. unfold initialize_connections.
  set (n := Z.to_nat (n_pts s)) in *.
  destruct (alloc_loop_spec n 0 s) as (Hf1 & Hrem1 & Hr1).
  set (s1 := alloc_loop n 0 s) in *.
  destruct (init_outer_spec n 0 s1) as (Hf & Hr & Hs & Hc).
  set (s' := init_outer n 0 s1) in *.
  assert (Hn' : n_pts s' = n_pts s)
    by (by rewrite (if_n_pts _ _ Hf), (if_n_pts _ _ Hf1)).
  rewrite Hn'. destruct (Z.eqb_spec (rem_cons s') (n_pts s * (n_pts s - 1)));
    simpl; [|done].
  intros [= <-].
  split; [by eapply init_frame_trans|]. split; [done|]. split.
  - intros i p Hi Hp. specialize (Hs i). rewrite Hp in Hs. simpl in Hs.
    rewrite decide_True in Hs; [by simplify_eq|].
    rewrite (if_length _ _ Hf1). unfold n in *. lia.
  - intros a b Ha Hb. rewrite Hc, (if_n_pts _ _ Hf1).
    unfold n in *.
    assert (row_len s1 a = Z.to_nat MAX_PTS) as Hrow.
    { rewrite Hr1. apply decide_True. lia. }
    rewrite Hrow, decide_True by lia.
    rewrite decide_True; [done|]. unfold MAX_PTS in *. lia.
Qed.

Lemma sum_upto_zero n : sum_upto n (λ _, 0%nat) = 0%nat.
Proof. induction n as [|n IH]; simpl; lia. Qed.

Lemma sort_points_views axis s :
  view axis (sort_points s) ≡ₚ view axis s.
Proof. destruct axis; simpl; apply qsort_perm. Qed.

(** The initialisation establishes both invariants. *)
Lemma reach_init_ok inst s0 s1 s2 :
  read_instance_file inst s0 = Some (SUCCESS, s1) →
  initialize_connections (sort_points s1) = Some s2 →
  shape_ok s2 ∧ graph_ok s2 ∧ disconnected_pairs s2 = 0%nat.
Proof.
  intros Hread Hinit.
  destruct (read_instance_file_success _ _ _ Hread)
    as (Hn & Hlen & Hsx & Hsy & _).
  destruct (initialize_connections_spec (sort_points s1) s2)
    as (Hf & Hrem & Hself & Hconn); [done..|].
  simpl in Hrem, Hself, Hconn.
  pose proof (if_n_pts _ _ Hf) as Hn2. simpl in Hn2.
  assert (Hview : ∀ axis, view axis s2 ≡ₚ seq 0 (Z.to_nat (n_pts s1))).
  { intros axis.
    assert (view axis s2 = view axis (sort_points s1)) as ->.
    { destruct axis; [apply (if_sorted_x _ _ Hf)|apply (if_sorted_y _ _ Hf)]. }
    rewrite sort_points_views. destruct axis; simpl; by rewrite ?Hsx, ?Hsy. }
  assert (Hdisc : disconnected_pairs s2 = 0%nat).
  { unfold disconnected_pairs. rewrite Hn2.
    rewrite (sum_upto_ext _ _ (λ _, 0%nat)); [apply sum_upto_zero|].
    intros j Hj. apply count_upto_none. intros i Hi.
    unfold is_connected. rewrite Hconn by lia.
    rewrite decide_False by lia. done. }
  split; [|split; [|done]].
  - split.
    + by rewrite Hn2.
    + rewrite Hn2, (if_length _ _ Hf). done.
    + rewrite Hn2. apply Hself.
    + intros axis. rewrite Hn2, (Hview axis). apply length_seq.
    + intros axis i k Hk. rewrite Hn2.
      apply list_elem_of_lookup_2 in Hk. rewrite (Hview axis) in Hk.
      apply elem_of_seq in Hk. lia.
    + intros axis.
      assert (view axis s2 = view axis (sort_points s1)) as ->.
      { destruct axis; [apply (if_sorted_x _ _ Hf)|apply (if_sorted_y _ _ Hf)]. }
      eapply (StronglySorted_weaken (λ a b, key axis s1 a ≤ key axis s1 b)).
      * intros a b. simpl.
        by rewrite !(key_init_frame axis (sort_points s1) s2 _ Hf).
      * destruct axis; apply qsort_sorted.
  - split.
    + intros i Hi. rewrite Hn2 in Hi. rewrite Hconn by done.
      by rewrite decide_True.
    + intros i j Hi Hj. rewrite Hn2 in Hi, Hj. rewrite !Hconn by done.
      repeat case_decide; subst; done.
    + rewrite Hdisc, Hrem, Hn2. lia.
Qed.

Lemma shape_ok_frame s s' : frame_eq s s' → shape_ok s → shape_ok s'.
Proof.
  intros Hf [Hn Hlen Hself Hvl Hvlt Hsorted].
  pose proof (fr_geom _ _ Hf) as Hg.
  assert (Hv : ∀ axis, view axis s' = view axis s)
    by (intros; symmetry; by apply frame_eq_view).
  rewrite (fr_n_pts _ _ Hf) in *.
  split; try done.
  - apply (f_equal length) in Hg. rewrite !length_fmap in Hg. lia.
  - intros i p' Hi Hp'.
    apply (f_equal (λ l, l !! i)) in Hg. rewrite !list_lookup_fmap, Hp' in Hg.
    destruct (points s !! i) as [p|] eqn:Hp; simpl in Hg; [|done].
    injection Hg as Hx Hy Hix. rewrite <-Hix. by apply Hself.
  - intros axis. by rewrite Hv.
  - intros axis i k. rewrite Hv. apply Hvlt.
  - intros axis. rewrite Hv.
    eapply StronglySorted_weaken; [|apply Hsorted].
    intros a b. simpl. by rewrite !(key_frame_eq axis s s' _ Hf).
Qed.

(** In a well-shaped state, position [i] of a view names the point whose
    own index it holds. *)
Lemma self_ix_at_lt axis s i :
  shape_ok s → (i < Z.to_nat (n_pts s))%nat →
  (self_ix_at axis s i < Z.to_nat (n_pts s))%nat ∧
  view axis s !! i = Some (self_ix_at axis s i).
Proof.
  intros [Hn Hlen Hself Hvl Hvlt _] Hi. unfold self_ix_at.
  destruct (lookup_lt_is_Some_2 (view axis s) i) as [k Hk];
    [by rewrite Hvl|].
  rewrite (list_lookup_total_correct _ _ _ Hk).
  pose proof (Hvlt axis i k Hk) as Hlt.
  destruct (lookup_lt_is_Some_2 (points s) k) as [p Hp]; [lia|].
  rewrite (list_lookup_total_correct _ _ _ Hp).
  rewrite (Hself k p Hlt Hp). done.
Qed.

End invariants.

Section disconnect_invariant.

Implicit Types (s : state).

Lemma is_connected_disconnect s pt1 pt2 i j :
  is_connected (disconnect_points pt1 pt2 s) i j =
  if is_connected s pt1 pt2 &&
     bool_decide ((i = pt1 ∧ j = pt2) ∨ (i = pt2 ∧ j = pt1))
  then false else is_connected s i j.
Proof.
  unfold is_connected. rewrite conn_disconnect.
  by destruct (_ && _).
Qed.

Lemma disconnect_n_pts pt1 pt2 s :
  n_pts (disconnect_points pt1 pt2 s) = n_pts s.
Proof. symmetry. apply (fr_n_pts _ _ (disconnect_frame pt1 pt2 s)). Qed.

(** Clearing the entries of a connected pair adds exactly one
    disconnected pair. *)
Lemma disconnected_pairs_disconnect s lo hi pt1 pt2 :
  (lo < hi)%nat → (hi < Z.to_nat (n_pts s))%nat →
  (pt1 = lo ∧ pt2 = hi) ∨ (pt1 = hi ∧ pt2 = lo) →
  is_connected s pt1 pt2 = true →
  is_connected s lo hi = true →
  disconnected_pairs (disconnect_points pt1 pt2 s) =
  S (disconnected_pairs s).
Proof.
  intros Hlt Hhi Hpts Hc Hlohi. unfold disconnected_pairs.
  rewrite disconnect_n_pts.
  apply (sum_upto_succ _ _ _ hi); [done|..].
  - apply (count_upto_set _ _ _ lo); [done|by rewrite Hlohi|..].
    + rewrite is_connected_disconnect, Hc. simpl.
      rewrite bool_decide_eq_true_2; [done|]. naive_solver.
    + intros i Hi Hne. rewrite is_connected_disconnect, Hc. simpl.
      rewrite bool_decide_eq_false_2; [done|]. naive_solver lia.
  - intros j Hj Hne. apply count_upto_ext. intros i Hi.
    rewrite is_connected_disconnect, Hc. simpl.
    rewrite bool_decide_eq_false_2; [done|]. naive_solver lia.
Qed.

Lemma disconnect_graph_ok pt1 pt2 s :
  (pt1 < Z.to_nat (n_pts s))%nat → (pt2 < Z.to_nat (n_pts s))%nat →
  graph_ok s → graph_ok (disconnect_points pt1 pt2 s).
Proof.
  intros H1 H2 [Hdiag Hsym Hrem].
  split; rewrite ?disconnect_n_pts.
  - intros i Hi. rewrite conn_disconnect. case_match; [done|by apply Hdiag].
  - intros i j Hi Hj. rewrite !conn_disconnect.
    rewrite (bool_decide_ext ((j = pt1 ∧ i = pt2) ∨ (j = pt2 ∧ i = pt1))
               ((i = pt1 ∧ j = pt2) ∨ (i = pt2 ∧ j = pt1))) by naive_solver.
    case_match; [done|by apply Hsym].
  - rewrite disconnect_rem_cons.
    destruct (is_connected s pt1 pt2) eqn:Hc.
    + assert (pt1 ≠ pt2) as Hne.
      { intros ->. apply is_connected_Some in Hc.
        rewrite Hdiag in Hc by done. by destruct Hc. }
      assert (is_connected s pt2 pt1 = true) as Hc'.
      { destruct (is_connected s pt2 pt1) eqn:Hc'; [done|].
        apply is_connected_None, Hsym, is_connected_None in Hc'; [|done..].
        congruence. }
      destruct (decide (pt1 < pt2)%nat).
      * rewrite (disconnected_pairs_disconnect s pt1 pt2); [lia|done..|by left|done|done].
      * rewrite (disconnected_pairs_disconnect s pt2 pt1); [lia|lia|done|by right|done|done].
    + assert (disconnect_points pt1 pt2 s = s) as ->; [|done].
      unfold disconnect_points. by rewrite Hc.
Qed.

Lemma disconnect_shape_ok pt1 pt2 s :
  shape_ok s → shape_ok (disconnect_points pt1 pt2 s).
Proof. apply shape_ok_frame, disconnect_frame. Qed.

(** The loops of [commit] keep the invariants: every position they use
    is below [n_pts]. *)
Lemma commit_inner_ok k axis i j s :
  (i < Z.to_nat (n_pts s))%nat →
  (k = 0 ∨ j + k ≤ Z.to_nat (n_pts s))%nat →
  shape_ok s → graph_ok s →
  shape_ok (commit_inner k axis i j s) ∧ graph_ok (commit_inner k axis i j s).
Proof.
  revert j s. induction k as [|k IH]; intros j s Hi Hj Hs Hg; simpl; [done|].
  apply IH; rewrite ?disconnect_n_pts; [done|lia|by apply disconnect_shape_ok|].
  apply disconnect_graph_ok; [..|done]; by apply self_ix_at_lt; [|lia].
Qed.

Lemma commit_outer_ok k axis p i s :
  -1 ≤ p → (i + k ≤ Z.to_nat (n_pts s))%nat →
  shape_ok s → graph_ok s →
  shape_ok (commit_outer k axis p i s) ∧ graph_ok (commit_outer k axis p i s).
Proof.
  revert i s. induction k as [|k IH]; intros i s Hp Hi Hs Hg; simpl; [done|].
  destruct (commit_inner_ok (Z.to_nat (n_pts s - (p + 1))) axis i
              (Z.to_nat (p + 1)) s) as [Hs1 Hg1]; [lia|lia|done..|].
  pose proof (commit_inner_spec (Z.to_nat (n_pts s - (p + 1))) axis i
              (Z.to_nat (p + 1)) s) as (Hf & _).
  apply IH; [done| |done..]. rewrite <-(fr_n_pts _ _ Hf). lia.
Qed.

End disconnect_invariant.

Section candidates.

Implicit Types (s : state) (ln : line_t).

Lemma half_of_bounds span :
  0 ≤ span → span ≠ 0 → span ≠ 1 → 1 ≤ half_of span ≤ span - 1.
Proof.
  intros. unfold half_of. case_match; Z.to_euclidean_division_equations; lia.
Qed.

Lemma div_frame_refl axis s : div_frame axis s s.
Proof. by split. Qed.

Lemma div_frame_trans axis s1 s2 s3 :
  div_frame axis s1 s2 → div_frame axis s2 s3 → div_frame axis s1 s3.
Proof.
  intros [? ? ? ? ? ? Ho1] [? ? ? ? ? ? Ho2]. split; try congruence.
  intros axis' Hne. rewrite Ho2, Ho1; done.
Qed.

Lemma push_line_frame axis ln s : div_frame axis s (push_line axis ln s).
Proof.
  destruct axis; split; simpl; try done; by intros [] ?.
Qed.

Lemma push_line_lines axis ln s :
  lines_of axis (push_line axis ln s) = lines_of axis s ++ [ln].
Proof. by destruct axis. Qed.

Lemma div_frame_point_at axis axis' s s' k :
  div_frame axis' s s' → point_at axis s' k = point_at axis s k.
Proof.
  intros [Hp Hx Hy _ _ _ _]. unfold point_at.
  assert (view axis s' = view axis s) as -> by (by destruct axis).
  by rewrite Hp.
Qed.

Lemma midpoint_line_frame axis axis' s s' k ln :
  div_frame axis' s s' → midpoint_line axis s' k ln → midpoint_line axis s k ln.
Proof.
  intros Hf (pt1 & pt2 & H1 & H2 & ->).
  rewrite (div_frame_point_at _ _ _ _ _ Hf) in H1.
  rewrite (div_frame_point_at _ _ _ _ _ Hf) in H2.
  by exists pt1, pt2.
Qed.

(** What one call of [div_axis_rec] does when it returns. *)
Lemma div_axis_rec_spec fuel axis from to s s' :
  from ≤ to →
  div_axis_rec fuel axis from to s = Some s' →
  div_frame axis s s' ∧
  ∃ new, lines_of axis s' = lines_of axis s ++ new ∧
         length new = div_count fuel from to ∧
         Forall (λ ln, ∃ k, from < k < to ∧ midpoint_line axis s k ln) new.
Proof.
  revert from to s s'. induction fuel as [|fuel IH];
    intros from to s s' Hft; simpl; [done|].
  fold (half_of (to - from)).
  destruct (Z.eqb_spec from to) as [->|Hne].
  { intros [= <-]. split; [apply div_frame_refl|]. exists [].
    by rewrite app_nil_r. }
  destruct (Z.eqb_spec (to - from) 0) as [|H0]; [lia|].
  destruct (Z.eqb_spec (to - from) 1) as [H1|H1]; simpl.
  { intros [= <-]. split; [apply div_frame_refl|]. exists [].
    by rewrite app_nil_r. }
  pose proof (half_of_bounds (to - from) ltac:(lia) H0 H1) as Hh.
  set (half := half_of (to - from)) in *.
  destruct (Z.eqb_spec half 0) as [|_]; [lia|]. simpl.
  destruct (point_at axis s (from + half)) as [pt1|] eqn:Hp1; [|done].
  destruct (point_at axis s (from + (half + 1))) as [pt2|] eqn:Hp2; [|done].
  set (ln := mk_line axis 0 _).
  assert (Hln : ∃ k, from < k < to ∧ midpoint_line axis s k ln).
  { exists (from + half). split; [lia|]. exists pt1, pt2.
    split; [done|]. split; [|done]. by rewrite <-Z.add_assoc. }
  pose proof (push_line_frame axis ln s) as Hf1.
  pose proof (push_line_lines axis ln s) as Hl1.
  set (s1 := push_line axis ln s) in *.
  destruct (Z.eqb_spec (to - from) 2) as [H2|H2]; simpl.
  { intros [= <-]. split; [done|]. exists [ln].
    split; [done|]. split; [done|]. by constructor. }
  destruct (div_axis_rec fuel axis from (from + half) s1) as [s2|] eqn:Hd1;
    [|done].
  intros Hd2.
  apply IH in Hd1 as (Hf2 & new1 & Hl2 & Hlen1 & Hall1); [|lia].
  apply IH in Hd2 as (Hf3 & new2 & Hl3 & Hlen2 & Hall2); [|lia].
  split; [eapply div_frame_trans; [|done]; by eapply div_frame_trans|].
  exists (ln :: new1 ++ new2).
  split; [rewrite Hl3, Hl2, Hl1, <-!app_assoc; done|].
  split; [simpl; rewrite length_app; lia|].
  constructor; [done|]. apply Forall_app. split.
  - eapply List.Forall_impl; [|apply Hall1]. simpl. intros l (k & Hk & Hm).
    exists k. split; [lia|]. by eapply midpoint_line_frame.
  - eapply List.Forall_impl; [|apply Hall2]. simpl. intros l (k & Hk & Hm).
    exists k. split; [lia|].
    eapply midpoint_line_frame; [apply Hf1|]. by eapply midpoint_line_frame.
Qed.

End candidates.

Section reachable_states.

Implicit Types (s : state) (l : line_ptr).

Lemma nearest_loop_upper k axis inter s i :
  nearest_loop k axis inter s i = -1 ∨
  nearest_loop k axis inter s i + 1 < Z.of_nat (i + k).
Proof.
  revert i. induction k as [|k IH]; intros i; simpl; [by left|].
  case_match; [right; lia|].
  destruct (IH (S i)) as [->|Hlt]; [by left|right; lia].
Qed.

Lemma nearest_upper axis inter s :
  0 ≤ n_pts s → get_point_nearest_inter axis inter s + 1 ≤ n_pts s.
Proof.
  intros Hn. unfold get_point_nearest_inter.
  destruct (nearest_loop_upper (Z.to_nat (n_pts s)) axis inter s 0)
    as [->|H]; lia.
Qed.

Lemma disconnected_pairs_ext s s' :
  n_pts s' = n_pts s → (∀ i j, conn s' i j = conn s i j) →
  disconnected_pairs s' = disconnected_pairs s.
Proof.
  intros Hn Hc. unfold disconnected_pairs. rewrite Hn.
  apply sum_upto_ext. intros j _. apply count_upto_ext. intros i _.
  unfold is_connected. by rewrite Hc.
Qed.

Lemma graph_ok_ext s s' :
  n_pts s' = n_pts s → rem_cons s' = rem_cons s →
  (∀ i j, conn s' i j = conn s i j) →
  graph_ok s → graph_ok s'.
Proof.
  intros Hn Hr Hc [Hdiag Hsym Hrem].
  split; rewrite ?Hn.
  - intros i Hi. rewrite Hc. by apply Hdiag.
  - intros i j Hi Hj. rewrite !Hc. by apply Hsym.
  - by rewrite Hr, (disconnected_pairs_ext s s').
Qed.

Lemma commit_ok l s :
  shape_ok s → graph_ok s → shape_ok (commit l s) ∧ graph_ok (commit l s).
Proof.
  intros Hs Hg.
  destruct (commit_unfold l s) as (s0 & Hf & Hc & Hr & _ & _ & _ & ->).
  pose proof (ok_n_pts _ Hs) as Hn.
  apply commit_outer_ok.
  - apply nearest_ge.
  - pose proof (nearest_upper (ln_axis (deref l s)) (ln_inter (deref l s)) s).
    pose proof (nearest_ge (ln_axis (deref l s)) (ln_inter (deref l s)) s).
    rewrite <-(fr_n_pts _ _ Hf). lia.
  - by eapply shape_ok_frame.
  - eapply graph_ok_ext; [..|done]; [symmetry; apply Hf|done..].
Qed.

Lemma div_frame_frame_eq axis s s' : div_frame axis s s' → frame_eq s s'.
Proof. intros [Hp Hx Hy Hn _ _ _]. split; congruence. Qed.

Lemma div_frame_conn axis s s' i j : div_frame axis s s' → conn s' i j = conn s i j.
Proof. intros [Hp _ _ _ _ _ _]. unfold conn. by rewrite Hp. Qed.

(** [div_axis] returns only on ranges with [from <= to]: on a negative
    span it recurses on a negative span again. *)
Lemma div_axis_rec_ordered fuel axis from to s s' :
  div_axis_rec fuel axis from to s = Some s' → from ≤ to.
Proof.
  revert from to s s'. induction fuel as [|fuel IH];
    intros from to s s'; simpl; [done|].
  fold (half_of (to - from)).
  destruct (Z.eqb_spec from to) as [->|Hne]; [lia|].
  destruct (Z.eqb_spec (to - from) 0) as [|H0]; [lia|].
  destruct (Z.eqb_spec (to - from) 1) as [H1|H1]; simpl; [lia|].
  destruct (Z.eqb_spec (half_of (to - from)) 0) as [Hh|Hh]; simpl.
  { intros _. unfold half_of in Hh. destruct (Z.lt_ge_cases to from); [|done].
    revert Hh. case_match; Z.to_euclidean_division_equations; lia. }
  destruct (point_at axis s _) as [pt1|]; [|done].
  destruct (point_at axis s _) as [pt2|]; [|done].
  destruct (Z.eqb_spec (to - from) 2) as [H2|H2]; simpl; [lia|].
  destruct (div_axis_rec fuel axis from _ _) as [s2|] eqn:Hd1; [|done].
  intros _. apply IH in Hd1.
  destruct (Z.lt_ge_cases to from); [|done].
  revert Hd1. unfold half_of.
  case_match; Z.to_euclidean_division_equations; lia.
Qed.

Lemma div_axis_spec axis from to s s' :
  div_axis axis from to s = Some s' →
  div_frame axis s s' ∧
  ∃ new, lines_of axis s' = lines_of axis s ++ new ∧
         length new = div_count (S (Z.to_nat (to - from))) from to ∧
         Forall (λ ln, ∃ k, from < k < to ∧ midpoint_line axis s k ln) new.
Proof.
  intros H. pose proof (div_axis_rec_ordered _ _ _ _ _ _ H).
  by apply div_axis_rec_spec.
Qed.

(** Every reachable state satisfies both invariants. *)
Lemma reachable_ok s : reachable s → shape_ok s ∧ graph_ok s.
Proof.
  induction 1 as [inst s0 s1 s2 Hread Hinit
                 |axis from to s s' _ [Hs Hg] Hdiv
                 |pt1 pt2 s _ [Hs Hg] H1 H2
                 |l s _ [Hs Hg] Hl].
  - destruct (reach_init_ok _ _ _ _ Hread Hinit) as (? & ? & _). done.
  - apply div_axis_spec in Hdiv as [Hf _]. split.
    + eapply shape_ok_frame; [|done]. by eapply div_frame_frame_eq.
    + eapply graph_ok_ext; [..|done];
        [apply Hf|apply Hf|intros; by eapply div_frame_conn].
  - split; [by apply disconnect_shape_ok|by apply disconnect_graph_ok].
  - by apply commit_ok.
Qed.

End reachable_states.

Section commit_properties.

Implicit Types (s : state) (l : line_ptr).

Lemma commit_lines l s :
  x_lines (commit l s) = x_lines (set_committed l s) ∧
  y_lines (commit l s) = y_lines (set_committed l s).
Proof.
  destruct (commit_unfold l s) as (s0 & _ & _ & _ & Hx & Hy & _ & ->).
  destruct (commit_outer_spec
              (Z.to_nat (get_point_nearest_inter (ln_axis (deref l s))
                           (ln_inter (deref l s)) s + 1))
              (ln_axis (deref l s))
              (get_point_nearest_inter (ln_axis (deref l s))
                 (ln_inter (deref l s)) s) 0 s0)
    as (_ & (Hx' & Hy' & _) & _).
  split; congruence.
Qed.

Lemma commit_deref l s :
  deref l (commit l s) = deref l (set_committed l s).
Proof.
  destruct (commit_lines l s) as [Hx Hy].
  destruct l as [k|k]; simpl in *; congruence.
Qed.

Lemma commit_all_lines l s : all_lines (commit l s) = all_lines s ++ [l].
Proof.
  destruct (commit_unfold l s) as (s0 & _ & _ & _ & _ & _ & Ha & ->).
  rewrite <-Ha. apply commit_outer_spec.
Qed.

Lemma commit_lines_length l s :
  n_x_lines (commit l s) = n_x_lines s ∧ n_y_lines (commit l s) = n_y_lines s.
Proof.
  destruct (commit_lines l s) as [Hx Hy].
  unfold n_x_lines, n_y_lines. rewrite Hx, Hy.
  destruct l; simpl; by rewrite length_alter.
Qed.

Lemma deref_marked l s :
  valid_ptr l s → deref l (set_committed l s) = mark_committed (deref l s).
Proof.
  destruct l as [k|k]; simpl; intros Hk;
    by rewrite list_lookup_total_alter_eq.
Qed.

End commit_properties.


Section examples.

Lemma prepare_reachable inst s0 s : prepare inst s0 = Ready s → reachable s.
Proof.
  unfold prepare.
  destruct (read_instance_file inst s0) as [[r s1]|] eqn:Hread; [|done].
  destruct r; try done.
  destruct (initialize_connections (sort_points s1)) as [s2|] eqn:Hinit;
    [|done].
  destruct (div_axis X 0 (n_pts s2 - 1) s2) as [s3|] eqn:HdX; [|done].
  destruct (div_axis Y 0 (n_pts s3 - 1) s3) as [s4|] eqn:HdY; [|done].
  intros [= <-].
  eapply reach_div_axis; [|done]. eapply reach_div_axis; [|done].
  by eapply reach_init.
Qed.

Lemma example_prepared :
  prepare (Some example_file) initial_state = Ready example_ready.
Proof. vm_compute. reflexivity. Qed.

Lemma example_reachable : reachable example_ready.
Proof. exact (prepare_reachable _ _ _ example_prepared). Qed.

Lemma duplicate_prepared :
  prepare (Some duplicate_file) initial_state = Ready duplicate_ready.
Proof. vm_compute. reflexivity. Qed.

Lemma duplicate_reachable : reachable duplicate_ready.
Proof. exact (prepare_reachable _ _ _ duplicate_prepared). Qed.

End examples.


Section greedy.

Implicit Types (s : state) (l : line_ptr).

Lemma sort_points_lines s :
  x_lines (sort_points s) = x_lines s ∧ y_lines (sort_points s) = y_lines s ∧
  all_lines (sort_points s) = all_lines s.
Proof. done. Qed.

(** At the head of the loop both line arrays hold the same number of
    lines: [div_axis] is called with the same range on both axes. *)
Lemma prepare_lines inst s0 s :
  instance_start s0 → prepare inst s0 = Ready s →
  n_x_lines s = n_y_lines s ∧ all_lines s = [].
Proof.
  intros (Hx0 & Hy0 & Ha0). unfold prepare.
  destruct (read_instance_file inst s0) as [[r s1]|] eqn:Hread; [|done].
  destruct r; try done.
  destruct (initialize_connections (sort_points s1)) as [s2|] eqn:Hinit;
    [|done].
  destruct (div_axis X 0 (n_pts s2 - 1) s2) as [s3|] eqn:HdX; [|done].
  destruct (div_axis Y 0 (n_pts s3 - 1) s3) as [s4|] eqn:HdY; [|done].
  intros [= <-].
  destruct (read_instance_file_success _ _ _ Hread)
    as (Hn & Hlen & _ & _ & Hx1 & Hy1 & Ha1 & _).
  destruct (initialize_connections_spec (sort_points s1) s2)
    as (Hf & _); [done..|].
  apply div_axis_spec in HdX as (HfX & newx & HlX & HcX & _).
  apply div_axis_spec in HdY as (HfY & newy & HlY & HcY & _).
  simpl in HlX, HlY.
  pose proof (df_other _ _ _ HfX Y ltac:(done)) as HoX.
  pose proof (df_other _ _ _ HfY X ltac:(done)) as HoY.
  simpl in HoX, HoY.
  rewrite (df_n_pts _ _ _ HfX) in HcY.
  unfold n_x_lines, n_y_lines.
  rewrite HoY, HlX, HlY, HoX, !length_app, HcX, HcY.
  rewrite (if_x_lines _ _ Hf), (if_y_lines _ _ Hf). simpl.
  rewrite Hx1, Hy1, Hx0, Hy0. split; [done|].
  rewrite (df_all_lines _ _ _ HfY), (df_all_lines _ _ _ HfX),
    (if_all_lines _ _ Hf). simpl. by rewrite Ha1.
Qed.

Lemma prepare_loop_inv inst s0 s :
  instance_start s0 → prepare inst s0 = Ready s → loop_inv s 0 0.
Proof.
  intros H0 Hp. split; [by eapply prepare_reachable|done| |lia].
  by eapply prepare_lines.
Qed.

(** One test-and-commit step keeps the state reachable and the line
    counts. *)
Lemma test_step_ok l s :
  reachable s → valid_ptr l s →
  let s' := if check_con l s then commit l s else s in
  reachable s' ∧ n_x_lines s' = n_x_lines s ∧ n_y_lines s' = n_y_lines s.
Proof.
  intros Hr Hv. destruct (check_con l s); simpl; [|done].
  split; [by apply reach_commit|].
  by destruct (commit_lines_length l s) as [-> ->].
Qed.

Lemma loop_cond_true s clx cly :
  loop_cond s clx cly = true ↔
  rem_cons s ≠ 0 ∧ (clx < n_x_lines s)%nat ∧ (cly < n_y_lines s)%nat.
Proof.
  unfold loop_cond. rewrite !andb_true_iff, negb_true_iff, Z.eqb_neq.
  rewrite !Nat.ltb_lt. tauto.
Qed.

Lemma loop_body_inv s clx cly s' clx' cly' :
  loop_inv s clx cly → loop_cond s clx cly = true →
  loop_body s clx cly = (s', clx', cly') →
  loop_inv s' clx' cly' ∧ clx' = S clx ∧ cly' = S cly ∧
  n_x_lines s' = n_x_lines s ∧ n_y_lines s' = n_y_lines s.
Proof.
  intros [Hr Hc Hl Hb] Hcond. apply loop_cond_true in Hcond as (_ & Hx & Hy).
  unfold loop_body.
  destruct (test_step_ok (XLn clx) s Hr Hx) as (Hr1 & Hx1 & Hy1).
  set (s1 := if check_con (XLn clx) s then commit (XLn clx) s else s) in *.
  destruct (test_step_ok (YLn cly) s1 Hr1) as (Hr2 & Hx2 & Hy2);
    [simpl; lia|].
  set (s2 := if check_con (YLn cly) s1 then commit (YLn cly) s1 else s1) in *.
  intros [= <- <- <-]. clearbody s1 s2.
  split; [|repeat split; congruence].
  split; [done|congruence|congruence|]. rewrite Hx2, Hx1. lia.
Qed.

Lemma loop_iter_inv k s clx cly s' clx' cly' :
  loop_iter k s clx cly s' clx' cly' → loop_inv s clx cly →
  loop_inv s' clx' cly' ∧ clx' = (clx + k)%nat ∧ cly' = (cly + k)%nat ∧
  n_x_lines s' = n_x_lines s ∧ n_y_lines s' = n_y_lines s.
Proof.
  induction 1 as [|k s clx cly s1 clx1 cly1 s' clx' cly' Hc Hb _ IH];
    intros Hinv.
  - split; [done|]. repeat split; lia.
  - destruct (loop_body_inv _ _ _ _ _ _ Hinv Hc Hb)
      as (Hinv1 & -> & -> & Hx1 & Hy1).
    destruct (IH Hinv1) as (Hinv' & -> & -> & Hx' & Hy').
    split; [done|]. repeat split; lia.
Qed.

Lemma greedy_loop_S fuel s clx cly :
  greedy_loop (S fuel) s clx cly =
  if loop_cond s clx cly then
    let '(s', clx', cly') := loop_body s clx cly in
    greedy_loop fuel s' clx' cly'
  else Some (s, clx, cly).
Proof. reflexivity. Qed.

(** The loop ends within [n_x_lines s - clx] iterations. *)
Lemma greedy_loop_runs fuel s clx cly :
  loop_inv s clx cly → (n_x_lines s - clx ≤ fuel)%nat →
  ∃ k s' clx' cly',
    greedy_loop fuel s clx cly = Some (s', clx', cly') ∧
    loop_iter k s clx cly s' clx' cly' ∧
    loop_cond s' clx' cly' = false ∧
    (k ≤ n_x_lines s - clx)%nat.
Proof.
  revert s clx cly. induction fuel as [|fuel IH]; intros s clx cly Hinv Hf.
  - exists O, s, clx, cly. simpl.
    assert (loop_cond s clx cly = false) as Hc.
    { destruct (loop_cond s clx cly) eqn:Hc; [|done].
      apply loop_cond_true in Hc. lia. }
    rewrite Hc. split; [done|]. split; [constructor|]. split; [done|lia].
  - rewrite greedy_loop_S. destruct (loop_cond s clx cly) eqn:Hc.
    + destruct (loop_body s clx cly) as [[s1 clx1] cly1] eqn:Hb.
      destruct (loop_body_inv _ _ _ _ _ _ Hinv Hc Hb)
        as (Hinv1 & -> & -> & Hx1 & Hy1).
      destruct (IH s1 (S clx) (S cly) Hinv1) as (k & s' & clx' & cly' & Hg & Hi & Hc' & Hk);
        [lia|].
      exists (S k), s', clx', cly'.
      split; [exact Hg|]. split; [by eapply loop_iter_S|]. split; [done|].
      apply loop_cond_true in Hc. lia.
    + exists O, s, clx, cly.
      split; [done|]. split; [constructor|]. split; [done|lia].
Qed.

Lemma reachable_rem_cons_nonneg s : reachable s → 0 ≤ rem_cons s.
Proof.
  intros Hr. destruct (reachable_ok s Hr) as [Hs Hg].
  pose proof (ok_rem_cons _ Hg).
  pose proof (disconnected_pairs_bound s (proj1 (ok_n_pts _ Hs))). lia.
Qed.

(** Under the invariant the loop condition of the program, a
    conjunction, says the same as "connections remain and some cursor is
    not at the end". *)
Lemma loop_inv_cond s clx cly :
  loop_inv s clx cly →
  (loop_cond s clx cly = true ↔
   0 < rem_cons s ∧ ((clx < n_x_lines s)%nat ∨ (cly < n_y_lines s)%nat)) ∧
  (loop_cond s clx cly = false →
   rem_cons s = 0 ∨
   (0 < rem_cons s ∧ clx = n_x_lines s ∧ cly = n_y_lines s)).
Proof.
  intros [Hr Hc Hl Hb].
  pose proof (reachable_rem_cons_nonneg s Hr) as Hrem.
  split.
  - rewrite loop_cond_true. lia.
  - intros Hcond.
    assert (¬ (rem_cons s ≠ 0 ∧ (clx < n_x_lines s)%nat ∧ (cly < n_y_lines s)%nat))
      as Hn by (rewrite <-loop_cond_true; congruence).
    lia.
Qed.

End greedy.
Lemma instance_start_initial : instance_start initial_state.
Proof. by repeat split. Qed.

Lemma instance_start_free s : instance_start (free_connections s).
Proof. by repeat split. Qed.

(** The loader compares the declared count with the number of [fscanf]
    calls that found an integer, capped at [MAX_PTS]. *)
Lemma read_instance_file_mismatch declared toks s r s' :
  declared ≠ Z.min ((Z.of_nat (length toks) + 1) `div` 2) MAX_PTS →
  read_instance_file (Some (declared :: toks)) s = Some (r, s') →
  r = READ_N_POINTS_MORE_LESS.
Proof.
  intros Hne. unfold read_instance_file.
  destruct (fits_int declared); simpl; [|done].
  destruct (read_points toks 0 0 0 (points s)) as [[i ps]|] eqn:Hr; [|done].
  pose proof (read_points_count toks 0 0 0%nat (points s) i ps
                ltac:(done) Hr) as Hc.
  simpl in *. destruct (Z.eqb_spec (Z.of_nat i) declared); [lia|].
  simpl. by intros [= <- _].
Qed.

Section candidate_position.

Implicit Types (s : state) (ln : line_t).

Lemma midpoint_line_frame_fwd axis axis' s s' k ln :
  div_frame axis' s s' → midpoint_line axis s k ln → midpoint_line axis s' k ln.
Proof.
  intros Hf (pt1 & pt2 & H1 & H2 & ->).
  exists pt1, pt2. by rewrite !(div_frame_point_at _ _ _ _ _ Hf).
Qed.

(** The state at the head of the loop: views sorted by coordinate, and
    every line the midpoint of two adjacent positions of its view. *)
Lemma prepare_candidates inst s0 s axis :
  instance_start s0 → prepare inst s0 = Ready s →
  StronglySorted (λ a b, key axis s a ≤ key axis s b) (view axis s) ∧
  view axis s ≡ₚ seq 0 (Z.to_nat (n_pts s)) ∧
  Forall (λ ln, ∃ k, 0 < k < n_pts s - 1 ∧ midpoint_line axis s k ln)
    (lines_of axis s).
Proof.
  intros (Hx0 & Hy0 & Ha0). unfold prepare.
  destruct (read_instance_file inst s0) as [[r s1]|] eqn:Hread; [|done].
  destruct r; try done.
  destruct (initialize_connections (sort_points s1)) as [s2|] eqn:Hinit;
    [|done].
  destruct (div_axis X 0 (n_pts s2 - 1) s2) as [s3|] eqn:HdX; [|done].
  destruct (div_axis Y 0 (n_pts s3 - 1) s3) as [s4|] eqn:HdY; [|done].
  intros [= <-].
  destruct (read_instance_file_success _ _ _ Hread)
    as (Hn & Hlen & Hsx & Hsy & Hx1 & Hy1 & _).
  destruct (initialize_connections_spec (sort_points s1) s2)
    as (Hf & _); [done..|].
  apply div_axis_spec in HdX as (HfX & newx & HlX & _ & HallX).
  apply div_axis_spec in HdY as (HfY & newy & HlY & _ & HallY).
  assert (Hv : view axis s4 = view axis (sort_points s1)).
  { destruct axis; simpl.
    - by rewrite (df_sorted_x _ _ _ HfY), (df_sorted_x _ _ _ HfX),
        (if_sorted_x _ _ Hf).
    - by rewrite (df_sorted_y _ _ _ HfY), (df_sorted_y _ _ _ HfX),
        (if_sorted_y _ _ Hf). }
  assert (Hk : ∀ k, key axis s4 k = key axis (sort_points s1) k).
  { intros k. by rewrite (key_div_frame _ _ _ _ _ HfY),
      (key_div_frame _ _ _ _ _ HfX), (key_init_frame _ _ _ _ Hf). }
  assert (Hn4 : n_pts s4 = n_pts s1).
  { rewrite (df_n_pts _ _ _ HfY), (df_n_pts _ _ _ HfX). apply (if_n_pts _ _ Hf). }
  split; [|split].
  - rewrite Hv.
    eapply (StronglySorted_weaken
              (λ a b, key axis (sort_points s1) a ≤ key axis (sort_points s1) b)).
    + intros a b. by rewrite !Hk.
    + destruct axis;
        [exact (qsort_sorted X s1 (sorted_x_pt s1))
        |exact (qsort_sorted Y s1 (sorted_y_pt s1))].
  - rewrite Hv, Hn4, sort_points_views. destruct axis; simpl; by rewrite ?Hsx, ?Hsy.
  - assert (x_lines s2 = [] ∧ y_lines s2 = []) as [Hx2 Hy2].
    { rewrite (if_x_lines _ _ Hf), (if_y_lines _ _ Hf). simpl.
      by rewrite Hx1, Hy1. }
    simpl in HlX, HlY. rewrite Hx2 in HlX. simpl in HlX.
    pose proof (df_other _ _ _ HfX Y ltac:(done)) as HoX.
    pose proof (df_other _ _ _ HfY X ltac:(done)) as HoY.
    simpl in HoX, HoY. rewrite HoX, Hy2 in HlY. simpl in HlY.
    destruct axis; simpl.
    + rewrite HoY, HlX.
      eapply List.Forall_impl; [|exact HallX]. simpl.
      intros ln (k & Hk' & Hm). exists k.
      rewrite (df_n_pts _ _ _ HfY), (df_n_pts _ _ _ HfX). split; [lia|].
      eapply midpoint_line_frame_fwd; [exact HfY|].
      eapply midpoint_line_frame_fwd; [exact HfX|done].
    + rewrite HlY.
      eapply List.Forall_impl; [|exact HallY]. simpl.
      intros ln (k & Hk' & Hm). exists k.
      rewrite (df_n_pts _ _ _ HfY). split; [lia|].
      eapply midpoint_line_frame_fwd; [exact HfY|done].
Qed.

End candidate_position.

Section strictly_between_points.

Implicit Types (s : state) (ln : line_t).

Lemma midpoint_between (a b : Q) :
  (a < b)%Q →
  (a < a + (b - a) / 2)%Q ∧ (a + (b - a) / 2 < b)%Q.
Proof.
  intros. change ((b - a) / 2)%Q with ((b - a) * (1 # 2))%Q. split; lra.
Qed.

(** A position of a view below [n_pts] names a point of the instance. *)
Lemma view_lookup axis s i :
  shape_ok s → (i < Z.to_nat (n_pts s))%nat →
  ∃ a p, view axis s !! i = Some a ∧ points s !! a = Some p ∧
         (a < Z.to_nat (n_pts s))%nat ∧
         coord_at axis s i = float_of_int (key axis s a) ∧
         key axis s a = pt_coord axis p.
Proof.
  intros [Hn Hlen Hself Hvl Hvlt _] Hi.
  destruct (lookup_lt_is_Some_2 (view axis s) i) as [a Ha]; [by rewrite Hvl|].
  pose proof (Hvlt axis i a Ha) as Hlt.
  destruct (lookup_lt_is_Some_2 (points s) a) as [p Hp]; [lia|].
  exists a, p. unfold coord_at, key.
  rewrite (list_lookup_total_correct _ _ _ Ha).
  rewrite (list_lookup_total_correct _ _ _ Hp). done.
Qed.

Lemma coord_at_int axis s i :
  coord_at axis s i = float_of_int (int_coord_at axis s i).
Proof. reflexivity. Qed.

Lemma int_coord_at_key axis s i a :
  view axis s !! i = Some a → int_coord_at axis s i = key axis s a.
Proof.
  intros Ha. unfold int_coord_at, key.
  by rewrite (list_lookup_total_correct _ _ _ Ha).
Qed.

(** The integer coordinates along a view do not decrease. *)
Lemma int_coord_at_sorted axis s i j :
  shape_ok s → (i ≤ j)%nat → (j < Z.to_nat (n_pts s))%nat →
  int_coord_at axis s i ≤ int_coord_at axis s j.
Proof.
  intros Hs Hij Hj.
  destruct (decide (i = j)) as [->|Hne]; [lia|].
  destruct (view_lookup axis s i Hs) as (a & pa & Ha & _); [lia|].
  destruct (view_lookup axis s j Hs) as (b & pb & Hb & _); [lia|].
  rewrite (int_coord_at_key _ _ _ _ Ha), (int_coord_at_key _ _ _ _ Hb).
  by apply (StronglySorted_lookup _ _ i j a b (ok_sorted _ Hs axis));
    [lia|..].
Qed.

Lemma point_at_coord axis s (k : nat) pt :
  shape_ok s → point_at axis s (Z.of_nat k) = Some pt →
  coord_at axis s k = float_of_int (pt_coord axis pt).
Proof.
  intros Hs. unfold point_at, coord_at.
  destruct (Z.ltb_spec (Z.of_nat k) 0); [lia|]. rewrite Nat2Z.id.
  destruct (view axis s !! k) as [a|] eqn:Ha; [|done]. intros Hp.
  rewrite (list_lookup_total_correct _ _ _ Ha).
  by rewrite (list_lookup_total_correct _ _ _ Hp).
Qed.

Lemma point_at_int_coord axis s (k : nat) pt :
  point_at axis s (Z.of_nat k) = Some pt →
  int_coord_at axis s k = pt_coord axis pt.
Proof.
  unfold point_at, int_coord_at.
  destruct (Z.ltb_spec (Z.of_nat k) 0); [lia|]. rewrite Nat2Z.id.
  destruct (view axis s !! k) as [a|] eqn:Ha; [|done]. intros Hp.
  rewrite (list_lookup_total_correct _ _ _ Ha).
  by rewrite (list_lookup_total_correct _ _ _ Hp).
Qed.

(** A midpoint line between two different coordinates that binary32
    holds exactly, with their halves. *)
Lemma midpoint_strictly_between axis s (k : nat) ln :
  shape_ok s →
  (S k < Z.to_nat (n_pts s))%nat →
  midpoint_line axis s (Z.of_nat k) ln →
  exact_pair axis s k →
  strictly_between_at axis s k ln.
Proof.
  intros Hs Hk Hm (Hne & Ha & Hb).
  destruct Hm as (pt1 & pt2 & H1 & H2 & ->).
  unfold strictly_between_at. cbn [ln_inter].
  replace (Z.of_nat k + 1) with (Z.of_nat (S k)) in H2 by lia.
  rewrite <-(point_at_int_coord _ _ _ _ H1), <-(point_at_int_coord _ _ _ _ H2).
  rewrite float_mid_exact by done.
  pose proof (int_coord_at_sorted axis s k (S k) Hs ltac:(lia) Hk) as Hle.
  set (a := int_coord_at axis s k) in *.
  set (b := int_coord_at axis s (S k)) in *.
  assert (Hlt : (inject_Z a < inject_Z b)%Q) by (rewrite <-Zlt_Qlt; lia).
  destruct (midpoint_between _ _ Hlt) as [Hlo Hhi].
  split; [field|]. split; [done|]. split; [done|].
  intros i Hi Heq.
  destruct (decide (i ≤ k)%nat) as [Hik|Hik].
  - pose proof (int_coord_at_sorted axis s i k Hs Hik ltac:(lia)) as H.
    fold a in H. rewrite Zle_Qle in H. rewrite Heq in H. lra.
  - pose proof (int_coord_at_sorted axis s (S k) i Hs ltac:(lia) Hi) as H.
    fold b in H. rewrite Zle_Qle in H. rewrite Heq in H. lra.
Qed.

End strictly_between_points.


Section nearest.

Implicit Types (s : state) (c : Q).

Lemma nearest_loop_first k axis c s i :
  let r := nearest_loop k axis c s i in
  (r = -1 ∧ ∀ m, (i ≤ m < i + k)%nat → Qle_bool (coord_at axis s m) c = true) ∨
  (∃ i0, (i ≤ i0 < i + k)%nat ∧ r = Z.of_nat i0 - 1 ∧
         Qle_bool (coord_at axis s i0) c = false ∧
         ∀ m, (i ≤ m < i0)%nat → Qle_bool (coord_at axis s m) c = true).
Proof.
  revert i. induction k as [|k IH]; intros i; simpl.
  - left. split; [done|]. intros; lia.
  - destruct (Qle_bool (coord_at axis s i) c) eqn:Hi; simpl.
    + destruct (IH (S i)) as [[Hr Hall]|(i0 & Hi0 & Hr & Hf & Hall)].
      * left. split; [done|]. intros m Hm.
        destruct (decide (m = i)) as [->|]; [done|]. apply Hall. lia.
      * right. exists i0. split; [lia|]. split; [done|]. split; [done|].
        intros m Hm. destruct (decide (m = i)) as [->|]; [done|].
        apply Hall. lia.
    + right. exists i. split; [lia|]. split; [done|]. split; [done|].
      intros; lia.
Qed.

Lemma last_at_most_spec (f : nat → bool) k i acc :
  let r := foldl (λ acc i, if f i then Z.of_nat i else acc) acc (seq i k) in
  (r = acc ∧ ∀ m, (i ≤ m < i + k)%nat → f m = false) ∨
  (∃ m0, (i ≤ m0 < i + k)%nat ∧ r = Z.of_nat m0 ∧ f m0 = true ∧
         ∀ m, (m0 < m < i + k)%nat → f m = false).
Proof.
  revert i acc. induction k as [|k IH]; intros i acc; simpl.
  - left. split; [done|]. intros; lia.
  - destruct (IH (S i) (if f i then Z.of_nat i else acc))
      as [[Hr Hall]|(m0 & Hm0 & Hr & Hf & Hall)].
    + destruct (f i) eqn:Hi.
      * right. exists i. split; [lia|]. split; [done|]. split; [done|].
        intros m Hm. apply Hall. lia.
      * left. split; [done|]. intros m Hm.
        destruct (decide (m = i)) as [->|]; [done|]. apply Hall. lia.
    + right. exists m0. split; [lia|]. split; [done|]. split; [done|].
      intros m Hm. apply Hall. lia.
Qed.

(** Where the source function is right: in a sorted view with some point
    right of the coordinate, it returns what the specification asks
    for. *)
Lemma nearest_agrees axis c s :
  (∀ i j, (i ≤ j)%nat → (j < Z.to_nat (n_pts s))%nat →
          (coord_at axis s i <= coord_at axis s j)%Q) →
  (∃ i, (i < Z.to_nat (n_pts s))%nat ∧ (c < coord_at axis s i)%Q) →
  get_point_nearest_inter axis c s = nearest_index_left_of axis c s.
Proof.
  intros Hsorted (i1 & Hi1 & Hc1).
  set (n := Z.to_nat (n_pts s)) in *.
  set (f := λ m, Qle_bool (coord_at axis s m) c).
  assert (Hmono : ∀ m m', (m ≤ m')%nat → (m' < n)%nat → f m = false → f m' = false).
  { intros m m' Hmm Hm' Hfm. unfold f in *.
    destruct (Qle_bool (coord_at axis s m') c) eqn:Hfm'; [|done].
    apply Qle_bool_iff in Hfm'.
    assert (Qle_bool (coord_at axis s m) c = true); [|congruence].
    apply Qle_bool_iff. eapply Qle_trans; [|exact Hfm']. by apply Hsorted. }
  assert (Hf1 : f i1 = false).
  { unfold f. destruct (Qle_bool (coord_at axis s i1) c) eqn:H; [|done].
    apply Qle_bool_iff in H. lra. }
  unfold get_point_nearest_inter, nearest_index_left_of. fold n.
  destruct (nearest_loop_first n axis c s 0)
    as [[_ Hall]|(i0 & Hi0 & -> & Hfi0 & Hbefore)].
  { specialize (Hall i1 ltac:(lia)). unfold f in Hf1. congruence. }
  change (foldl _ (-1) (seq 0 n))
    with (foldl (λ acc i, if f i then Z.of_nat i else acc) (-1) (seq 0 n)).
  destruct (last_at_most_spec f n 0 (-1))
    as [[-> Hall]|(m0 & Hm0 & -> & Hfm0 & Hafter)].
  - destruct (decide (i0 = 0%nat)) as [->|]; [lia|].
    specialize (Hbefore 0%nat ltac:(lia)). specialize (Hall 0%nat ltac:(lia)).
    unfold f in Hall. congruence.
  - assert (m0 < i0)%nat.
    { destruct (decide (m0 < i0)%nat); [done|].
      specialize (Hmono i0 m0 ltac:(lia) ltac:(lia) Hfi0). congruence. }
    destruct (decide (i0 = S m0)) as [->|]; [lia|].
    specialize (Hbefore (S m0) ltac:(lia)).
    specialize (Hafter (S m0) ltac:(lia)). unfold f in Hafter. congruence.
Qed.

(** The comparison function does what the specification says. *)
Lemma nearest_index_left_of_spec axis c s :
  let r := nearest_index_left_of axis c s in
  (r = -1 ∧ ∀ m, (m < Z.to_nat (n_pts s))%nat → ¬ (coord_at axis s m <= c)%Q) ∨
  (∃ m0, (m0 < Z.to_nat (n_pts s))%nat ∧ r = Z.of_nat m0 ∧
         (coord_at axis s m0 <= c)%Q ∧
         ∀ m, (m0 < m < Z.to_nat (n_pts s))%nat →
              ¬ (coord_at axis s m <= c)%Q).
Proof.
  unfold nearest_index_left_of.
  destruct (last_at_most_spec (λ m, Qle_bool (coord_at axis s m) c)
              (Z.to_nat (n_pts s)) 0 (-1))
    as [[Hr Hall]|(m0 & Hm0 & Hr & Hf & Hall)]; simpl in *.
  - left. split; [done|]. intros m Hm Hle.
    apply Qle_bool_iff in Hle. rewrite Hall in Hle; [done|lia].
  - right. exists m0. split; [lia|]. split; [done|].
    split; [by apply Qle_bool_iff|]. intros m Hm Hle.
    apply Qle_bool_iff in Hle. rewrite Hall in Hle; [done|lia].
Qed.

End nearest.

Section totality.

Implicit Types (s : state).

Lemma init_step_rem_cons i j s :
  rem_cons (init_step i j s) =
  rem_cons s + (if decide (i = j) then 0 else 1).
Proof.
  unfold init_step. destruct (Nat.eqb_spec i j); simpl; case_decide; try done; lia.
Qed.

Lemma init_inner_rem_cons k i j s :
  rem_cons (init_inner k i j s) =
  rem_cons s + Z.of_nat k - (if decide (j ≤ i < j + k)%nat then 1 else 0).
Proof.
  revert j s. induction k as [|k IH]; intros j s; simpl.
  - rewrite decide_False; lia.
  - rewrite IH, init_step_rem_cons.
    repeat case_decide; lia.
Qed.

Lemma init_outer_rem_cons k i s :
  (i + k ≤ Z.to_nat (n_pts s))%nat →
  rem_cons (init_outer k i s) =
  rem_cons s + Z.of_nat k * (Z.of_nat (Z.to_nat (n_pts s)) - 1).
Proof.
  revert i s. induction k as [|k IH]; intros i s Hk; [simpl; lia|].
  change (init_outer (S k) i s) with
    (init_outer k (S i)
       (init_inner (Z.to_nat (n_pts s)) i 0
          (set_points (alter (set_self_ix i) i (points s)) s))).
  set (s1 := set_points _ s).
  pose proof (init_inner_spec (Z.to_nat (n_pts s)) i 0 s1) as (Hf & _).
  assert (Hn : n_pts (init_inner (Z.to_nat (n_pts s)) i 0 s1) = n_pts s)
    by (by rewrite (if_n_pts _ _ Hf)).
  rewrite IH; rewrite Hn; [|lia].
  rewrite init_inner_rem_cons.
  change (rem_cons s1) with (rem_cons s).
  rewrite decide_True by lia. lia.
Qed.

(** With the counter at zero the check of the initialisation passes. *)
Lemma initialize_connections_total s :
  0 ≤ n_pts s → rem_cons s = 0 → is_Some (initialize_connections s).
Proof.
  intros Hn Hrem. unfold initialize_connections.
  destruct (alloc_loop_spec (Z.to_nat (n_pts s)) 0 s) as (Hf1 & Hrem1 & _).
  set (s1 := alloc_loop _ 0 s) in *.
  destruct (init_outer_spec (Z.to_nat (n_pts s)) 0 s1) as (Hf & _).
  pose proof (init_outer_rem_cons (Z.to_nat (n_pts s)) 0 s1) as Hr.
  rewrite (if_n_pts _ _ Hf1) in Hr. specialize (Hr ltac:(lia)).
  rewrite (if_n_pts _ _ Hf), (if_n_pts _ _ Hf1), Hr, Hrem1, Hrem.
  rewrite Z2Nat.id by done.
  destruct (Z.eqb_spec (0 + n_pts s * (n_pts s - 1)) (n_pts s * (n_pts s - 1)));
    [by eexists|lia].
Qed.

Lemma point_at_is_Some axis s k :
  shape_ok s → 0 ≤ k < n_pts s → is_Some (point_at axis s k).
Proof.
  intros Hs Hk. unfold point_at.
  destruct (Z.ltb_spec k 0); [lia|].
  destruct (view_lookup axis s (Z.to_nat k) Hs) as (a & p & Ha & Hp & _);
    [lia|].
  rewrite Ha, Hp. by eexists.
Qed.

Lemma push_line_shape_ok axis ln s : shape_ok s → shape_ok (push_line axis ln s).
Proof.
  apply shape_ok_frame. eapply div_frame_frame_eq, push_line_frame.
Qed.

(** On a range of positions of the view, with fuel above the span,
    [div_axis_rec] returns. *)
Lemma div_axis_rec_total fuel axis from to s :
  shape_ok s → 0 ≤ from → from ≤ to → to < n_pts s →
  (Z.to_nat (to - from) < fuel)%nat →
  is_Some (div_axis_rec fuel axis from to s).
Proof.
  revert from to s. induction fuel as [|fuel IH];
    intros from to s Hs H0 Hft Hto Hfuel; [lia|]. simpl.
  fold (half_of (to - from)).
  destruct (Z.eqb_spec from to) as [->|Hne]; [by eexists|].
  destruct (Z.eqb_spec (to - from) 0) as [|Hs0]; [lia|].
  destruct (Z.eqb_spec (to - from) 1) as [|Hs1]; simpl; [by eexists|].
  pose proof (half_of_bounds (to - from) ltac:(lia) Hs0 Hs1) as Hh.
  set (half := half_of (to - from)) in *.
  destruct (Z.eqb_spec half 0) as [|_]; [lia|]. simpl.
  destruct (point_at_is_Some axis s (from + half) Hs) as [pt1 ->]; [lia|].
  destruct (point_at_is_Some axis s (from + (half + 1)) Hs) as [pt2 ->]; [lia|].
  set (s1 := push_line axis _ s).
  assert (Hs1' : shape_ok s1) by (by apply push_line_shape_ok).
  assert (Hn1 : n_pts s1 = n_pts s) by (by destruct axis).
  destruct (Z.eqb_spec (to - from) 2) as [|Hs2]; simpl; [by eexists|].
  destruct (IH from (from + half) s1) as [s2 Hd1]; [done|lia|lia|lia|lia|].
  rewrite Hd1.
  assert (Hle : from ≤ from + half) by lia.
  pose proof (div_axis_rec_spec _ _ _ _ _ _ Hle Hd1) as [Hf2 _].
  apply IH; [|lia|lia| |lia].
  - eapply shape_ok_frame; [|exact Hs1']. by eapply div_frame_frame_eq.
  - rewrite (df_n_pts _ _ _ Hf2). lia.
Qed.

(** A loaded instance with at least one point, entered with the counter
    at zero, reaches the loop. *)
Lemma valid_instance_ready inst s0 s1 :
  rem_cons s0 = 0 →
  read_instance_file inst s0 = Some (SUCCESS, s1) →
  1 ≤ n_pts s1 →
  ∃ s, prepare inst s0 = Ready s ∧ n_pts s = n_pts s1.
Proof.
  intros Hrem Hread Hn1. unfold prepare. rewrite Hread.
  destruct (read_instance_file_success _ _ _ Hread)
    as (Hn & Hlen & _ & _ & _ & _ & _ & Hr1).
  destruct (initialize_connections_total (sort_points s1)) as [s2 Hinit];
    [simpl; lia|simpl; congruence|].
  rewrite Hinit.
  destruct (reach_init_ok _ _ _ _ Hread Hinit) as (Hs2 & _).
  destruct (initialize_connections_spec (sort_points s1) s2) as (Hf & _);
    [done..|].
  pose proof (if_n_pts _ _ Hf) as Hn2. simpl in Hn2.
  destruct (div_axis_rec_total (S (Z.to_nat (n_pts s2 - 1 - 0))) X 0
              (n_pts s2 - 1) s2) as [s3 HdX]; [done|lia|lia|lia|lia|].
  unfold div_axis at 1. rewrite HdX.
  pose proof (div_axis_spec _ _ _ _ _ HdX) as [HfX _].
  assert (Hs3 : shape_ok s3).
  { eapply shape_ok_frame; [|exact Hs2]. by eapply div_frame_frame_eq. }
  pose proof (df_n_pts _ _ _ HfX) as Hn3.
  destruct (div_axis_rec_total (S (Z.to_nat (n_pts s3 - 1 - 0))) Y 0
              (n_pts s3 - 1) s3) as [s4 HdY]; [done|lia|lia|lia|lia|].
  unfold div_axis. rewrite HdY.
  pose proof (div_axis_spec _ _ _ _ _ HdY) as [HfY _].
  exists s4. split; [done|]. rewrite (df_n_pts _ _ _ HfY). lia.
Qed.

End totality.

Section sides.

Implicit Types (s : state) (l : line_ptr).

Lemma coord_at_sorted axis s i j :
  shape_ok s → (i ≤ j)%nat → (j < Z.to_nat (n_pts s))%nat →
  (coord_at axis s i <= coord_at axis s j)%Q.
Proof.
  intros Hs Hij Hj. rewrite !coord_at_int.
  by apply float_of_int_mono, int_coord_at_sorted.
Qed.

(** The split that [get_point_nearest_inter] yields in a sorted view:
    the positions at or left of the line, and those right of it. *)
Lemma across_iff_sides axis inter s i j :
  shape_ok s →
  across (get_point_nearest_inter axis inter s) s i j ↔
  (i < Z.to_nat (n_pts s))%nat ∧ (j < Z.to_nat (n_pts s))%nat ∧
  (coord_at axis s i <= inter)%Q ∧ (inter < coord_at axis s j)%Q.
Proof.
  intros Hs. unfold across, get_point_nearest_inter.
  pose proof (proj1 (ok_n_pts _ Hs)) as Hn.
  set (n := Z.to_nat (n_pts s)).
  assert (Hle : ∀ m, Qle_bool (coord_at axis s m) inter = true ↔
                     (coord_at axis s m <= inter)%Q)
    by (intros; apply Qle_bool_iff).
  assert (Hgt : ∀ m, Qle_bool (coord_at axis s m) inter = false ↔
                     (inter < coord_at axis s m)%Q).
  { intros m. rewrite <-not_true_iff_false, Hle. split.
    - apply Qnot_le_lt.
    - intros ? ?. lra. }
  destruct (nearest_loop_first n axis inter s 0)
    as [[-> Hall]|(i0 & Hi0 & -> & Hf & Hbefore)].
  - split; [lia|]. intros (_ & Hj & _ & Hjgt).
    apply Hgt in Hjgt. rewrite Hall in Hjgt; [done|lia].
  - apply Hgt in Hf. split.
    + intros (Hi & Hj & Hjn). split; [lia|]. split; [lia|]. split.
      * apply Hle, Hbefore. lia.
      * eapply Qlt_le_trans; [exact Hf|]. apply coord_at_sorted; [done|lia|lia].
    + intros (Hin & Hj & Hile & Hjgt).
      assert (i < i0)%nat.
      { destruct (decide (i < i0)%nat); [done|].
        pose proof (coord_at_sorted axis s i0 i Hs ltac:(lia) Hin). lra. }
      assert (i0 ≤ j)%nat.
      { destruct (decide (i0 ≤ j)%nat); [done|].
        apply Hgt in Hjgt. rewrite Hbefore in Hjgt; [done|lia]. }
      lia.
Qed.

Lemma conn_disconnect_other s pt1 pt2 a b :
  ¬ ((a = pt1 ∧ b = pt2) ∨ (a = pt2 ∧ b = pt1)) →
  conn (disconnect_points pt1 pt2 s) a b = conn s a b.
Proof.
  intros Hne. rewrite conn_disconnect.
  rewrite bool_decide_eq_false_2 by done. by rewrite andb_false_r.
Qed.

Lemma commit_inner_other k axis i j s a b :
  (∀ j', (j ≤ j' < j + k)%nat →
         ¬ ((a = self_ix_at axis s i ∧ b = self_ix_at axis s j') ∨
            (a = self_ix_at axis s j' ∧ b = self_ix_at axis s i))) →
  conn (commit_inner k axis i j s) a b = conn s a b.
Proof.
  revert j s. induction k as [|k IH]; intros j s Hne; simpl; [done|].
  pose proof (disconnect_frame (self_ix_at axis s i) (self_ix_at axis s j) s)
    as Hf.
  rewrite IH.
  - apply conn_disconnect_other, Hne. lia.
  - intros j' Hj'. rewrite <-!(frame_eq_self_ix_at axis _ _ _ Hf).
    apply Hne. lia.
Qed.

Lemma commit_outer_other k axis p i s a b :
  (∀ i' j', (i ≤ i' < i + k)%nat →
            (Z.to_nat (p + 1) ≤ j' < Z.to_nat (p + 1) + Z.to_nat (n_pts s - (p + 1)))%nat →
            ¬ ((a = self_ix_at axis s i' ∧ b = self_ix_at axis s j') ∨
               (a = self_ix_at axis s j' ∧ b = self_ix_at axis s i'))) →
  conn (commit_outer k axis p i s) a b = conn s a b.
Proof.
  revert i s. induction k as [|k IH]; intros i s Hne; simpl; [done|].
  pose proof (commit_inner_spec (Z.to_nat (n_pts s - (p + 1))) axis i
                (Z.to_nat (p + 1)) s) as (Hf & _).
  rewrite IH.
  - apply commit_inner_other. intros j' Hj'. apply Hne; lia.
  - intros i' j' Hi' Hj'. rewrite <-!(frame_eq_self_ix_at axis _ _ _ Hf).
    apply Hne; [lia|]. by rewrite (fr_n_pts _ _ Hf).
Qed.

(** [commit] touches no entry but those of pairs across the split. *)
Lemma commit_other l s a b :
  let axis := ln_axis (deref l s) in
  let p := get_point_nearest_inter axis (ln_inter (deref l s)) s in
  (∀ i j, across p s i j →
          ¬ ((a = self_ix_at axis s i ∧ b = self_ix_at axis s j) ∨
             (a = self_ix_at axis s j ∧ b = self_ix_at axis s i))) →
  conn (commit l s) a b = conn s a b.
Proof.
  intros axis p Hne.
  destruct (commit_unfold l s) as (s0 & Hf & Hc & _ & _ & _ & _ & ->).
  fold axis p. rewrite <-Hc.
  pose proof (nearest_ge axis (ln_inter (deref l s)) s) as Hp. fold p in Hp.
  apply commit_outer_other. intros i j Hi Hj.
  rewrite <-!(frame_eq_self_ix_at axis _ _ _ Hf). apply Hne.
  rewrite <-(fr_n_pts _ _ Hf) in Hj. unfold across. lia.
Qed.

End sides.

Section nearest_defect.

Implicit Types (s : state) (c : Q).

(** Where the source function is wrong: with every point at or left of
    the coordinate it returns -1, and the last such point is the last of
    the view. *)
Lemma nearest_all_left axis c s :
  1 ≤ n_pts s →
  (∀ m, (m < Z.to_nat (n_pts s))%nat → (coord_at axis s m <= c)%Q) →
  get_point_nearest_inter axis c s = -1 ∧
  nearest_index_left_of axis c s = n_pts s - 1.
Proof.
  intros Hn Hall. split.
  - unfold get_point_nearest_inter.
    destruct (nearest_loop_first (Z.to_nat (n_pts s)) axis c s 0)
      as [[Hr _]|(i0 & Hi0 & _ & Hf & _)]; [done|].
    assert (Qle_bool (coord_at axis s i0) c = true); [|congruence].
    apply Qle_bool_iff, Hall. lia.
  - destruct (nearest_index_left_of_spec axis c s)
      as [[_ Hnone]|(m0 & Hm0 & -> & _ & Hafter)].
    + exfalso. apply (Hnone 0%nat); [lia|]. apply Hall. lia.
    + destruct (decide (S m0 < Z.to_nat (n_pts s))%nat) as [Hlt|]; [|lia].
      exfalso. apply (Hafter (S m0)); [lia|]. by apply Hall.
Qed.

End nearest_defect.

Section loader_round_trip.

Implicit Types (s : state) (ps : list point_t) (pairs : list (Z * Z)).

Lemma write_point_lookup i f ps m :
  (i ≤ length ps)%nat →
  write_point i f ps !! m =
  if decide (m = i) then Some (f (default zero_point (ps !! i)))
  else ps !! m.
Proof.
  intros Hi. unfold write_point. destruct (Nat.ltb_spec i (length ps)) as [Hlt|Hge].
  - rewrite list_lookup_alter. case_decide; subst.
    + rewrite decide_True by done.
      destruct (lookup_lt_is_Some_2 ps m Hlt) as [p ->]. done.
    + by rewrite decide_False by done.
  - assert (i = length ps) as -> by lia.
    case_decide; subst.
    + rewrite lookup_app_r by lia. rewrite Nat.sub_diag.
      by rewrite (lookup_ge_None_2 ps (length ps)) by lia.
    + destruct (decide (m < length ps)%nat).
      * by rewrite lookup_app_l by lia.
      * rewrite lookup_app_r by lia. rewrite (lookup_ge_None_2 ps m) by lia.
        destruct (m - length ps)%nat eqn:E; [lia|done].
Qed.

(** Reading whole pairs: one point per pair, in order, and the cells
    before the first one written are left alone. *)
Lemma read_points_pairs pairs x y i ps :
  (i ≤ length ps)%nat → Z.of_nat (i + length pairs) ≤ MAX_PTS →
  Forall (λ xy, pair_ok xy = true) pairs →
  ∃ ps',
    read_points (flatten_pairs pairs) x y i ps
    = Some ((i + length pairs)%nat, ps') ∧
    (∀ m, (m < i)%nat → ps' !! m = ps !! m) ∧
    (∀ k xy, pairs !! k = Some xy →
             ∃ p, ps' !! (i + k)%nat = Some p ∧
                  pt_x p = xy.1 ∧ pt_y p = xy.2 ∧ pt_con_cnt p = 0).
Proof.
  revert x y i ps. induction pairs as [|[x' y'] pairs IH];
    intros x y i ps Hi Hmax Hok.
  - simpl. exists ps. rewrite Nat.add_0_r. split; [done|]. split; [done|].
    intros k xy Hk. done.
  - apply Forall_cons in Hok as [Hxy Hok].
    unfold pair_ok in Hxy. simpl in Hxy.
    apply andb_true_iff in Hxy as [Hx Hy].
    change (flatten_pairs ((x', y') :: pairs))
      with (x' :: y' :: flatten_pairs pairs).
    cbn [read_points]. simpl length in Hmax.
    rewrite (in_taken_fits _ Hx), Hy, Hx. cbn [negb].
    destruct (Z.ltb_spec (Z.of_nat i) MAX_PTS) as [_|]; [|lia].
    set (ps1 := write_point i (load_point x' y') ps).
    assert (Hlen1 : (S i ≤ length ps1)%nat) by (by apply write_point_length).
    destruct (IH x' y' (S i) ps1 Hlen1) as (ps' & Hr & Hbefore & Hpts);
      [lia|done|].
    exists ps'. split.
    { rewrite Hr. do 2 f_equal. simpl. lia. }
    split.
    + intros m Hm. rewrite Hbefore by lia. unfold ps1.
      rewrite write_point_lookup by done. by rewrite decide_False by lia.
    + intros [|k] xy Hk; simpl in Hk.
      * simplify_eq. rewrite Nat.add_0_r, Hbefore by lia. unfold ps1.
        rewrite write_point_lookup, decide_True by done.
        eexists. split; [done|]. done.
      * replace (i + S k)%nat with (S i + k)%nat by lia. by apply Hpts.
Qed.

End loader_round_trip.

Section init_counter.

Implicit Types (s : state).

Lemma initialize_connections_rem_cons s :
  0 ≤ n_pts s →
  let s2 := init_outer (Z.to_nat (n_pts s)) 0
              (alloc_loop (Z.to_nat (n_pts s)) 0 s) in
  n_pts s2 = n_pts s ∧ rem_cons s2 = rem_cons s + n_pts s * (n_pts s - 1).
Proof.
  intros Hn.
  destruct (alloc_loop_spec (Z.to_nat (n_pts s)) 0 s) as (Hf1 & Hrem1 & _).
  set (s1 := alloc_loop _ 0 s) in *.
  destruct (init_outer_spec (Z.to_nat (n_pts s)) 0 s1) as (Hf & _).
  pose proof (init_outer_rem_cons (Z.to_nat (n_pts s)) 0 s1) as Hr.
  rewrite (if_n_pts _ _ Hf1) in Hr. specialize (Hr ltac:(lia)).
  simpl. split; [by rewrite (if_n_pts _ _ Hf), (if_n_pts _ _ Hf1)|].
  rewrite Hr, Hrem1, Z2Nat.id by done. lia.
Qed.

End init_counter.

Section connection_count.

Implicit Types (s : state) (ps : list point_t).

Lemma cnt_at_alter (f : point_t → point_t) (g : Z → Z) i ps s m :
  (∀ p, pt_con_cnt (f p) = g (pt_con_cnt p)) →
  cnt_at (set_points (alter f i ps) s) m =
  if decide (m = i) then g <$> cnt_at (set_points ps s) m
  else cnt_at (set_points ps s) m.
Proof.
  intros Hf. unfold cnt_at. simpl. rewrite list_lookup_alter.
  destruct (decide (i = m)) as [->|]; [|by rewrite decide_False].
  rewrite decide_True by done. destruct (ps !! m); simpl; [|done].
  by rewrite Hf.
Qed.

Lemma cnt_at_set_rem_cons s r m : cnt_at (set_rem_cons r s) m = cnt_at s m.
Proof. done. Qed.

Lemma option_fmap_id_Z (o : option Z) : (λ c : Z, c) <$> o = o.
Proof. by destruct o. Qed.

Lemma init_step_cnt i j s m :
  cnt_at (init_step i j s) m =
  if decide (m = i ∧ i ≠ j) then (λ c, c + 1) <$> cnt_at s m else cnt_at s m.
Proof.
  destruct s as [ps sx sy xl yl al n r].
  set (s := mk_state ps sx sy xl yl al n r).
  unfold init_step. change (points s) with ps.
  destruct (Nat.eqb_spec i j) as [->|Hne]; simpl.
  - rewrite (cnt_at_alter _ (λ c, c)) by done.
    rewrite option_fmap_id_Z. repeat case_decide; try done; naive_solver.
  - rewrite cnt_at_set_rem_cons.
    rewrite (cnt_at_alter _ (λ c, c + 1)) by done.
    rewrite (cnt_at_alter _ (λ c, c)) by done.
    rewrite option_fmap_id_Z.
    repeat case_decide; try done; naive_solver.
Qed.

Lemma init_inner_cnt k i j s m :
  cnt_at (init_inner k i j s) m =
  if decide (m = i)
  then (λ c, c + (Z.of_nat k - if decide (j ≤ i < j + k)%nat then 1 else 0))
         <$> cnt_at s m
  else cnt_at s m.
Proof.
  revert j s. induction k as [|k IH]; intros j s; simpl.
  - case_decide; [|done]. rewrite decide_False by lia.
    destruct (cnt_at s m); simpl; [|done]. f_equal. lia.
  - rewrite IH, init_step_cnt.
    destruct (decide (m = i)) as [->|]; [|by rewrite decide_False by naive_solver].
    destruct (cnt_at s i) as [c|]; simpl; [|by repeat case_decide].
    repeat case_decide; simpl; f_equal; destruct_and?; try lia.
Qed.

Lemma init_outer_cnt k i s m :
  (i + k ≤ Z.to_nat (n_pts s))%nat →
  cnt_at (init_outer k i s) m =
  if decide (i ≤ m < i + k)%nat
  then (λ c, c + (n_pts s - 1)) <$> cnt_at s m
  else cnt_at s m.
Proof.
  revert i s. induction k as [|k IH]; intros i s Hk.
  - simpl. by rewrite decide_False by lia.
  - change (init_outer (S k) i s) with
      (init_outer k (S i)
         (init_inner (Z.to_nat (n_pts s)) i 0
            (set_points (alter (set_self_ix i) i (points s)) s))).
    set (s1 := set_points _ s).
    pose proof (init_inner_spec (Z.to_nat (n_pts s)) i 0 s1) as (Hf & _).
    assert (Hn : n_pts (init_inner (Z.to_nat (n_pts s)) i 0 s1) = n_pts s)
      by (by rewrite (if_n_pts _ _ Hf)).
    rewrite IH by (rewrite Hn; lia). rewrite Hn, init_inner_cnt.
    assert (Hc1 : cnt_at s1 m = cnt_at s m).
    { destruct s as [ps sx sy xl yl al n r]. unfold s1.
      set (s := mk_state ps sx sy xl yl al n r). change (points s) with ps.
      rewrite (cnt_at_alter _ (λ c, c)) by done.
      rewrite option_fmap_id_Z. by case_decide. }
    rewrite Hc1.
    destruct (cnt_at s m) as [c|]; simpl; [|by repeat case_decide].
    repeat case_decide; simpl; f_equal; destruct_and?; try lia.
Qed.

Lemma alloc_loop_cnt k i s m : cnt_at (alloc_loop k i s) m = cnt_at s m.
Proof.
  revert i s. induction k as [|k IH]; intros i s; simpl; [done|].
  rewrite IH. destruct s as [ps sx sy xl yl al n r].
  set (s := mk_state ps sx sy xl yl al n r). change (points s) with ps.
  rewrite (cnt_at_alter _ (λ c, c)) by done.
  rewrite option_fmap_id_Z. by case_decide.
Qed.

End connection_count.

Section connection_count_invariant.

Implicit Types (s : state) (ps : list point_t).

(** Every point the loader stores has a connection count of zero. *)
Lemma read_points_cnt toks :
  ∀ x y i ps j ps', (i ≤ length ps)%nat →
    read_points toks x y i ps = Some (j, ps') →
    (∀ m, (m < i)%nat → ps' !! m = ps !! m) ∧
    (∀ m, (i ≤ m < j)%nat → pt_con_cnt <$> ps' !! m = Some 0).
Proof.
  assert (H : ∀ n toks, (length toks < n)%nat → ∀ x y i ps j ps',
    (i ≤ length ps)%nat →
    read_points toks x y i ps = Some (j, ps') →
    (∀ m, (m < i)%nat → ps' !! m = ps !! m) ∧
    (∀ m, (i ≤ m < j)%nat → pt_con_cnt <$> ps' !! m = Some 0)).
  { clear toks. induction n as [|n IH]; intros toks Hn x y i ps j ps' Hi;
      [lia|].
    assert (Hstep : ∀ toks' x' y',
      (length toks' < n)%nat →
      read_points toks' x' y' (S i) (write_point i (load_point x' y') ps)
      = Some (j, ps') →
      (∀ m, (m < i)%nat → ps' !! m = ps !! m) ∧
      (∀ m, (i ≤ m < j)%nat → pt_con_cnt <$> ps' !! m = Some 0)).
    { intros toks' x' y' Hlen' Hr.
      destruct (IH toks' Hlen' x' y' (S i)
                  (write_point i (load_point x' y') ps) j ps') as [Hb Hc];
        [by apply write_point_length|done|].
      split.
      - intros m Hm. rewrite Hb by lia.
        rewrite write_point_lookup by done. by rewrite decide_False by lia.
      - intros m Hm. destruct (decide (m = i)) as [->|].
        + rewrite Hb by lia. rewrite write_point_lookup by done.
          by rewrite decide_True.
        + apply Hc. lia. }
    destruct toks as [|x' [|y' toks]]; simpl.
    - intros [= <- <-]. split; [done|]. intros; lia.
    - destruct (fits_int x'); simpl; [|done].
      case_match; simpl; [|intros [= <- <-]; split; [done|intros; lia]].
      destruct (in_taken x'); simpl; [|done].
      assert (Hl : (length (@nil Z) < n)%nat) by (simpl in *; lia).
      exact (Hstep [] x' y Hl).
    - destruct (fits_int x'); simpl; [|done].
      destruct (fits_int y'); simpl; [|done].
      case_match; simpl; [|intros [= <- <-]; split; [done|intros; lia]].
      destruct (in_taken x'); simpl; [|done].
      apply Hstep. simpl in Hn. lia. }
  intros. eapply H; [apply Nat.lt_succ_diag_r|done..].
Qed.

Lemma read_instance_file_cnt inst s s1 i :
  read_instance_file inst s = Some (SUCCESS, s1) →
  (i < Z.to_nat (n_pts s1))%nat → cnt_at s1 i = Some 0.
Proof.
  unfold read_instance_file. destruct inst as [[|declared toks]|]; try done.
  destruct (fits_int declared); simpl; [|done].
  destruct (read_points toks 0 0 0 (points s)) as [[k ps]|] eqn:Hr; [|done].
  destruct (read_points_cnt toks 0 0 0%nat (points s) k ps ltac:(lia) Hr)
    as [_ Hc].
  simpl in *. destruct (Z.eqb_spec (Z.of_nat k) declared) as [<-|]; simpl; [|done].
  intros [= <-] Hi. unfold cnt_at. simpl in *. apply Hc. lia.
Qed.

Lemma count_upto_all_but n i :
  (i < n)%nat → count_upto n (λ j, bool_decide (j ≠ i)) = (n - 1)%nat.
Proof.
  intros Hi. induction n as [|n IH]; [lia|]. simpl.
  destruct (decide (i = n)) as [->|Hne].
  - rewrite bool_decide_eq_false_2 by naive_solver.
    rewrite (count_upto_ext n _ (λ _, true)).
    + clear. induction n as [|n IH]; simpl; lia.
    + intros j Hj. apply bool_decide_eq_true_2. lia.
  - rewrite IH by lia. rewrite bool_decide_eq_true_2 by done. lia.
Qed.

Lemma reach_init_con_cnt inst s0 s1 s2 :
  read_instance_file inst s0 = Some (SUCCESS, s1) →
  initialize_connections (sort_points s1) = Some s2 →
  con_cnt_ok s2.
Proof.
  intros Hread Hinit.
  destruct (read_instance_file_success _ _ _ Hread) as (Hn & Hlen & _).
  destruct (initialize_connections_spec (sort_points s1) s2)
    as (Hf & _ & _ & Hconn); [done..|].
  pose proof (if_n_pts _ _ Hf) as Hn2. simpl in Hn2, Hconn.
  intros i Hi. rewrite Hn2 in Hi.
  destruct (alloc_loop_spec (Z.to_nat (n_pts s1)) 0 (sort_points s1))
    as (Hfa & _).
  pose proof (if_n_pts _ _ Hfa) as Hna. simpl in Hna.
  unfold initialize_connections in Hinit. simpl in Hinit.
  destruct (negb _); [done|]. injection Hinit as <-.
  rewrite init_outer_cnt by (rewrite Hna; lia).
  rewrite decide_True by lia.
  rewrite alloc_loop_cnt, Hna.
  change (cnt_at (sort_points s1) i) with (cnt_at s1 i).
  rewrite (read_instance_file_cnt _ _ _ _ Hread Hi). simpl. f_equal.
  unfold live_in_row. rewrite Hn2.
  rewrite (count_upto_ext _ _ (λ j, bool_decide (j ≠ i))).
  - rewrite count_upto_all_but by done. lia.
  - intros j Hj. unfold is_connected. rewrite Hconn by done.
    case_decide; subst.
    + by rewrite bool_decide_eq_false_2 by naive_solver.
    + by rewrite bool_decide_eq_true_2 by naive_solver.
Qed.

End connection_count_invariant.

Section connection_count_steps.

Implicit Types (s : state) (l : line_ptr).

Lemma disconnect_cnt pt1 pt2 s m :
  pt1 ≠ pt2 →
  cnt_at (disconnect_points pt1 pt2 s) m =
  if is_connected s pt1 pt2 && bool_decide (m = pt1 ∨ m = pt2)
  then (λ c, c - 1) <$> cnt_at s m else cnt_at s m.
Proof.
  intros Hne. unfold disconnect_points.
  destruct (is_connected s pt1 pt2); [|done]. simpl.
  destruct s as [ps sx sy xl yl al n r].
  set (s := mk_state ps sx sy xl yl al n r). change (points s) with ps.
  rewrite cnt_at_set_rem_cons.
  rewrite (cnt_at_alter _ (λ c, c - 1)) by done.
  rewrite (cnt_at_alter _ (λ c, c - 1)) by done.
  rewrite (cnt_at_alter _ (λ c, c)) by done.
  rewrite (cnt_at_alter _ (λ c, c)) by done.
  rewrite !option_fmap_id_Z.
  change (cnt_at (set_points ps s) m) with (cnt_at s m).
  destruct (cnt_at s m) as [c|]; simpl;
    repeat (case_decide || case_bool_decide); simpl; subst;
    try done; naive_solver.
Qed.

Lemma disconnect_live_in_row pt1 pt2 s m :
  pt1 ≠ pt2 →
  (pt1 < Z.to_nat (n_pts s))%nat → (pt2 < Z.to_nat (n_pts s))%nat →
  is_connected s pt1 pt2 = true → is_connected s pt2 pt1 = true →
  live_in_row s m =
  ((if bool_decide (m = pt1 ∨ m = pt2) then 1 else 0)
   + live_in_row (disconnect_points pt1 pt2 s) m)%nat.
Proof.
  intros Hne H1 H2 Hc Hc'. unfold live_in_row. rewrite disconnect_n_pts.
  case_bool_decide as Hm.
  - assert (∃ other, (other < Z.to_nat (n_pts s))%nat ∧
                     ((m = pt1 ∧ other = pt2) ∨ (m = pt2 ∧ other = pt1)))
      as (other & Ho & Hcase) by (destruct Hm; naive_solver).
    simpl. apply (count_upto_set _ _ _ other); [done|..].
    + rewrite is_connected_disconnect, Hc. simpl.
      rewrite bool_decide_eq_true_2; [done|naive_solver].
    + destruct Hcase as [[-> ->]|[-> ->]]; done.
    + intros j Hj Hjo. rewrite is_connected_disconnect, Hc. simpl.
      rewrite bool_decide_eq_false_2; [done|naive_solver].
  - simpl. apply count_upto_ext. intros j Hj.
    rewrite is_connected_disconnect, Hc. simpl.
    rewrite bool_decide_eq_false_2; [done|naive_solver].
Qed.

Lemma disconnect_con_cnt_ok pt1 pt2 s :
  (pt1 < Z.to_nat (n_pts s))%nat → (pt2 < Z.to_nat (n_pts s))%nat →
  graph_ok s → con_cnt_ok s → con_cnt_ok (disconnect_points pt1 pt2 s).
Proof.
  intros H1 H2 Hg Hc.
  destruct (is_connected s pt1 pt2) eqn:Hcon.
  2:{ assert (disconnect_points pt1 pt2 s = s) as ->; [|done].
      unfold disconnect_points. by rewrite Hcon. }
  assert (pt1 ≠ pt2) as Hne.
  { intros ->. apply is_connected_Some in Hcon.
    rewrite (ok_diag _ Hg) in Hcon by done. by destruct Hcon. }
  assert (is_connected s pt2 pt1 = true) as Hcon'.
  { destruct (is_connected s pt2 pt1) eqn:Hc'; [done|].
    apply is_connected_None, (ok_sym _ Hg), is_connected_None in Hc';
      [|done..]. congruence. }
  intros i Hi. rewrite disconnect_n_pts in Hi.
  rewrite disconnect_cnt, Hcon by done. simpl.
  pose proof (disconnect_live_in_row pt1 pt2 s i Hne H1 H2 Hcon Hcon') as Hl.
  rewrite (Hc i Hi), Hl.
  case_bool_decide; simpl; f_equal; lia.
Qed.

(** A property of the graph that in-range disconnections keep is kept by
    the loops of [commit]. *)
Lemma commit_inner_keeps (P : state → Prop) k axis i j s :
  (∀ s' a b, shape_ok s' → graph_ok s' → P s' →
             (a < Z.to_nat (n_pts s'))%nat → (b < Z.to_nat (n_pts s'))%nat →
             P (disconnect_points a b s')) →
  (i < Z.to_nat (n_pts s))%nat →
  (k = 0 ∨ j + k ≤ Z.to_nat (n_pts s))%nat →
  shape_ok s → graph_ok s → P s →
  P (commit_inner k axis i j s).
Proof.
  intros HP. revert j s. induction k as [|k IH];
    intros j s Hi Hj Hs Hg Hp; simpl; [done|].
  assert (self_ix_at axis s i < Z.to_nat (n_pts s))%nat
    by (by apply self_ix_at_lt).
  assert (self_ix_at axis s j < Z.to_nat (n_pts s))%nat
    by (apply self_ix_at_lt; [done|lia]).
  apply IH; rewrite ?disconnect_n_pts; [done|lia| | |].
  - by apply disconnect_shape_ok.
  - by apply disconnect_graph_ok.
  - by apply HP.
Qed.

Lemma commit_outer_keeps (P : state → Prop) k axis p i s :
  (∀ s' a b, shape_ok s' → graph_ok s' → P s' →
             (a < Z.to_nat (n_pts s'))%nat → (b < Z.to_nat (n_pts s'))%nat →
             P (disconnect_points a b s')) →
  -1 ≤ p → (i + k ≤ Z.to_nat (n_pts s))%nat →
  shape_ok s → graph_ok s → P s →
  P (commit_outer k axis p i s).
Proof.
  intros HP. revert i s. induction k as [|k IH];
    intros i s Hp Hi Hs Hg Hps; simpl; [done|].
  destruct (commit_inner_ok (Z.to_nat (n_pts s - (p + 1))) axis i
              (Z.to_nat (p + 1)) s) as [Hs1 Hg1]; [lia|lia|done..|].
  pose proof (commit_inner_spec (Z.to_nat (n_pts s - (p + 1))) axis i
              (Z.to_nat (p + 1)) s) as (Hf & _).
  apply IH; [done| |done..|]; [rewrite <-(fr_n_pts _ _ Hf); lia|].
  apply commit_inner_keeps; [done|lia|lia|done..].
Qed.

Lemma commit_keeps (P : state → Prop) l s :
  (∀ s' a b, shape_ok s' → graph_ok s' → P s' →
             (a < Z.to_nat (n_pts s'))%nat → (b < Z.to_nat (n_pts s'))%nat →
             P (disconnect_points a b s')) →
  (∀ s', points s' = points s → n_pts s' = n_pts s → P s') →
  shape_ok s → graph_ok s →
  P (commit l s).
Proof.
  intros HP Hpts Hs Hg. unfold commit.
  set (s0 := set_all_lines _ (set_committed l s)).
  assert (Hp0 : points s0 = points s) by (by destruct l).
  assert (Hn0 : n_pts s0 = n_pts s) by (by destruct l).
  assert (Hf : frame_eq s s0).
  { eapply frame_eq_trans; [apply (set_committed_frame l)|]. by split. }
  pose proof (ok_n_pts _ Hs) as Hn.
  apply commit_outer_keeps; [done|apply nearest_ge| | | |].
  - pose proof (nearest_upper (ln_axis (deref l (set_committed l s)))
                  (ln_inter (deref l (set_committed l s))) s0).
    pose proof (nearest_ge (ln_axis (deref l (set_committed l s)))
                  (ln_inter (deref l (set_committed l s))) s0).
    rewrite Hn0 in *. lia.
  - by eapply shape_ok_frame.
  - eapply graph_ok_ext; [exact Hn0| |intros; unfold conn; by rewrite Hp0|done].
    by destruct l.
  - by apply Hpts.
Qed.

Lemma con_cnt_ok_ext s s' :
  points s' = points s → n_pts s' = n_pts s → con_cnt_ok s → con_cnt_ok s'.
Proof.
  intros Hp Hn Hc i Hi. rewrite Hn in Hi.
  unfold cnt_at, live_in_row, is_connected, conn in *. rewrite Hp, Hn.
  by apply Hc.
Qed.

Lemma reachable_con_cnt_ok s : reachable s → con_cnt_ok s.
Proof.
  induction 1 as [inst s0 s1 s2 Hread Hinit
                 |axis from to s s' Hr IH Hdiv
                 |pt1 pt2 s Hr IH H1 H2
                 |l s Hr IH Hl].
  - by eapply reach_init_con_cnt.
  - apply div_axis_spec in Hdiv as [Hf _].
    eapply con_cnt_ok_ext; [apply Hf|apply Hf|done].
  - destruct (reachable_ok s Hr) as [Hs Hg]. by apply disconnect_con_cnt_ok.
  - destruct (reachable_ok s Hr) as [Hs Hg].
    apply (commit_keeps con_cnt_ok); [|intros; by eapply con_cnt_ok_ext|done..].
    intros s' a b _ Hg' Hc' Ha Hb. by apply disconnect_con_cnt_ok.
Qed.

End connection_count_steps.

Section live_entries_invariant.

Implicit Types (s : state) (l : line_ptr).

Lemma sum_upto_add n (u v : nat → nat) :
  sum_upto n (λ m, (u m + v m)%nat) = (sum_upto n u + sum_upto n v)%nat.
Proof. induction n as [|n IH]; simpl; [done|]. rewrite IH. lia. Qed.

Lemma sum_upto_indicator n (P : nat → Prop) `{∀ m, Decision (P m)} :
  sum_upto n (λ m, if bool_decide (P m) then 1%nat else 0%nat)
  = count_upto n (λ m, bool_decide (P m)).
Proof. induction n as [|n IH]; simpl; [done|]. rewrite IH. by case_bool_decide. Qed.

Lemma count_upto_two n a b :
  a ≠ b → (a < n)%nat → (b < n)%nat →
  count_upto n (λ m, bool_decide (m = a ∨ m = b)) = 2%nat.
Proof.
  intros Hne Ha Hb.
  rewrite (count_upto_set n (λ m, bool_decide (m = a)) _ b); [|done|..].
  - f_equal.
    rewrite (count_upto_set n (λ _, false) _ a); [|done|done|..].
    + f_equal. by apply count_upto_none.
    + by apply bool_decide_eq_true_2.
    + intros i _ Hi. symmetry. by apply bool_decide_eq_false_2.
  - apply bool_decide_eq_false_2. naive_solver.
  - apply bool_decide_eq_true_2. naive_solver.
  - intros i _ Hi. apply bool_decide_ext. naive_solver.
Qed.

Lemma disconnect_live_entries pt1 pt2 s :
  pt1 ≠ pt2 →
  (pt1 < Z.to_nat (n_pts s))%nat → (pt2 < Z.to_nat (n_pts s))%nat →
  is_connected s pt1 pt2 = true → is_connected s pt2 pt1 = true →
  live_entries s = (2 + live_entries (disconnect_points pt1 pt2 s))%nat.
Proof.
  intros Hne H1 H2 Hc Hc'. unfold live_entries. rewrite disconnect_n_pts.
  rewrite (sum_upto_ext _ _
             (λ m, ((if bool_decide (m = pt1 ∨ m = pt2) then 1 else 0)
                    + live_in_row (disconnect_points pt1 pt2 s) m)%nat)).
  - rewrite sum_upto_add, sum_upto_indicator, count_upto_two; done.
  - intros m _. by apply disconnect_live_in_row.
Qed.

Lemma disconnect_rem_cons_ok pt1 pt2 s :
  (pt1 < Z.to_nat (n_pts s))%nat → (pt2 < Z.to_nat (n_pts s))%nat →
  graph_ok s → rem_cons_ok s → rem_cons_ok (disconnect_points pt1 pt2 s).
Proof.
  intros H1 H2 Hg Hr. unfold rem_cons_ok in *.
  destruct (is_connected s pt1 pt2) eqn:Hcon.
  2:{ assert (disconnect_points pt1 pt2 s = s) as ->; [|done].
      unfold disconnect_points. by rewrite Hcon. }
  assert (pt1 ≠ pt2) as Hne.
  { intros ->. apply is_connected_Some in Hcon.
    rewrite (ok_diag _ Hg) in Hcon by done. by destruct Hcon. }
  assert (is_connected s pt2 pt1 = true) as Hcon'.
  { destruct (is_connected s pt2 pt1) eqn:Hc'; [done|].
    apply is_connected_None, (ok_sym _ Hg), is_connected_None in Hc';
      [|done..]. congruence. }
  rewrite disconnect_rem_cons, Hcon, Hr.
  rewrite (disconnect_live_entries pt1 pt2 s); [lia|done..].
Qed.

Lemma rem_cons_ok_ext s s' :
  points s' = points s → n_pts s' = n_pts s → rem_cons s' = rem_cons s →
  rem_cons_ok s → rem_cons_ok s'.
Proof.
  intros Hp Hn Hr Hc. unfold rem_cons_ok, live_entries, live_in_row,
    is_connected, conn in *. by rewrite Hp, Hn, Hr.
Qed.

Lemma reach_init_rem_cons_ok inst s0 s1 s2 :
  read_instance_file inst s0 = Some (SUCCESS, s1) →
  initialize_connections (sort_points s1) = Some s2 →
  rem_cons_ok s2.
Proof.
  intros Hread Hinit.
  destruct (read_instance_file_success _ _ _ Hread) as (Hn & Hlen & _).
  destruct (initialize_connections_spec (sort_points s1) s2)
    as (Hf & Hrem & _ & Hconn); [done..|].
  pose proof (if_n_pts _ _ Hf) as Hn2. simpl in Hn2, Hconn, Hrem.
  unfold rem_cons_ok, live_entries. rewrite Hrem, Hn2.
  rewrite (sum_upto_ext _ _ (λ _, (Z.to_nat (n_pts s1) - 1)%nat)).
  - assert (∀ n c, sum_upto n (λ _, c) = (n * c)%nat) as ->
      by (intros n c; induction n as [|n IH]; simpl; lia).
    nia.
  - intros i Hi. unfold live_in_row. rewrite Hn2.
    rewrite (count_upto_ext _ _ (λ j, bool_decide (j ≠ i))).
    + by rewrite count_upto_all_but.
    + intros j Hj. unfold is_connected. rewrite Hconn by done.
      case_decide; subst.
      * by rewrite bool_decide_eq_false_2 by naive_solver.
      * by rewrite bool_decide_eq_true_2 by naive_solver.
Qed.

Lemma reachable_rem_cons_ok s : reachable s → rem_cons_ok s.
Proof.
  induction 1 as [inst s0 s1 s2 Hread Hinit
                 |axis from to s s' Hr IH Hdiv
                 |pt1 pt2 s Hr IH H1 H2
                 |l s Hr IH Hl].
  - by eapply reach_init_rem_cons_ok.
  - apply div_axis_spec in Hdiv as [Hf _].
    eapply rem_cons_ok_ext; [apply Hf|apply Hf|apply Hf|done].
  - destruct (reachable_ok s Hr) as [Hs Hg]. by apply disconnect_rem_cons_ok.
  - destruct (reachable_ok s Hr) as [Hs Hg].
    destruct (commit_unfold l s) as (s0 & Hf & Hc & Hr0 & _ & _ & _ & Heq).
    rewrite Heq.
    assert (Hs0 : shape_ok s0) by (by eapply shape_ok_frame).
    assert (Hg0 : graph_ok s0).
    { eapply graph_ok_ext; [symmetry; apply Hf|done|done|done]. }
    apply (commit_outer_keeps rem_cons_ok); [|apply nearest_ge| |done..|].
    + intros s' a b _ Hg' Hc' Ha Hb. by apply disconnect_rem_cons_ok.
    + pose proof (nearest_upper (ln_axis (deref l s)) (ln_inter (deref l s)) s
                    (proj1 (ok_n_pts _ Hs))).
      pose proof (nearest_ge (ln_axis (deref l s)) (ln_inter (deref l s)) s).
      rewrite <-(fr_n_pts _ _ Hf). lia.
    + unfold rem_cons_ok, live_entries, live_in_row, is_connected in *.
      rewrite Hr0, <-(fr_n_pts _ _ Hf), IH.
      apply (f_equal Z.of_nat), sum_upto_ext. intros i _. apply count_upto_ext. intros j _.
      by rewrite Hc.
Qed.

Lemma live_in_row_bound s i :
  graph_ok s → (i < Z.to_nat (n_pts s))%nat →
  (live_in_row s i ≤ Z.to_nat (n_pts s) - 1)%nat.
Proof.
  intros Hg Hi. unfold live_in_row.
  set (n := Z.to_nat (n_pts s)) in *.
  assert (is_connected s i i = false) as Hd
    by (apply is_connected_None, (ok_diag _ Hg); done).
  assert (count_upto n (λ j, bool_decide (j = i) || is_connected s i j)
          = S (count_upto n (λ j, is_connected s i j))) as H.
  { apply (count_upto_set n _ _ i); [done|done|..].
    - by rewrite bool_decide_eq_true_2.
    - intros j _ Hj. by rewrite bool_decide_eq_false_2. }
  pose proof (count_upto_le n (λ j, bool_decide (j = i) || is_connected s i j)).
  lia.
Qed.

End live_entries_invariant.

Section more_examples.

Lemma example_committed_reachable : reachable (commit (XLn 0) example_ready).
Proof. apply reach_commit; [exact example_reachable|]. vm_compute. lia. Qed.

End more_examples.

Section sides_of_a_line.

Implicit Types (s : state) (l : line_ptr) (ln : line_t).

Lemma splits_spec ln s a b :
  splits ln s a b = true ↔
  (float_of_int (key (ln_axis ln) s a) <= ln_inter ln)%Q ∧
  (ln_inter ln < float_of_int (key (ln_axis ln) s b))%Q.
Proof.
  unfold splits. rewrite andb_true_iff, negb_true_iff, Qle_bool_iff.
  rewrite <-not_true_iff_false, Qle_bool_iff.
  split; intros [H1 H2]; (split; [done|]).
  - by apply Qnot_le_lt.
  - intros ?. lra.
Qed.

Lemma splits_irrefl ln s a b : splits ln s a b = true → a ≠ b.
Proof. rewrite splits_spec. intros [H1 H2] ->. lra. Qed.

Lemma check_inner_true k axis i j s :
  check_inner k axis i j s = true ↔
  ∃ j', (j ≤ j' < j + k)%nat ∧
        is_connected s (self_ix_at axis s i) (self_ix_at axis s j') = true.
Proof.
  revert j. induction k as [|k IH]; intros j; simpl.
  - split; [done|]. intros (j' & ? & _). lia.
  - destruct (is_connected s _ (self_ix_at axis s j)) eqn:Hc.
    + split; [|done]. intros _. exists j. split; [lia|done].
    + rewrite IH. split.
      * intros (j' & Hj' & H). exists j'. split; [lia|done].
      * intros (j' & Hj' & H). exists j'. split; [|done].
        destruct (decide (j' = j)) as [->|]; [congruence|lia].
Qed.

Lemma check_outer_true k axis p i s :
  check_outer k axis p i s = true ↔
  ∃ i' j', (i ≤ i' < i + k)%nat ∧
           (Z.to_nat (p + 1) ≤ j'
            < Z.to_nat (p + 1) + Z.to_nat (n_pts s - (p + 1)))%nat ∧
           is_connected s (self_ix_at axis s i') (self_ix_at axis s j') = true.
Proof.
  revert i. induction k as [|k IH]; intros i; simpl.
  - split; [done|]. intros (i' & j' & ? & _). lia.
  - destruct (check_inner _ axis i _ s) eqn:Hc.
    + split; [|done]. intros _. apply check_inner_true in Hc as (j' & Hj' & H).
      exists i, j'. split; [lia|done].
    + rewrite IH. split.
      * intros (i' & j' & Hi' & Hj' & H). exists i', j'. split; [lia|done].
      * intros (i' & j' & Hi' & Hj' & H). exists i', j'. split; [|done].
        destruct (decide (i' = i)) as [->|]; [|lia].
        assert (check_inner (Z.to_nat (n_pts s - (p + 1))) axis i
                  (Z.to_nat (p + 1)) s = true) as Hc'; [|congruence].
        apply check_inner_true. by exists j'.
Qed.

Lemma check_con_true l s :
  let axis := ln_axis (deref l s) in
  let p := get_point_nearest_inter axis (ln_inter (deref l s)) s in
  check_con l s = true ↔
  ∃ i j, across p s i j ∧
         is_connected s (self_ix_at axis s i) (self_ix_at axis s j) = true.
Proof.
  intros axis p. unfold check_con. fold axis p.
  pose proof (nearest_ge axis (ln_inter (deref l s)) s) as Hp. fold p in Hp.
  rewrite check_outer_true. split.
  - intros (i & j & Hi & Hj & H). exists i, j. split; [|done].
    unfold across. lia.
  - intros (i & j & (Hi & Hj & Hn) & H). exists i, j. split; [lia|].
    split; [lia|done].
Qed.

(** The views stay permutations of the point indices. *)
Lemma reachable_view_perm axis s :
  reachable s → view axis s ≡ₚ seq 0 (Z.to_nat (n_pts s)).
Proof.
  assert (Hfr : ∀ s s', frame_eq s s' →
            view axis s ≡ₚ seq 0 (Z.to_nat (n_pts s)) →
            view axis s' ≡ₚ seq 0 (Z.to_nat (n_pts s'))).
  { intros s0 s' Hf H. rewrite <-(fr_n_pts _ _ Hf).
    destruct axis; simpl in *.
    - by rewrite <-(fr_sorted_x _ _ Hf).
    - by rewrite <-(fr_sorted_y _ _ Hf). }
  induction 1 as [inst s0 s1 s2 Hread Hinit
                 |axis' from to s s' Hr IH Hdiv
                 |pt1 pt2 s Hr IH H1 H2
                 |l s Hr IH Hl].
  - destruct (read_instance_file_success _ _ _ Hread)
      as (Hn & Hlen & Hsx & Hsy & _).
    destruct (initialize_connections_spec (sort_points s1) s2)
      as (Hf & _); [done..|].
    pose proof (if_n_pts _ _ Hf) as Hn2. simpl in Hn2. rewrite Hn2.
    assert (view axis s2 = view axis (sort_points s1)) as ->.
    { destruct axis; [apply (if_sorted_x _ _ Hf)|apply (if_sorted_y _ _ Hf)]. }
    rewrite sort_points_views. destruct axis; simpl; by rewrite ?Hsx, ?Hsy.
  - apply div_axis_spec in Hdiv as [Hf _].
    eapply Hfr; [eapply div_frame_frame_eq, Hf|done].
  - eapply Hfr; [apply disconnect_frame|done].
  - eapply Hfr; [apply commit_frame|done].
Qed.

(** Positions of a view against point indices. *)
Lemma view_position axis s a :
  shape_ok s → view axis s ≡ₚ seq 0 (Z.to_nat (n_pts s)) →
  (a < Z.to_nat (n_pts s))%nat →
  ∃ i, (i < Z.to_nat (n_pts s))%nat ∧ view axis s !! i = Some a ∧
       self_ix_at axis s i = a ∧
       coord_at axis s i = float_of_int (key axis s a).
Proof.
  intros Hs Hperm Ha.
  assert (a ∈ view axis s) as Hin
    by (rewrite Hperm; apply elem_of_seq; lia).
  apply list_elem_of_lookup_1 in Hin as [i Hi].
  assert (Hlt : (i < Z.to_nat (n_pts s))%nat).
  { rewrite <-(ok_view_len _ Hs axis). by eapply lookup_lt_Some. }
  exists i. split; [done|]. split; [done|].
  destruct (self_ix_at_lt axis s i Hs Hlt) as [_ Hv].
  destruct (view_lookup axis s i Hs Hlt) as (a' & p & Ha' & _ & _ & Hc & _).
  split; congruence.
Qed.

Lemma position_point axis s i :
  shape_ok s → (i < Z.to_nat (n_pts s))%nat →
  (self_ix_at axis s i < Z.to_nat (n_pts s))%nat ∧
  coord_at axis s i = float_of_int (key axis s (self_ix_at axis s i)).
Proof.
  intros Hs Hi. destruct (self_ix_at_lt axis s i Hs Hi) as [Hlt Hv].
  split; [done|].
  destruct (view_lookup axis s i Hs Hi) as (a' & p & Ha' & _ & _ & Hc & _).
  congruence.
Qed.

(** The pairs of positions across the split of a line are the pairs of
    points that the line splits. *)
Lemma across_splits l s a b :
  shape_ok s →
  (∀ axis, view axis s ≡ₚ seq 0 (Z.to_nat (n_pts s))) →
  let axis := ln_axis (deref l s) in
  let p := get_point_nearest_inter axis (ln_inter (deref l s)) s in
  (a < Z.to_nat (n_pts s))%nat → (b < Z.to_nat (n_pts s))%nat →
  splits (deref l s) s a b = true ↔
  ∃ i j, across p s i j ∧ self_ix_at axis s i = a ∧ self_ix_at axis s j = b.
Proof.
  intros Hs Hperm axis p Ha Hb. rewrite splits_spec. fold axis. split.
  - intros [H1 H2].
    destruct (view_position axis s a Hs (Hperm axis) Ha)
      as (i & Hi & _ & Hia & Hca).
    destruct (view_position axis s b Hs (Hperm axis) Hb)
      as (j & Hj & _ & Hjb & Hcb).
    exists i, j. split; [|done].
    apply across_iff_sides; [done|]. rewrite Hca, Hcb. done.
  - intros (i & j & Hac & <- & <-).
    apply across_iff_sides in Hac as (Hi & Hj & H1 & H2); [|done].
    destruct (position_point axis s i Hs Hi) as [_ <-].
    destruct (position_point axis s j Hs Hj) as [_ <-]. done.
Qed.

End sides_of_a_line.

Section commit_by_points.

Implicit Types (s : state) (l : line_ptr) (ln : line_t).

Lemma separates_spec ln s a b :
  separates ln s a b = true ↔
  splits ln s a b = true ∨ splits ln s b a = true.
Proof. unfold separates. apply orb_true_iff. Qed.

Lemma separates_sym ln s a b : separates ln s a b = separates ln s b a.
Proof. unfold separates. apply orb_comm. Qed.

(** The effect of [commit] on the entry of two points. *)
Lemma commit_conn l s a b :
  reachable s →
  (a < Z.to_nat (n_pts s))%nat → (b < Z.to_nat (n_pts s))%nat →
  conn (commit l s) a b
  = if separates (deref l s) s a b then None else conn s a b.
Proof.
  intros Hr Ha Hb. destruct (reachable_ok s Hr) as [Hs Hg].
  pose proof (λ axis, reachable_view_perm axis s Hr) as Hperm.
  destruct (commit_ok l s Hs Hg) as [_ Hg'].
  pose proof (fr_n_pts _ _ (commit_frame l s)) as Hn.
  destruct (separates (deref l s) s a b) eqn:Hsep.
  - apply separates_spec in Hsep as [Hsp|Hsp].
    + apply across_splits in Hsp as (i & j & Hac & <- & <-); [|done..].
      by apply commit_clears.
    + apply across_splits in Hsp as (i & j & Hac & <- & <-); [|done..].
      apply (ok_sym _ Hg'); [by rewrite <-Hn..|]. by apply commit_clears.
  - apply commit_other. intros i j Hac [[-> ->]|[-> ->]].
    + assert (splits (deref l s) s
                (self_ix_at (ln_axis (deref l s)) s i)
                (self_ix_at (ln_axis (deref l s)) s j) = true) as Hsp.
      { apply across_splits; [done..|]. by exists i, j. }
      unfold separates in Hsep. rewrite Hsp in Hsep. done.
    + assert (splits (deref l s) s
                (self_ix_at (ln_axis (deref l s)) s i)
                (self_ix_at (ln_axis (deref l s)) s j) = true) as Hsp.
      { apply across_splits; [done..|]. by exists i, j. }
      unfold separates in Hsep. rewrite Hsp, orb_true_r in Hsep. done.
Qed.

Lemma count_upto_mono n f g :
  (∀ i, (i < n)%nat → f i = true → g i = true) →
  (count_upto n f ≤ count_upto n g)%nat.
Proof.
  induction n as [|n IH]; intros H; simpl; [done|].
  assert (count_upto n f ≤ count_upto n g)%nat
    by (apply IH; intros i Hi; apply H; lia).
  destruct (f n) eqn:Hf, (g n) eqn:Hgn; try lia.
  rewrite (H n) in Hgn by (done || lia). done.
Qed.

Lemma count_upto_strict n f g k :
  (∀ i, (i < n)%nat → f i = true → g i = true) →
  (k < n)%nat → f k = false → g k = true →
  (count_upto n f + 1 ≤ count_upto n g)%nat.
Proof.
  intros H Hk Hf Hg.
  assert (count_upto n (λ i, bool_decide (i = k) || f i)
          = S (count_upto n f)) as Hset.
  { apply (count_upto_set n _ _ k); [done|done|..].
    - by rewrite bool_decide_eq_true_2.
    - intros i _ Hi. by rewrite bool_decide_eq_false_2. }
  enough (count_upto n (λ i, bool_decide (i = k) || f i)
          ≤ count_upto n g)%nat by lia.
  apply count_upto_mono. intros i Hi. case_bool_decide; subst; simpl; [done|].
  by apply H.
Qed.

Lemma sum_upto_mono n (u v : nat → nat) :
  (∀ i, (i < n)%nat → (u i ≤ v i)%nat) →
  (sum_upto n u ≤ sum_upto n v)%nat.
Proof.
  induction n as [|n IH]; intros H; simpl; [done|].
  pose proof (H n ltac:(lia)).
  assert (sum_upto n u ≤ sum_upto n v)%nat
    by (apply IH; intros i Hi; apply H; lia).
  lia.
Qed.

Lemma sum_upto_strict2 n (u v : nat → nat) a b :
  (∀ i, (i < n)%nat → (u i ≤ v i)%nat) →
  a ≠ b → (a < n)%nat → (b < n)%nat →
  (u a + 1 ≤ v a)%nat → (u b + 1 ≤ v b)%nat →
  (sum_upto n u + 2 ≤ sum_upto n v)%nat.
Proof.
  intros H Hne Ha Hb Hua Hub.
  assert (sum_upto n (λ i, ((if bool_decide (i = a ∨ i = b) then 1 else 0)
                            + u i)%nat) ≤ sum_upto n v)%nat as Hle.
  { apply sum_upto_mono. intros i Hi. case_bool_decide as Hd.
    - destruct Hd as [->| ->]; lia.
    - simpl. by apply H. }
  rewrite sum_upto_add, sum_upto_indicator, count_upto_two in Hle by done.
  lia.
Qed.

(** Clearing both entries of a connected pair, and setting none, takes
    at least two from the number of set entries. *)
Lemma live_entries_drop s s' a b :
  n_pts s' = n_pts s →
  (∀ i j, is_connected s' i j = true → is_connected s i j = true) →
  a ≠ b → (a < Z.to_nat (n_pts s))%nat → (b < Z.to_nat (n_pts s))%nat →
  is_connected s a b = true → is_connected s b a = true →
  is_connected s' a b = false → is_connected s' b a = false →
  (live_entries s' + 2 ≤ live_entries s)%nat.
Proof.
  intros Hn Hmono Hne Ha Hb Hab Hba Hab' Hba'.
  unfold live_entries. rewrite Hn.
  apply (sum_upto_strict2 _ _ _ a b); [|done..| |].
  - intros i Hi. unfold live_in_row. rewrite Hn.
    apply count_upto_mono. intros j _. apply Hmono.
  - unfold live_in_row. rewrite Hn.
    apply (count_upto_strict _ _ _ b); [|done..]. intros j _. apply Hmono.
  - unfold live_in_row. rewrite Hn.
    apply (count_upto_strict _ _ _ a); [|done..]. intros j _. apply Hmono.
Qed.

Lemma cleared_stay_connected s s' i j :
  cleared_stay s s' → is_connected s' i j = true → is_connected s i j = true.
Proof.
  intros Hcs. unfold is_connected.
  destruct (conn s i j) eqn:Hc; [done|]. by rewrite (Hcs _ _ Hc).
Qed.

Lemma commit_drops l s :
  reachable s → valid_ptr l s → check_con l s = true →
  rem_cons (commit l s) ≤ rem_cons s - 2.
Proof.
  intros Hr Hv Hc. destruct (reachable_ok s Hr) as [Hs Hg].
  pose proof (λ axis, reachable_view_perm axis s Hr) as Hperm.
  pose proof (reachable_rem_cons_ok s Hr) as H1.
  pose proof (reachable_rem_cons_ok _ (reach_commit l s Hr Hv)) as H2.
  unfold rem_cons_ok in H1, H2. rewrite H1, H2.
  apply check_con_true in Hc as (i & j & Hac & Hc).
  pose proof Hac as Hac'.
  apply across_iff_sides in Hac' as (Hi & Hj & _); [|done].
  set (axis := ln_axis (deref l s)) in *.
  destruct (position_point axis s i Hs Hi) as [Ha _].
  destruct (position_point axis s j Hs Hj) as [Hb _].
  set (a := self_ix_at axis s i) in *. set (b := self_ix_at axis s j) in *.
  assert (Hsp : splits (deref l s) s a b = true)
    by (apply across_splits; [done..|]; by exists i, j).
  pose proof (splits_irrefl _ _ _ _ Hsp) as Hne.
  assert (Hba : is_connected s b a = true).
  { destruct (is_connected s b a) eqn:Hba; [done|].
    apply is_connected_None, (ok_sym _ Hg), is_connected_None in Hba;
      [|done..]. congruence. }
  enough (live_entries (commit l s) + 2 ≤ live_entries s)%nat by lia.
  apply (live_entries_drop s (commit l s) a b); try done.
  - symmetry. apply (fr_n_pts _ _ (commit_frame l s)).
  - intros i' j'. apply cleared_stay_connected, commit_cleared_stay.
  - apply is_connected_None. rewrite commit_conn by done.
    unfold separates. by rewrite Hsp.
  - apply is_connected_None. rewrite commit_conn by done.
    unfold separates. by rewrite Hsp, orb_true_r.
Qed.

End commit_by_points.

Section candidate_positions.

Implicit Types (s : state) (ln : line_t).

Lemma midpoint_line_frame_inv axis axis' s s' k ln :
  div_frame axis' s s' → midpoint_line axis s k ln → midpoint_line axis s' k ln.
Proof.
  intros Hf (pt1 & pt2 & H1 & H2 & ->).
  rewrite <-(div_frame_point_at _ _ _ _ _ Hf) in H1.
  rewrite <-(div_frame_point_at _ _ _ _ _ Hf) in H2.
  by exists pt1, pt2.
Qed.

(** One call of [div_axis_rec] stores one line for each position strictly
    inside its range, and none for the position [from]. *)
Lemma div_axis_rec_positions fuel axis from to s s' :
  from ≤ to →
  div_axis_rec fuel axis from to s = Some s' →
  ∃ ks new, lines_of axis s' = lines_of axis s ++ new ∧
            Forall2 (midpoint_line axis s) ks new ∧
            ks ≡ₚ seqZ (from + 1) (to - from - 1).
Proof.
  revert from to s s'. induction fuel as [|fuel IH];
    intros from to s s' Hft; simpl; [done|].
  fold (half_of (to - from)).
  destruct (Z.eqb_spec from to) as [->|Hne].
  { intros [= <-]. exists [], []. rewrite app_nil_r.
    split; [done|]. split; [constructor|]. by rewrite seqZ_nil by lia. }
  destruct (Z.eqb_spec (to - from) 0) as [|H0]; [lia|].
  destruct (Z.eqb_spec (to - from) 1) as [H1|H1]; simpl.
  { intros [= <-]. exists [], []. rewrite app_nil_r.
    split; [done|]. split; [constructor|]. by rewrite seqZ_nil by lia. }
  pose proof (half_of_bounds (to - from) ltac:(lia) H0 H1) as Hh.
  set (half := half_of (to - from)) in *.
  destruct (Z.eqb_spec half 0) as [|_]; [lia|]. simpl.
  destruct (point_at axis s (from + half)) as [pt1|] eqn:Hp1; [|done].
  destruct (point_at axis s (from + (half + 1))) as [pt2|] eqn:Hp2; [|done].
  set (ln := mk_line axis 0 _).
  assert (Hln : midpoint_line axis s (from + half) ln).
  { exists pt1, pt2. split; [done|]. split; [|done]. by rewrite <-Z.add_assoc. }
  pose proof (push_line_frame axis ln s) as Hf1.
  pose proof (push_line_lines axis ln s) as Hl1.
  set (s1 := push_line axis ln s) in *.
  destruct (Z.eqb_spec (to - from) 2) as [H2|H2]; simpl.
  { intros [= <-]. exists [from + half], [ln].
    split; [done|]. split; [by repeat constructor|].
    assert (half = 1) as -> by lia.
    replace (to - from - 1) with 1 by lia. done. }
  destruct (div_axis_rec fuel axis from (from + half) s1) as [s2|] eqn:Hd1;
    [|done].
  intros Hd2.
  pose proof Hd1 as Hd1'. pose proof Hd2 as Hd2'.
  apply div_axis_rec_spec in Hd1' as [Hf2 _]; [|lia].
  apply IH in Hd1 as (ks1 & new1 & Hl2 & Hall1 & Hk1); [|lia].
  apply IH in Hd2 as (ks2 & new2 & Hl3 & Hall2 & Hk2); [|lia].
  exists ((from + half) :: ks1 ++ ks2), (ln :: new1 ++ new2).
  split; [rewrite Hl3, Hl2, Hl1, <-!app_assoc; done|]. split.
  - constructor; [done|]. apply Forall2_app.
    + eapply Forall2_impl; [apply Hall1|]. intros k l Hm.
      by eapply midpoint_line_frame.
    + eapply Forall2_impl; [apply Hall2|]. intros k l Hm.
      eapply midpoint_line_frame; [apply Hf1|]. by eapply midpoint_line_frame.
  - rewrite Hk1, Hk2.
    replace (to - from - 1) with ((half - 1) + (1 + (to - (from + half) - 1)))
      by lia.
    rewrite (seqZ_app (from + 1)) by lia.
    rewrite (seqZ_app (from + 1 + (half - 1))) by lia.
    replace (from + 1 + (half - 1)) with (from + half) by lia.
    replace (from + half - from - 1) with (half - 1) by lia.
    change (seqZ (from + half) 1) with [from + half].
    rewrite Permutation_middle. done.
Qed.

Lemma div_axis_positions axis from to s :
  shape_ok s → 0 ≤ from → from ≤ to → to < n_pts s →
  ∃ s' ks new,
    div_axis axis from to s = Some s' ∧
    div_frame axis s s' ∧
    lines_of axis s' = lines_of axis s ++ new ∧
    Forall2 (midpoint_line axis s) ks new ∧
    ks ≡ₚ seqZ (from + 1) (to - from - 1).
Proof.
  intros Hs H0 Hft Hto.
  destruct (div_axis_rec_total (S (Z.to_nat (to - from))) axis from to s)
    as [s' Hd]; [done|done|done|done|lia|].
  exists s'.
  destruct (div_axis_rec_positions _ _ _ _ _ _ Hft Hd)
    as (ks & new & Hl & Hall & Hk).
  exists ks, new. split; [done|]. split; [|done].
  by apply (div_axis_rec_spec _ _ _ _ _ _ Hft Hd).
Qed.

End candidate_positions.

Section runs.

Implicit Types (s : state) (l : line_ptr) (ln : line_t).

Lemma lines_kept_refl s : lines_kept s s.
Proof. split; [by split|done..]. Qed.

Lemma lines_kept_trans s1 s2 s3 :
  lines_kept s1 s2 → lines_kept s2 s3 → lines_kept s1 s3.
Proof.
  intros [[? ? ? ?] ? ? H1] [[? ? ? ?] ? ? H2].
  split; [split|..]; try congruence.
  intros l. destruct (H1 l), (H2 l). split; congruence.
Qed.

Lemma valid_ptr_commit l l' s : valid_ptr l' (commit l s) ↔ valid_ptr l' s.
Proof.
  destruct (commit_lines_length l s) as [Hx Hy].
  destruct l'; simpl; by rewrite ?Hx, ?Hy.
Qed.

(** The lines after a commit: only the flag of the committed one moves. *)
Lemma deref_commit l l' s :
  valid_ptr l s →
  deref l' (commit l s)
  = if decide (l' = l) then mark_committed (deref l s) else deref l' s.
Proof.
  intros Hv. destruct (commit_lines l s) as [Hx Hy].
  case_decide as Hd.
  - subst l'. rewrite commit_deref. by apply deref_marked.
  - destruct l as [k|k], l' as [k'|k']; simpl in *; rewrite ?Hx, ?Hy;
      simpl; try done.
    + apply list_lookup_total_alter_ne. congruence.
    + apply list_lookup_total_alter_ne. congruence.
Qed.

Lemma commit_lines_kept l s : valid_ptr l s → lines_kept s (commit l s).
Proof.
  intros Hv. destruct (commit_lines_length l s) as [Hx Hy].
  split; [apply commit_frame|done|done|].
  intros l'. rewrite deref_commit by done. by case_decide; subst.
Qed.

Lemma separates_kept s0 s l a b :
  lines_kept s0 s →
  separates (deref l s) s a b = separates (deref l s0) s0 a b.
Proof.
  intros [Hf _ _ Hl]. destruct (Hl l) as [Hax Hin].
  unfold separates, splits. rewrite Hax, Hin.
  by rewrite !(key_frame_eq _ _ _ _ Hf).
Qed.

(** One test of the loop body: [con = check_con(l); if (con) commit(l)]. *)
Lemma test_step_run l s clx cly clx' cly' :
  reachable s → valid_ptr l s → l ∉ all_lines s →
  (∀ l', behind clx cly l' ∨ l' = l → behind clx' cly' l') →
  run_inv s clx cly →
  let s' := if check_con l s then commit l s else s in
  run_inv s' clx' cly' ∧ lines_kept s s'.
Proof.
  intros Hr Hv Hnew Hcur [Hnd Hbe Hfl Hsep Hcnt].
  destruct (check_con l s) eqn:Hc; simpl.
  2:{ split; [|apply lines_kept_refl]. split; try done.
      intros l' Hl'. destruct (Hbe l' Hl'). split; [|done]. apply Hcur. by left. }
  pose proof (commit_lines_kept l s Hv) as Hk.
  pose proof (fr_n_pts _ _ (commit_frame l s)) as Hn.
  split; [|done]. split.
  - rewrite commit_all_lines. apply NoDup_app. split; [done|].
    split; [|apply NoDup_singleton].
    intros l' Hl' ->%list_elem_of_singleton. done.
  - intros l'. rewrite commit_all_lines, elem_of_app, list_elem_of_singleton.
    rewrite valid_ptr_commit. intros [Hl'| ->].
    + destruct (Hbe l' Hl'). split; [|done]. apply Hcur. by left.
    + split; [|done]. apply Hcur. by right.
  - intros l'. rewrite valid_ptr_commit. intros Hv'.
    rewrite deref_commit, commit_all_lines by done.
    case_decide as Hd.
    + subst. simpl. rewrite bool_decide_eq_true_2; [done|].
      apply elem_of_app. right. by apply list_elem_of_singleton.
    + rewrite (Hfl l' Hv'). apply (f_equal (λ b : bool, if b then 1 else 0)).
      apply bool_decide_ext. rewrite elem_of_app, list_elem_of_singleton.
      naive_solver.
  - rewrite <-Hn. intros a b Ha Hb Hne.
    rewrite commit_conn by done. rewrite commit_all_lines.
    destruct (separates (deref l s) s a b) eqn:Hs.
    + split; [|done]. intros _. exists l. split.
      * apply elem_of_app. right. by apply list_elem_of_singleton.
      * by rewrite (separates_kept s).
    + rewrite (Hsep a b Ha Hb Hne). split.
      * intros (l' & Hl' & Hs'). exists l'. split.
        -- apply elem_of_app. by left.
        -- by rewrite (separates_kept s).
      * intros (l' & Hl' & Hs'). rewrite (separates_kept s) in Hs' by done.
        apply elem_of_app in Hl' as [Hl'| ->%list_elem_of_singleton].
        -- by exists l'.
        -- congruence.
  - pose proof (commit_drops l s Hr Hv Hc).
    unfold n_lines in *. rewrite commit_all_lines, length_app, <-Hn. simpl.
    lia.
Qed.

Lemma loop_body_run s clx cly s' clx' cly' :
  loop_inv s clx cly → run_inv s clx cly → loop_cond s clx cly = true →
  loop_body s clx cly = (s', clx', cly') →
  run_inv s' clx' cly' ∧ lines_kept s s'.
Proof.
  intros [Hr Hc Hl Hb] Hinv Hcond.
  apply loop_cond_true in Hcond as (_ & Hx & Hy).
  unfold loop_body.
  destruct (test_step_ok (XLn clx) s Hr Hx) as (Hr1 & Hx1 & Hy1).
  destruct (test_step_run (XLn clx) s clx cly (S clx) cly Hr Hx)
    as [Hinv1 Hk1]; [| |done|].
  { intros Hin. apply (ri_behind _ _ _ Hinv) in Hin as [Hin _]. simpl in Hin. lia. }
  { intros [k|k] [H| H]; simpl in *; try (injection H as ->); try done; lia. }
  set (s1 := if check_con (XLn clx) s then commit (XLn clx) s else s) in *.
  assert (Hy' : valid_ptr (YLn cly) s1) by (simpl; lia).
  destruct (test_step_run (YLn cly) s1 (S clx) cly (S clx) (S cly) Hr1 Hy')
    as [Hinv2 Hk2]; [| |done|].
  { intros Hin. apply (ri_behind _ _ _ Hinv1) in Hin as [Hin _]. simpl in Hin. lia. }
  { intros [k|k] [H| H]; simpl in *; try (injection H as ->); try done; lia. }
  intros [= <- <- <-]. split; [done|]. by eapply lines_kept_trans.
Qed.

Lemma loop_iter_run k s clx cly s' clx' cly' :
  loop_iter k s clx cly s' clx' cly' →
  loop_inv s clx cly → run_inv s clx cly →
  run_inv s' clx' cly' ∧ lines_kept s s'.
Proof.
  induction 1 as [|k s clx cly s1 clx1 cly1 s' clx' cly' Hc Hb _ IH];
    intros Hl Hinv.
  - split; [done|apply lines_kept_refl].
  - destruct (loop_body_inv _ _ _ _ _ _ Hl Hc Hb) as (Hl1 & _).
    destruct (loop_body_run _ _ _ _ _ _ Hl Hinv Hc Hb) as [Hinv1 Hk1].
    destruct (IH Hl1 Hinv1) as [Hinv' Hk'].
    split; [done|]. by eapply lines_kept_trans.
Qed.

(** The graph and the counter when the loop is entered. *)
Lemma prepare_graph inst s0 s :
  prepare inst s0 = Ready s →
  rem_cons s = n_pts s * (n_pts s - 1) ∧
  ∀ a b, (a < Z.to_nat (n_pts s))%nat → (b < Z.to_nat (n_pts s))%nat →
         conn s a b = if decide (a = b) then None else Some b.
Proof.
  unfold prepare.
  destruct (read_instance_file inst s0) as [[r s1]|] eqn:Hread; [|done].
  destruct r; try done.
  destruct (initialize_connections (sort_points s1)) as [s2|] eqn:Hinit;
    [|done].
  destruct (div_axis X 0 (n_pts s2 - 1) s2) as [s3|] eqn:HdX; [|done].
  destruct (div_axis Y 0 (n_pts s3 - 1) s3) as [s4|] eqn:HdY; [|done].
  intros [= <-].
  destruct (read_instance_file_success _ _ _ Hread) as (Hn & Hlen & _).
  destruct (initialize_connections_spec (sort_points s1) s2)
    as (Hf & Hrem & _ & Hconn); [done..|].
  pose proof (if_n_pts _ _ Hf) as Hn2. simpl in Hn2, Hrem, Hconn.
  apply div_axis_spec in HdX as (HfX & _).
  apply div_axis_spec in HdY as (HfY & _).
  rewrite (df_n_pts _ _ _ HfY), (df_n_pts _ _ _ HfX), Hn2.
  rewrite (df_rem_cons _ _ _ HfY), (df_rem_cons _ _ _ HfX).
  split; [done|]. intros a b Ha Hb.
  rewrite (div_frame_conn _ _ _ _ _ HfY), (div_frame_conn _ _ _ _ _ HfX).
  by apply Hconn.
Qed.

Lemma prepare_run_inv inst s0 s :
  instance_start s0 → prepare inst s0 = Ready s → run_inv s 0 0.
Proof.
  intros H0 Hp. destruct (prepare_lines _ _ _ H0 Hp) as [_ Hall].
  destruct (prepare_graph _ _ _ Hp) as [Hrem Hconn].
  split.
  - rewrite Hall. constructor.
  - intros l. rewrite Hall. by intros ?%elem_of_nil.
  - intros l Hv. rewrite Hall. rewrite bool_decide_eq_false_2
      by (by intros ?%elem_of_nil).
    assert (∃ axis, deref l s ∈ lines_of axis s) as [axis Hin].
    { destruct l as [k|k]; [exists X|exists Y]; simpl in *;
        apply list_elem_of_lookup_total_2; done. }
    destruct (prepare_candidates _ _ _ axis H0 Hp) as (_ & _ & Hc).
    rewrite List.Forall_forall in Hc.
    apply list_elem_of_In, Hc in Hin as (k & _ & pt1 & pt2 & _ & _ & ->).
    done.
  - intros a b Ha Hb Hne. rewrite Hconn, Hall by done.
    rewrite decide_False by done. split; [done|].
    by intros (l & ?%elem_of_nil & _).
  - unfold n_lines. rewrite Hall, Hrem. simpl. lia.
Qed.

(** Every state of a run of the loop of an instance. *)
Lemma run_facts inst s0 s k s' clx cly :
  instance_start s0 → prepare inst s0 = Ready s →
  loop_iter k s 0 0 s' clx cly →
  loop_inv s' clx cly ∧ run_inv s' clx cly ∧ lines_kept s s' ∧
  clx = k ∧ cly = k.
Proof.
  intros H0 Hp Hit.
  pose proof (prepare_loop_inv _ _ _ H0 Hp) as Hl.
  pose proof (prepare_run_inv _ _ _ H0 Hp) as Hinv.
  destruct (loop_iter_inv _ _ _ _ _ _ _ Hit Hl) as (Hl' & -> & -> & _).
  destruct (loop_iter_run _ _ _ _ _ _ _ Hit Hl Hinv) as [Hinv' Hk].
  done.
Qed.

Lemma rem_cons_zero_clear s a b :
  reachable s → rem_cons s = 0 →
  (a < Z.to_nat (n_pts s))%nat → (b < Z.to_nat (n_pts s))%nat →
  conn s a b = None.
Proof.
  intros Hr H0 Ha Hb. pose proof (reachable_rem_cons_ok s Hr) as Hok.
  unfold rem_cons_ok in Hok. rewrite H0 in Hok.
  apply is_connected_None. destruct (is_connected s a b) eqn:Hc; [|done].
  exfalso. unfold live_entries in Hok.
  assert (1 ≤ sum_upto (Z.to_nat (n_pts s)) (live_in_row s))%nat; [|lia].
  etrans; [|apply (sum_upto_mono _
    (λ i, if bool_decide (i = a) then 1%nat else 0%nat))].
  - rewrite sum_upto_indicator.
    rewrite (count_upto_set _ (λ _, false) _ a); [lia|done|done|..].
    + by rewrite bool_decide_eq_true_2.
    + intros i _ Hi. by rewrite bool_decide_eq_false_2.
  - intros i Hi. case_bool_decide; [subst|lia]. unfold live_in_row.
    rewrite (count_upto_set _ (λ j, bool_decide (j ≠ b) && is_connected s a j)
               _ b); [lia|done|..].
    + by rewrite bool_decide_eq_false_2 by naive_solver.
    + done.
    + intros j _ Hj. by rewrite bool_decide_eq_true_2.
Qed.

End runs.

Section runs_of_instances.

Implicit Types (s : state) (l : line_ptr) (ln : line_t).

Lemma deref_in_lines l s :
  valid_ptr l s → deref l s ∈ lines_of (ptr_axis l) s.
Proof.
  destruct l as [k|k]; simpl; intros Hv; by apply list_elem_of_lookup_total_2.
Qed.

(** The candidates when the loop is entered. *)
Lemma prepare_line inst s0 s l :
  instance_start s0 → prepare inst s0 = Ready s → valid_ptr l s →
  ∃ k, 0 < k < n_pts s - 1 ∧ midpoint_line (ptr_axis l) s k (deref l s).
Proof.
  intros H0 Hp Hv.
  destruct (prepare_candidates _ _ _ (ptr_axis l) H0 Hp) as (_ & _ & Hc).
  rewrite List.Forall_forall in Hc.
  by apply Hc, list_elem_of_In, deref_in_lines.
Qed.

Lemma prepare_line_axis inst s0 s l :
  instance_start s0 → prepare inst s0 = Ready s → valid_ptr l s →
  ln_axis (deref l s) = ptr_axis l ∧ ln_committed (deref l s) = 0.
Proof.
  intros H0 Hp Hv.
  destruct (prepare_line _ _ _ _ H0 Hp Hv)
    as (k & _ & pt1 & pt2 & _ & _ & ->). done.
Qed.

Lemma prepare_line_count inst s0 s :
  instance_start s0 → prepare inst s0 = Ready s →
  1 ≤ n_pts s ∧
  n_x_lines s = Z.to_nat (n_pts s - 2) ∧ n_y_lines s = Z.to_nat (n_pts s - 2).
Proof.
  intros (Hx0 & Hy0 & Ha0). unfold prepare.
  destruct (read_instance_file inst s0) as [[r s1]|] eqn:Hread; [|done].
  destruct r; try done.
  destruct (initialize_connections (sort_points s1)) as [s2|] eqn:Hinit;
    [|done].
  destruct (div_axis X 0 (n_pts s2 - 1) s2) as [s3|] eqn:HdX; [|done].
  destruct (div_axis Y 0 (n_pts s3 - 1) s3) as [s4|] eqn:HdY; [|done].
  intros [= <-].
  destruct (read_instance_file_success _ _ _ Hread)
    as (Hn & Hlen & _ & _ & Hx1 & Hy1 & _).
  destruct (initialize_connections_spec (sort_points s1) s2)
    as (Hf & _); [done..|].
  pose proof (div_axis_rec_ordered _ _ _ _ _ _ HdX) as HoX.
  pose proof (div_axis_rec_ordered _ _ _ _ _ _ HdY) as HoY.
  pose proof HdX as HdX'. pose proof HdY as HdY'.
  apply div_axis_spec in HdX' as (HfX & _).
  apply div_axis_spec in HdY' as (HfY & _).
  apply div_axis_rec_positions in HdX as (kx & newx & HlX & HaX & HkX);
    [|done].
  apply div_axis_rec_positions in HdY as (ky & newy & HlY & HaY & HkY);
    [|done].
  apply Forall2_length in HaX, HaY.
  rewrite HkX, length_seqZ in HaX. rewrite HkY, length_seqZ in HaY.
  pose proof (df_other _ _ _ HfX Y ltac:(done)) as HxY.
  pose proof (df_other _ _ _ HfY X ltac:(done)) as HyX.
  pose proof (df_n_pts _ _ _ HfX) as HnX.
  pose proof (df_n_pts _ _ _ HfY) as HnY.
  simpl in HlX, HlY, HxY, HyX.
  unfold n_x_lines, n_y_lines.
  rewrite HyX, HlX, HlY, HxY, !length_app.
  rewrite (if_x_lines _ _ Hf), (if_y_lines _ _ Hf). simpl.
  rewrite Hx1, Hy1, Hx0, Hy0. simpl. lia.
Qed.

(** Pointers that the cursors have passed, without repetition, are no
    more than the cursors count. *)
Lemma behind_count (ls : list line_ptr) clx cly :
  NoDup ls → (∀ l, l ∈ ls → behind clx cly l) →
  (length ls ≤ clx + cly)%nat.
Proof.
  intros Hnd Hb.
  assert (ls ⊆+ (XLn <$> seq 0 clx) ++ (YLn <$> seq 0 cly)) as Hsub.
  { apply NoDup_submseteq; [done|]. intros l Hl. apply Hb in Hl.
    apply elem_of_app. destruct l as [k|k]; simpl in Hl; [left|right];
      apply list_elem_of_fmap; exists k; (split; [done|]);
      apply elem_of_seq; lia. }
  apply submseteq_length in Hsub.
  by rewrite length_app, !length_fmap, !length_seq in Hsub.
Qed.

(** A candidate of an axis has the points at the first two positions of
    the view of that axis on the same side. *)
Lemma first_two_same_side inst s0 s l a b :
  instance_start s0 → prepare inst s0 = Ready s → valid_ptr l s →
  first_two (ptr_axis l) s a b →
  separates (deref l s) s a b = false.
Proof.
  intros H0 Hp Hv Hft.
  pose proof (prepare_reachable _ _ _ Hp) as Hr.
  destruct (reachable_ok s Hr) as [Hs _].
  destruct (prepare_line _ _ _ _ H0 Hp Hv)
    as (k & Hk & pt1 & pt2 & H1 & H2 & Hln).
  set (axis := ptr_axis l) in *.
  assert (Hk0 : k = Z.of_nat (Z.to_nat k)) by lia.
  assert (Hk1 : k + 1 = Z.of_nat (S (Z.to_nat k))) by lia.
  rewrite Hk0 in H1. rewrite Hk1 in H2.
  apply point_at_coord in H1, H2; [|done..].
  assert (Hle : ∀ i c, (i ≤ 1)%nat → view axis s !! i = Some c →
                (float_of_int (key axis s c) <= ln_inter (deref l s))%Q).
  { intros i c Hi Hc.
    assert (Hin : (i < Z.to_nat (n_pts s))%nat) by lia.
    destruct (view_lookup axis s i Hs Hin) as (c' & p & Hc' & _ & _ & Hco & _).
    assert (c' = c) as -> by congruence. rewrite <-Hco.
    pose proof (coord_at_sorted axis s i (Z.to_nat k) Hs ltac:(lia) ltac:(lia)).
    pose proof (coord_at_sorted axis s (Z.to_nat k) (S (Z.to_nat k)) Hs
                  ltac:(lia) ltac:(lia)).
    rewrite Hln. cbn [ln_inter]. rewrite <-H1, <-H2.
    eapply Qle_trans; [eassumption|].
    apply float_mid_ge; [apply float_of_int_representable|done]. }
  assert (Hax : ln_axis (deref l s) = axis) by (by rewrite Hln).
  assert (Ha : Qle_bool (float_of_int (key axis s a)) (ln_inter (deref l s)) = true).
  { apply Qle_bool_iff.
    destruct Hft as [[Ha _]|[_ Ha]]; eapply Hle; [|exact Ha| |exact Ha]; lia. }
  assert (Hb : Qle_bool (float_of_int (key axis s b)) (ln_inter (deref l s)) = true).
  { apply Qle_bool_iff.
    destruct Hft as [[_ Hb]|[Hb _]]; eapply Hle; [|exact Hb| |exact Hb]; lia. }
  unfold separates, splits. rewrite Hax, Ha, Hb. done.
Qed.

Lemma first_two_points axis s a b :
  reachable s → first_two axis s a b →
  a ≠ b ∧ (a < Z.to_nat (n_pts s))%nat ∧ (b < Z.to_nat (n_pts s))%nat.
Proof.
  intros Hr Hft. destruct (reachable_ok s Hr) as [Hs _].
  pose proof (reachable_view_perm axis s Hr) as Hperm.
  assert (Hnd : NoDup (view axis s)) by (rewrite Hperm; apply NoDup_seq).
  destruct Hft as [[Ha Hb]|[Hb Ha]]; (split; [|split]);
    try (by eapply (ok_view_lt _ Hs axis)).
  - intros ->. by pose proof (NoDup_lookup _ _ _ _ Hnd Ha Hb).
  - intros ->. by pose proof (NoDup_lookup _ _ _ _ Hnd Ha Hb).
Qed.

Lemma rem_cons_positive s a b :
  reachable s →
  (a < Z.to_nat (n_pts s))%nat → (b < Z.to_nat (n_pts s))%nat →
  conn s a b ≠ None → 2 ≤ rem_cons s.
Proof.
  intros Hr Ha Hb Hc. destruct (reachable_ok s Hr) as [Hs Hg].
  pose proof (reachable_rem_cons_nonneg s Hr) as H0.
  assert (rem_cons s ≠ 0) as Hne
    by (intros Hz; by apply Hc, rem_cons_zero_clear).
  pose proof (ok_rem_cons _ Hg) as Hrem.
  pose proof (pairs_even (n_pts s)) as He.
  apply Z.even_spec in He as [m Hm]. lia.
Qed.

Lemma all_clear_rem_cons s :
  reachable s →
  (∀ a b, (a < Z.to_nat (n_pts s))%nat → (b < Z.to_nat (n_pts s))%nat →
          a ≠ b → conn s a b = None) →
  rem_cons s = 0.
Proof.
  intros Hr Hall. destruct (reachable_ok s Hr) as [Hs Hg].
  rewrite (reachable_rem_cons_ok s Hr). unfold live_entries.
  rewrite (sum_upto_ext _ _ (λ _, 0%nat)); [by rewrite sum_upto_zero|].
  intros i Hi. apply count_upto_none. intros j Hj.
  apply is_connected_None. destruct (decide (i = j)) as [->|Hne].
  - by apply (ok_diag _ Hg).
  - by apply Hall.
Qed.

Lemma example_run : loop_iter 1 example_ready 0 0 example_final 1 1.
Proof.
  apply (loop_iter_S 0 example_ready 0 0 example_final 1 1 example_final 1 1);
    [vm_compute; reflexivity|vm_compute; reflexivity|apply loop_iter_O].
Qed.

Lemma diagonal_prepared :
  prepare (Some diagonal_file) initial_state = Ready diagonal_ready.
Proof. vm_compute. reflexivity. Qed.

Lemma diagonal_run : loop_iter 1 diagonal_ready 0 0 diagonal_final 1 1.
Proof.
  apply (loop_iter_S 0 diagonal_ready 0 0 diagonal_final 1 1
           diagonal_final 1 1);
    [vm_compute; reflexivity|vm_compute; reflexivity|apply loop_iter_O].
Qed.

Lemma initial_instance_start : instance_start initial_state.
Proof. by repeat split. Qed.

End runs_of_instances.

Section trailing_integer.

Implicit Types (s : state) (ps : list point_t) (pairs : list (Z * Z)).

(** Whole pairs followed by one integer: the [fscanf] that finds the
    single integer assigns [x] only, and the point stored for it gets
    the [y] of the pair before. *)
Lemma read_points_trailing pairs x x0 y0 i ps :
  (i ≤ length ps)%nat → Z.of_nat (i + length pairs) < MAX_PTS →
  Forall (λ xy, pair_ok xy = true) pairs → in_taken x = true →
  ∃ ps' p,
    read_points (flatten_pairs pairs ++ [x]) x0 y0 i ps
    = Some (S (i + length pairs), ps') ∧
    ps' !! (i + length pairs)%nat = Some p ∧
    pt_x p = x ∧ pt_y p = default y0 (snd <$> last pairs).
Proof.
  revert x0 y0 i ps. induction pairs as [|[x' y'] pairs IH];
    intros x0 y0 i ps Hi Hmax Hok Hx.
  - simpl in *. rewrite (in_taken_fits _ Hx), Hx. cbn [negb].
    destruct (Z.ltb_spec (Z.of_nat i) MAX_PTS) as [_|]; [|lia].
    rewrite !Nat.add_0_r. eexists _, _. split; [done|].
    rewrite write_point_lookup, decide_True by done. done.
  - apply Forall_cons in Hok as [Hxy Hok].
    unfold pair_ok in Hxy. simpl in Hxy.
    apply andb_true_iff in Hxy as [Hx' Hy'].
    change (flatten_pairs ((x', y') :: pairs) ++ [x])
      with (x' :: y' :: (flatten_pairs pairs ++ [x])).
    cbn [read_points]. simpl length in Hmax.
    rewrite (in_taken_fits _ Hx'), Hy', Hx'. cbn [negb].
    destruct (Z.ltb_spec (Z.of_nat i) MAX_PTS) as [_|]; [|lia].
    set (ps1 := write_point i (load_point x' y') ps).
    assert (Hlen1 : (S i ≤ length ps1)%nat) by (by apply write_point_length).
    destruct (IH x' y' (S i) ps1 Hlen1) as (ps' & p & Hr & Hp & Hpx & Hpy);
      [lia|done|done|].
    replace (i + length ((x', y') :: pairs))%nat
      with (S i + length pairs)%nat by (simpl; lia).
    exists ps', p. split; [done|]. split; [done|]. split; [done|].
    rewrite Hpy. destruct pairs as [|xy pairs]; [done|].
    change (last ((x', y') :: xy :: pairs)) with (last (xy :: pairs)).
    destruct (last (xy :: pairs)) eqn:E; [done|]. by apply last_None in E.
Qed.

End trailing_integer.

Section split_position.

Implicit Types (s : state) (l : line_ptr).

(** Where the scan stops for a line half-way between the positions [k]
    and [k + 1] of the view. *)
Lemma midpoint_nearest axis s (k : nat) ln :
  shape_ok s → (S k < Z.to_nat (n_pts s))%nat →
  midpoint_line axis s (Z.of_nat k) ln →
  (exact_pair axis s k →
   get_point_nearest_inter axis (ln_inter ln) s = Z.of_nat k) ∧
  ((coord_at axis s k == coord_at axis s (S k))%Q →
   (ln_inter ln == coord_at axis s k)%Q).
Proof.
  intros Hs Hk Hm. split.
  - intros Hex.
    destruct (midpoint_strictly_between axis s k ln Hs Hk Hm Hex)
      as (_ & Hlo & Hhi & _).
    destruct Hex as (_ & Ha & Hb).
    assert (Hac : across (get_point_nearest_inter axis (ln_inter ln) s) s
                    k (S k)).
    { change (2 ^ 23) with 8388608 in Ha, Hb.
      apply across_iff_sides; [done|]. rewrite !coord_at_int.
      rewrite (float_of_int_exact (int_coord_at axis s k))
        by (change (2 ^ 24) with 16777216; lia).
      rewrite (float_of_int_exact (int_coord_at axis s (S k)))
        by (change (2 ^ 24) with 16777216; lia).
      split; [lia|]. split; [lia|]. split; [by apply Qlt_le_weak|done]. }
    destruct Hac as (Hlo' & Hhi' & _). lia.
  - destruct Hm as (pt1 & pt2 & H1 & H2 & ->). cbn [ln_inter].
    replace (Z.of_nat k + 1) with (Z.of_nat (S k)) in H2 by lia.
    apply point_at_coord in H1, H2; [|done..]. rewrite <-H1, <-H2.
    intros Heq. apply float_mid_same; [|by symmetry].
    rewrite coord_at_int. apply float_of_int_representable.
Qed.

End split_position.

Section monotone_runs.

Implicit Types (s : state) (l : line_ptr).

Lemma test_step_mono l s :
  reachable s → valid_ptr l s →
  let s' := if check_con l s then commit l s else s in
  cleared_stay s s' ∧ rem_cons s' ≤ rem_cons s ∧
  all_lines s `prefix_of` all_lines s'.
Proof.
  intros Hr Hv. destruct (check_con l s) eqn:Hc; simpl.
  - split; [apply commit_cleared_stay|]. split.
    + pose proof (commit_drops l s Hr Hv Hc). lia.
    + rewrite commit_all_lines. by apply prefix_app_r.
  - split; [by intros ? ?|]. split; [lia|done].
Qed.

Lemma loop_body_mono s clx cly s' clx' cly' :
  loop_inv s clx cly → loop_cond s clx cly = true →
  loop_body s clx cly = (s', clx', cly') →
  cleared_stay s s' ∧ rem_cons s' ≤ rem_cons s ∧
  all_lines s `prefix_of` all_lines s'.
Proof.
  intros [Hr Hc Hl Hb] Hcond.
  apply loop_cond_true in Hcond as (_ & Hx & Hy).
  unfold loop_body.
  destruct (test_step_ok (XLn clx) s Hr Hx) as (Hr1 & Hx1 & Hy1).
  destruct (test_step_mono (XLn clx) s Hr Hx) as (Hc1 & Hm1 & Hp1).
  set (s1 := if check_con (XLn clx) s then commit (XLn clx) s else s) in *.
  assert (Hy' : valid_ptr (YLn cly) s1) by (simpl; lia).
  destruct (test_step_mono (YLn cly) s1 Hr1 Hy') as (Hc2 & Hm2 & Hp2).
  intros [= <- <- <-]. split; [|split].
  - intros a b Hab. by apply Hc2, Hc1.
  - lia.
  - by etrans.
Qed.

Lemma loop_iter_mono k s clx cly s' clx' cly' :
  loop_iter k s clx cly s' clx' cly' → loop_inv s clx cly →
  cleared_stay s s' ∧ rem_cons s' ≤ rem_cons s ∧
  all_lines s `prefix_of` all_lines s'.
Proof.
  induction 1 as [|k s clx cly s1 clx1 cly1 s' clx' cly' Hc Hb _ IH];
    intros Hl.
  - split; [by intros ? ?|]. split; [lia|done].
  - destruct (loop_body_inv _ _ _ _ _ _ Hl Hc Hb) as (Hl1 & _).
    destruct (loop_body_mono _ _ _ _ _ _ Hl Hc Hb) as (Hc1 & Hm1 & Hp1).
    destruct (IH Hl1) as (Hc2 & Hm2 & Hp2). split; [|split].
    + intros a b Hab. by apply Hc2, Hc1.
    + lia.
    + by etrans.
Qed.

End monotone_runs.

Section totals.

Lemma foldr_sum_upto (f : nat → Z) (g : nat → nat) n :
  (∀ i, (i < n)%nat → f i = Z.of_nat (g i)) →
  foldr (λ i acc, f i + acc) 0 (seq 0 n) = Z.of_nat (sum_upto n g).
Proof.
  induction n as [|n IH]; intros H; [done|].
  rewrite seq_S, foldr_app. simpl.
  assert (∀ (l : list nat) a,
            foldr (λ i acc, f i + acc) a l
            = foldr (λ i acc, f i + acc) 0 l + a) as Hacc.
  { induction l as [|x l IHl]; intros a; simpl; [lia|]. rewrite IHl. lia. }
  rewrite Hacc, IH by (intros i Hi; apply H; lia).
  rewrite (H n) by lia. lia.
Qed.

End totals.

Section first_candidate.

Implicit Types (s : state) (ln : line_t).

(** The first line a call of [div_axis_rec] stores is the one at the
    middle of its range; the recursive calls store theirs after it. *)
Lemma div_axis_rec_first fuel axis from to s s' :
  2 ≤ to - from →
  div_axis_rec fuel axis from to s = Some s' →
  ∃ ln rest, lines_of axis s' = lines_of axis s ++ ln :: rest ∧
             midpoint_line axis s (from + half_of (to - from)) ln.
Proof.
  intros Hspan. destruct fuel as [|fuel]; simpl; [done|].
  fold (half_of (to - from)).
  destruct (Z.eqb_spec from to) as [|_]; [lia|].
  destruct (Z.eqb_spec (to - from) 0) as [|H0]; [lia|].
  destruct (Z.eqb_spec (to - from) 1) as [|H1]; [lia|]. simpl.
  pose proof (half_of_bounds (to - from) ltac:(lia) H0 H1) as Hh.
  set (half := half_of (to - from)) in *.
  destruct (Z.eqb_spec half 0) as [|_]; [lia|]. simpl.
  destruct (point_at axis s (from + half)) as [pt1|] eqn:Hp1; [|done].
  destruct (point_at axis s (from + (half + 1))) as [pt2|] eqn:Hp2; [|done].
  set (ln := mk_line axis 0 _).
  assert (Hln : midpoint_line axis s (from + half) ln).
  { exists pt1, pt2. split; [done|]. split; [|done]. by rewrite <-Z.add_assoc. }
  pose proof (push_line_lines axis ln s) as Hl1.
  set (s1 := push_line axis ln s) in *.
  destruct (Z.eqb_spec (to - from) 2) as [H2|H2]; simpl.
  { intros [= <-]. by exists ln, []. }
  destruct (div_axis_rec fuel axis from (from + half) s1) as [s2|] eqn:Hd1;
    [|done].
  intros Hd2.
  apply div_axis_rec_spec in Hd1 as (_ & new1 & Hl2 & _); [|lia].
  apply div_axis_rec_spec in Hd2 as (_ & new2 & Hl3 & _); [|lia].
  exists ln, (new1 ++ new2). split; [|done].
  rewrite Hl3, Hl2, Hl1, <-!app_assoc. done.
Qed.

Lemma prepare_first_line inst s0 s axis :
  instance_start s0 → prepare inst s0 = Ready s → 3 ≤ n_pts s →
  ∃ ln, lines_of axis s !! 0%nat = Some ln ∧
        midpoint_line axis s (half_of (n_pts s - 1)) ln.
Proof.
  intros (Hx0 & Hy0 & Ha0). unfold prepare.
  destruct (read_instance_file inst s0) as [[r s1]|] eqn:Hread; [|done].
  destruct r; try done.
  destruct (initialize_connections (sort_points s1)) as [s2|] eqn:Hinit;
    [|done].
  destruct (div_axis X 0 (n_pts s2 - 1) s2) as [s3|] eqn:HdX; [|done].
  destruct (div_axis Y 0 (n_pts s3 - 1) s3) as [s4|] eqn:HdY; [|done].
  intros [= <-] Hn4.
  destruct (read_instance_file_success _ _ _ Hread)
    as (Hn & Hlen & _ & _ & Hx1 & Hy1 & _).
  destruct (initialize_connections_spec (sort_points s1) s2)
    as (Hf & _); [done..|].
  pose proof HdX as HdX'. pose proof HdY as HdY'.
  apply div_axis_spec in HdX' as (HfX & _).
  apply div_axis_spec in HdY' as (HfY & _).
  pose proof (df_n_pts _ _ _ HfX) as HnX.
  pose proof (df_n_pts _ _ _ HfY) as HnY.
  apply div_axis_rec_first in HdX as (lx & rx & HlX & HmX); [|lia].
  apply div_axis_rec_first in HdY as (ly & ry & HlY & HmY); [|lia].
  rewrite !Z.sub_0_r, !Z.add_0_l in *.
  pose proof (df_other _ _ _ HfX Y ltac:(done)) as HxY.
  pose proof (df_other _ _ _ HfY X ltac:(done)) as HyX.
  simpl in HlX, HlY, HxY, HyX.
  rewrite (if_x_lines _ _ Hf) in HlX. simpl in HlX.
  rewrite Hx1, Hx0 in HlX. simpl in HlX.
  rewrite HxY, (if_y_lines _ _ Hf) in HlY. simpl in HlY.
  rewrite Hy1, Hy0 in HlY. simpl in HlY.
  destruct axis; simpl.
  - exists lx. rewrite HyX, HlX. split; [done|].
    rewrite HnY, HnX.
    by eapply midpoint_line_frame_inv, midpoint_line_frame_inv.
  - exists ly. rewrite HlY. split; [done|].
    rewrite HnY. by eapply midpoint_line_frame_inv.
Qed.

End first_candidate.

(** * The claims *)

(** C1.  In the loop of an instance the two cursors advance together and
    the two line arrays are equally long, so the loop runs exactly as
    long as connections remain and at least one cursor is not at the end
    of its array.  When the loop stops with connections remaining, both
    arrays have been consumed to the end. *)
Theorem greedy_loop_condition (inst : option (list Z)) (s0 s s' : state)
    (k clx cly : nat) :
  instance_start s0 →
  prepare inst s0 = Ready s →
  loop_iter k s 0 0 s' clx cly →
  (loop_cond s' clx cly = true ↔
   0 < rem_cons s' ∧
   ((clx < n_x_lines s')%nat ∨ (cly < n_y_lines s')%nat)) ∧
  (loop_cond s' clx cly = false → 0 < rem_cons s' →
   clx = n_x_lines s' ∧ cly = n_y_lines s').
Proof.
  intros Hstart Hprep Hiter.
  pose proof (prepare_loop_inv _ _ _ Hstart Hprep) as Hinv.
  destruct (loop_iter_inv _ _ _ _ _ _ _ Hiter Hinv) as (Hinv' & _).
  destruct (loop_inv_cond _ _ _ Hinv') as [Hiff Hstop].
  split; [done|]. intros Hc Hrem. destruct (Hstop Hc) as [?|(_ & ? & ?)]; [lia|done].
Qed.

Lemma greedy_loop_condition_witness :
  instance_start initial_state ∧
  prepare (Some example_file) initial_state = Ready example_ready ∧
  loop_iter 0 example_ready 0 0 example_ready 0 0 ∧
  (loop_cond example_ready 0 0 = true ↔
   0 < rem_cons example_ready ∧
   ((0 < n_x_lines example_ready)%nat ∨ (0 < n_y_lines example_ready)%nat)).
Proof.
  assert (H0 : instance_start initial_state) by (by repeat split).
  assert (Hi : loop_iter 0 example_ready 0 0 example_ready 0 0)
    by constructor.
  split; [exact H0|]. split; [exact example_prepared|]. split; [exact Hi|].
  exact (proj1 (greedy_loop_condition (Some example_file) initial_state
                  example_ready example_ready 0 0 0 H0 example_prepared Hi)).
Defined.

(** C2.  On the code an instance of two points gets no candidate line at
    all: [div_axis] is called with the range [0, n_pts - 1], a span of 1,
    and returns at once.  The loop does not run, no line is committed
    and the two entries of the only pair stay set, whatever the
    coordinates.  (Coordinates that the loader cannot store, an [x]
    outside [x_pt_taken] or a [y] that is no [int], leave the load
    undefined.) *)
Theorem two_points_no_candidate (x1 y1 x2 y2 : Z) (fuel : nat) :
  (pair_ok (x1, y1) = true → pair_ok (x2, y2) = true →
   ∃ s,
     solve fuel (Some [2; x1; y1; x2; y2]) initial_state
       = Some (s, 0%nat, 0%nat) ∧
     n_pts s = 2 ∧
     x_lines s = [] ∧ y_lines s = [] ∧
     solution s = [] ∧
     rem_cons s = 2) ∧
  (pair_ok (x1, y1) && pair_ok (x2, y2) = false →
   prepare (Some [2; x1; y1; x2; y2]) initial_state = LoadUndefined).
Proof.
  split.
  - intros [Hx1 Hy1]%andb_true_iff [Hx2 Hy2]%andb_true_iff. simpl in *.
    assert (Hread : read_instance_file (Some [2; x1; y1; x2; y2]) initial_state
                    = Some (SUCCESS,
                            mk_state [mk_point x1 y1 0 0 []; mk_point x2 y2 0 0 []]
                              [0; 1]%nat [0; 1]%nat [] [] [] 2 0)).
    { unfold read_instance_file. cbn [read_points].
      rewrite (in_taken_fits _ Hx1), (in_taken_fits _ Hx2), Hx1, Hx2, Hy1, Hy2.
      reflexivity. }
    unfold solve, prepare. rewrite Hread.
    destruct fuel as [|fuel].
    + eexists. split; [vm_compute; reflexivity|]. by vm_compute.
    + eexists. split; [vm_compute; reflexivity|]. by vm_compute.
  - unfold pair_ok, prepare, read_instance_file. cbn [read_points fst snd].
    pose proof (in_taken_fits x1) as F1. pose proof (in_taken_fits x2) as F2.
    intros H.
    destruct (in_taken x1), (fits_int x1), (fits_int y1); try (by discriminate F1);
      try reflexivity;
      destruct (in_taken x2), (fits_int x2), (fits_int y2); try (by discriminate F2);
      try reflexivity; try discriminate H.
Qed.

Lemma two_points_no_candidate_witness :
  pair_ok (0, 0) = true ∧ pair_ok (1, 1) = true ∧
  ∃ s, solve 0 (Some [2; 0; 0; 1; 1]) initial_state = Some (s, 0%nat, 0%nat) ∧
       rem_cons s = 2.
Proof.
  assert (H1 : pair_ok (0, 0) = true) by reflexivity.
  assert (H2 : pair_ok (1, 1) = true) by reflexivity.
  split; [exact H1|]. split; [exact H2|].
  destruct (proj1 (two_points_no_candidate 0 0 1 1 0) H1 H2)
    as (s & Hs & _ & _ & _ & _ & Hr).
  exists s. split; [exact Hs|exact Hr].
Defined.

(** C3.  A file that declares zero points and holds no pair is accepted:
    the loader counts zero pairs, the counts agree, and it returns
    [SUCCESS].  [READ_NO_POINTS] is returned only for an empty file.  On
    the accepted instance [div_axis] is then called with the range
    [0, -1] and reads the view at position -1. *)
Theorem zero_points_accepted (s : state) :
  fst <$> read_instance_file (Some [0]) s = Some SUCCESS ∧
  n_pts ∘ snd <$> read_instance_file (Some [0]) s = Some 0 ∧
  fst <$> read_instance_file (Some []) s = Some READ_NO_POINTS ∧
  prepare (Some [0]) initial_state = OutOfBounds.
Proof. by vm_compute. Qed.

(** C4.  On the instance (0,0), (3,1), (3,2) the only vertical candidate
    lies at x = 3.  Every point is at or left of it, the last one at
    position 2 of the view, yet [get_point_nearest_inter] falls through
    to its final [return (-1)]. *)
Theorem nearest_misses_rightmost :
  x_lines duplicate_ready = [mk_line X 0 (6 # 2)] ∧
  get_point_nearest_inter X (6 # 2) duplicate_ready = -1 ∧
  nearest_index_left_of X (6 # 2) duplicate_ready = 2 ∧
  Qle_bool (coord_at X duplicate_ready 2) (6 # 2) = true.
Proof. by vm_compute. Qed.



(** C6.  In every state reached after the initialisation, through any
    sequence of commits, [rem_cons] is [n (n - 1)] minus twice the number
    of unordered pairs disconnected so far; it is even and not negative.
    Right after the initialisation no pair is disconnected and
    [rem_cons] is [n (n - 1)]. *)
Theorem connectivity_conservation (s : state) :
  reachable s →
  rem_cons s = n_pts s * (n_pts s - 1) - 2 * Z.of_nat (disconnected_pairs s) ∧
  Z.even (rem_cons s) = true ∧
  0 ≤ rem_cons s ∧
  (∀ inst s0 s1,
     read_instance_file inst s0 = Some (SUCCESS, s1) →
     initialize_connections (sort_points s1) = Some s →
     disconnected_pairs s = 0%nat ∧ rem_cons s = n_pts s * (n_pts s - 1)).
Proof.
  intros Hreach.
  destruct (reachable_ok s Hreach) as [Hs Hg].
  pose proof (ok_rem_cons _ Hg) as Hrem.
  pose proof (disconnected_pairs_bound s (proj1 (ok_n_pts _ Hs))) as Hb.
  split; [done|]. split; [|split; [lia|]].
  - rewrite Hrem, Z.even_sub, pairs_even, Z.even_mul. done.
  - intros inst s0 s1 Hread Hinit.
    destruct (reach_init_ok _ _ _ _ Hread Hinit) as (_ & _ & Hd).
    split; [done|]. rewrite Hrem, Hd. lia.
Qed.

Lemma connectivity_conservation_witness :
  reachable (commit (XLn 0) example_ready) ∧
  rem_cons (commit (XLn 0) example_ready) =
  4 * (4 - 1) - 2 * Z.of_nat (disconnected_pairs (commit (XLn 0) example_ready)).
Proof.
  assert (Hr : reachable (commit (XLn 0) example_ready)).
  { apply reach_commit; [exact example_reachable|]. vm_compute. lia. }
  split; [exact Hr|].
  exact (proj1 (connectivity_conservation _ Hr)).
Defined.

(** C7, as amended.  Every candidate line of an axis is the line that
    [div_axis] computes half-way between the points at two adjacent
    positions [k] and [k + 1] of the sorted view, [0 < k < n_pts - 1].
    When these two points have different coordinates, of absolute value
    at most 2^23, the line lies at the average of the two coordinates,
    strictly between them, and on no point's coordinate. *)
Theorem candidates_strictly_between (inst : option (list Z))
    (s0 s : state) (axis : axis_t) (ln : line_t) :
  instance_start s0 →
  prepare inst s0 = Ready s →
  ln ∈ lines_of axis s →
  (∃ k : nat, (0 < k)%nat ∧ (S k < Z.to_nat (n_pts s))%nat ∧
              midpoint_line axis s (Z.of_nat k) ln) ∧
  (∀ k : nat, (S k < Z.to_nat (n_pts s))%nat →
              midpoint_line axis s (Z.of_nat k) ln →
              exact_pair axis s k →
              strictly_between_at axis s k ln).
Proof.
  intros Hstart Hprep Hln.
  destruct (prepare_candidates _ _ _ axis Hstart Hprep) as (_ & _ & Hall).
  destruct (reachable_ok s (prepare_reachable _ _ _ Hprep)) as [Hs _].
  rewrite Forall_forall in Hall. split.
  - destruct (Hall ln Hln) as (k & Hk & Hm).
    exists (Z.to_nat k). rewrite Z2Nat.id by lia.
    split; [lia|]. split; [lia|done].
  - intros k Hk Hm Hex. by apply midpoint_strictly_between.
Qed.

Lemma candidates_strictly_between_witness :
  instance_start initial_state ∧
  prepare (Some example_file) initial_state = Ready example_ready ∧
  mk_line X 0 ((1 # 1) + ((2 # 1) - (1 # 1)) / (2 # 1)) ∈ lines_of X example_ready ∧
  exact_pair X example_ready 1 ∧
  strictly_between_at X example_ready 1
    (mk_line X 0 ((1 # 1) + ((2 # 1) - (1 # 1)) / (2 # 1))).
Proof.
  assert (H0 : instance_start initial_state) by (by repeat split).
  assert (Hl : mk_line X 0 ((1 # 1) + ((2 # 1) - (1 # 1)) / (2 # 1))
               ∈ lines_of X example_ready).
  { vm_compute. apply list_elem_of_here. }
  assert (Hk : (2 < Z.to_nat (n_pts example_ready))%nat) by (vm_compute; lia).
  assert (Hm : midpoint_line X example_ready (Z.of_nat 1)
                 (mk_line X 0 ((1 # 1) + ((2 # 1) - (1 # 1)) / (2 # 1)))).
  { eexists _, _. split; [vm_compute; reflexivity|].
    split; [vm_compute; reflexivity|]. vm_compute. reflexivity. }
  assert (He : exact_pair X example_ready 1).
  { vm_compute. repeat split; discriminate. }
  split; [exact H0|]. split; [exact example_prepared|].
  split; [exact Hl|]. split; [exact He|].
  exact (proj2 (candidates_strictly_between (Some example_file) initial_state
                  example_ready X _ H0 example_prepared Hl) 1%nat Hk Hm He).
Defined.

(** The claim C7 as it is stated fails on two instances.  On (0,0),
    (3,1), (3,2) the only vertical candidate is the midpoint of the two
    points with x = 3, and lies on both.  On (0,0), (1,8388608),
    (2,8388609) the only horizontal candidate bisects two different
    coordinates, but their average 8388608.5 is not a binary32 number:
    the candidate is stored as 8388608 and lies on a point. *)
Lemma candidate_on_a_point :
  (prepare (Some duplicate_file) initial_state = Ready duplicate_ready ∧
   ∃ ln, ln ∈ lines_of X duplicate_ready ∧
         ¬ strictly_between X duplicate_ready ln) ∧
  (prepare (Some large_file) initial_state = Ready large_ready ∧
   int_coord_at Y large_ready 1 ≠ int_coord_at Y large_ready 2 ∧
   ∃ ln, ln ∈ lines_of Y large_ready ∧
         ¬ strictly_between Y large_ready ln).
Proof.
  split.
  - split; [exact duplicate_prepared|].
    eexists. split; [vm_compute; apply list_elem_of_here|].
    intros (k & _ & _ & _ & _ & Hno).
    apply (Hno 1%nat); [vm_compute; lia|]. vm_compute. reflexivity.
  - split; [vm_compute; reflexivity|].
    split; [vm_compute; discriminate|].
    eexists. split; [vm_compute; apply list_elem_of_here|].
    intros (k & _ & _ & _ & _ & Hno).
    apply (Hno 1%nat); [vm_compute; lia|]. vm_compute. reflexivity.
Qed.

(** C8.  On the code a valid instance does not always reach DONE or
    EXHAUSTED.  The two-point instance (0,0), (1,1) ends with
    [rem_cons = 2]; [free_connections] resets the other counters but
    not [rem_cons]; the four-point instance that follows is loaded
    without error, fails the counter check of
    [initialize_connections], and the program exits before the loop.
    The same four-point instance, as the first of a run, is solved
    with no connection left. *)
Theorem valid_instance_never_reaches_loop (fuel fuel' : nat) :
  ∃ s s1,
    solve fuel (Some pair_file) initial_state = Some (s, 0%nat, 0%nat) ∧
    rem_cons s = 2 ∧
    instance_start (free_connections s) ∧
    read_instance_file (Some example_file) (free_connections s)
    = Some (SUCCESS, s1) ∧
    n_pts s1 = 4 ∧
    prepare (Some example_file) (free_connections s) = CounterMismatch ∧
    solve fuel' (Some example_file) (free_connections s) = None ∧
    ∃ s', solve (S fuel') (Some example_file) initial_state
          = Some (s', 1%nat, 1%nat) ∧
          rem_cons s' = 0.
Proof.
  assert (H1 : ∃ s, solve fuel (Some pair_file) initial_state
                    = Some (s, 0%nat, 0%nat) ∧
                    (s = default initial_state
                           (fst ∘ fst <$> solve 0 (Some pair_file)
                                            initial_state))).
  { destruct fuel as [|fuel]; eexists; (split; [vm_compute; reflexivity|]);
      vm_compute; reflexivity. }
  destruct H1 as (s & Hs & ->). eexists _, _.
  split; [exact Hs|]. split; [vm_compute; reflexivity|].
  split; [by repeat split|]. split; [vm_compute; reflexivity|].
  split; [vm_compute; reflexivity|]. split; [vm_compute; reflexivity|].
  split; [vm_compute; reflexivity|].
  destruct fuel' as [|fuel'];
    (eexists; split; [vm_compute; reflexivity|vm_compute; reflexivity]).
Qed.

(** C9.  The connectivity relation is symmetric in every reachable
    state: for distinct point indices [i] and [j], the entry [(i, j)] is
    [NULL] exactly when the entry [(j, i)] is.  The initialisation
    establishes this, and [disconnect_points] keeps it, leaving both
    entries of its pair [NULL]. *)
Theorem connections_symmetric (s : state) (i j : nat) :
  reachable s →
  (i < Z.to_nat (n_pts s))%nat → (j < Z.to_nat (n_pts s))%nat → i ≠ j →
  (conn s i j = None ↔ conn s j i = None) ∧
  (conn (disconnect_points i j s) i j = None ∧
   conn (disconnect_points i j s) j i = None) ∧
  (∀ a b, (a < Z.to_nat (n_pts s))%nat → (b < Z.to_nat (n_pts s))%nat →
          conn (disconnect_points i j s) a b = None ↔
          conn (disconnect_points i j s) b a = None).
Proof.
  intros Hreach Hi Hj Hne.
  destruct (reachable_ok s Hreach) as [Hs Hg].
  pose proof (disconnect_graph_ok i j s Hi Hj Hg) as Hg'.
  assert (Hsym' : ∀ a b,
    (a < Z.to_nat (n_pts s))%nat → (b < Z.to_nat (n_pts s))%nat →
    conn (disconnect_points i j s) a b = None ↔
    conn (disconnect_points i j s) b a = None).
  { intros a b Ha Hb. apply (ok_sym _ Hg'); by rewrite disconnect_n_pts. }
  split; [by apply (ok_sym _ Hg)|]. split; [|done].
  pose proof (disconnect_clears i j s) as Hc.
  split; [done|]. by apply Hsym'.
Qed.

Lemma connections_symmetric_witness :
  reachable example_ready ∧
  (0 < Z.to_nat (n_pts example_ready))%nat ∧
  (1 < Z.to_nat (n_pts example_ready))%nat ∧ 0%nat ≠ 1%nat ∧
  (conn example_ready 0 1 = None ↔ conn example_ready 1 0 = None).
Proof.
  assert (H0 : (0 < Z.to_nat (n_pts example_ready))%nat) by (vm_compute; lia).
  assert (H1 : (1 < Z.to_nat (n_pts example_ready))%nat) by (vm_compute; lia).
  assert (Hne : 0%nat ≠ 1%nat) by lia.
  split; [exact example_reachable|].
  split; [exact H0|]. split; [exact H1|]. split; [exact Hne|].
  exact (proj1 (connections_symmetric example_ready 0 1
                  example_reachable H0 H1 Hne)).
Defined.

(** C10.  Testing a line right after committing it finds no connection
    left across its split: [check_con l] is false in the state that
    [commit l] produces, for every line pointer and every state. *)
Theorem check_con_after_commit (l : line_ptr) (s : state) :
  check_con l (commit l s) = false.
Proof.
  apply check_con_false.
  rewrite commit_deref.
  destruct (deref_set_committed l s) as [-> ->].
  pose proof (commit_frame l s) as Hf.
  rewrite <-(frame_eq_nearest _ _ s (commit l s) Hf).
  intros i j (Hi & Hj & Hn).
  rewrite <-!(frame_eq_self_ix_at _ s (commit l s) _ Hf).
  apply commit_clears. unfold across.
  by rewrite (fr_n_pts _ _ Hf).
Qed.


(** * Further properties of the program *)

(** X1.  Whenever the load of a file with a header is defined, it
    answers [SUCCESS] exactly when the declared count equals the number
    of points stored: one for every [fscanf] call that found an integer
    (a trailing single integer counts), and no more than [MAX_PTS].
    Every other such file is answered [READ_N_POINTS_MORE_LESS]. *)
Theorem read_instance_file_accepts (declared : Z) (toks : list Z)
    (s s' : state) (r : ret_val_t) :
  read_instance_file (Some (declared :: toks)) s = Some (r, s') →
  (r = SUCCESS ↔
   declared = Z.min ((Z.of_nat (length toks) + 1) `div` 2) MAX_PTS) ∧
  (r = READ_N_POINTS_MORE_LESS ↔
   declared ≠ Z.min ((Z.of_nat (length toks) + 1) `div` 2) MAX_PTS).
Proof.
  unfold read_instance_file.
  destruct (fits_int declared); simpl; [|done].
  destruct (read_points toks 0 0 0 (points s)) as [[i ps]|] eqn:Hr; [|done].
  pose proof (read_points_count toks 0 0 0%nat (points s) i ps
                ltac:(done) Hr) as Hc.
  simpl in *. destruct (Z.eqb_spec (Z.of_nat i) declared); simpl;
    intros [= <- _]; split; split; try done; lia.
Qed.

Lemma read_instance_file_accepts_witness :
  read_instance_file (Some (3 :: [0; 0; 1; 1])) initial_state
  = Some (READ_N_POINTS_MORE_LESS,
          loaded_state (3 :: [0; 0; 1; 1]) initial_state) ∧
  3 ≠ Z.min ((Z.of_nat (length [0; 0; 1; 1]) + 1) `div` 2) MAX_PTS.
Proof.
  assert (H : read_instance_file (Some (3 :: [0; 0; 1; 1])) initial_state
              = Some (READ_N_POINTS_MORE_LESS,
                      loaded_state (3 :: [0; 0; 1; 1]) initial_state))
    by (vm_compute; reflexivity).
  split; [exact H|].
  exact (proj1 (proj2 (read_instance_file_accepts _ _ _ _ _ H)) eq_refl).
Defined.

(** X2.  Loading a file that declares and holds the same pairs, no more
    than [MAX_PTS] of them, each with an [x] from 0 to [MAX_PTS - 1] and
    a [y] that fits an [int], succeeds: [n_pts] is their number, point
    [k] has the coordinates of pair [k] and a connection count of zero,
    and both views list the points in file order. *)
Theorem read_instance_file_round_trip (pairs : list (Z * Z)) (s : state) :
  Z.of_nat (length pairs) ≤ MAX_PTS →
  Forall (λ xy, pair_ok xy = true) pairs →
  ∃ s1,
    read_instance_file (Some (file_of pairs)) s = Some (SUCCESS, s1) ∧
    n_pts s1 = Z.of_nat (length pairs) ∧
    sorted_x_pt s1 = seq 0 (length pairs) ∧
    sorted_y_pt s1 = seq 0 (length pairs) ∧
    ∀ k xy, pairs !! k = Some xy →
            ∃ p, points s1 !! k = Some p ∧
                 pt_x p = xy.1 ∧ pt_y p = xy.2 ∧ pt_con_cnt p = 0.
Proof.
  intros Hmax Hok. unfold file_of, read_instance_file.
  assert (fits_int (Z.of_nat (length pairs)) = true) as ->.
  { unfold fits_int, INT_MIN, INT_MAX, MAX_PTS in *.
    rewrite andb_true_iff, !Z.leb_le. lia. }
  cbn [negb].
  destruct (read_points_pairs pairs 0 0 0%nat
              (points (set_n_pts (Z.of_nat (length pairs)) s)))
    as (ps & Hr & _ & Hpts); [lia|simpl; lia|done|].
  rewrite Hr. cbn [n_pts set_points set_n_pts Nat.add].
  rewrite Z.eqb_refl. cbn [negb]. rewrite Nat2Z.id.
  eexists. split; [done|]. repeat split; done.
Qed.

Lemma read_instance_file_round_trip_witness :
  Z.of_nat (length [(0, 3); (1, 1)]) ≤ MAX_PTS ∧
  Forall (λ xy, pair_ok xy = true) [(0, 3); (1, 1)] ∧
  ∃ s1, read_instance_file (Some (file_of [(0, 3); (1, 1)])) initial_state
        = Some (SUCCESS, s1).
Proof.
  assert (H : Z.of_nat (length [(0, 3); (1, 1)]) ≤ MAX_PTS)
    by (vm_compute; discriminate).
  assert (Hok : Forall (λ xy, pair_ok xy = true) [(0, 3); (1, 1)])
    by (repeat constructor).
  split; [exact H|]. split; [exact Hok|].
  destruct (read_instance_file_round_trip [(0, 3); (1, 1)] initial_state
              H Hok) as (s1 & Hs1 & _).
  exists s1. exact Hs1.
Defined.

(** X3.  [initialize_connections] adds [n (n - 1)] to [rem_cons] without
    resetting it first, so its closing check passes exactly when the
    counter was zero on entry; otherwise it takes the [exit(0)]. *)
Theorem initialize_connections_returns_iff (s : state) :
  0 ≤ n_pts s →
  (is_Some (initialize_connections s) ↔ rem_cons s = 0).
Proof.
  intros Hn. unfold initialize_connections.
  destruct (initialize_connections_rem_cons s Hn) as [Hn2 Hr].
  simpl in Hn2, Hr. rewrite Hn2, Hr.
  destruct (Z.eqb_spec (rem_cons s + n_pts s * (n_pts s - 1))
                       (n_pts s * (n_pts s - 1))); simpl.
  - split; [lia|by eexists].
  - split; [by intros [? ?]|lia].
Qed.

Lemma initialize_connections_returns_iff_witness :
  0 ≤ n_pts (sort_points example_loaded) ∧
  is_Some (initialize_connections (sort_points example_loaded)).
Proof.
  assert (H : 0 ≤ n_pts (sort_points example_loaded))
    by (vm_compute; discriminate).
  split; [exact H|].
  apply (proj2 (initialize_connections_returns_iff _ H)). reflexivity.
Defined.

(** X4.  A successful initialisation builds the complete graph: the
    entry [(a, b)] of two different points is the pointer to point [b],
    every diagonal entry is [NULL], each point holds its own index, and
    [rem_cons] is [n (n - 1)].  The views, the lines and the coordinates
    are left as they were. *)
Theorem initialize_connections_complete (s s2 : state) :
  0 ≤ n_pts s ≤ MAX_PTS →
  (Z.to_nat (n_pts s) ≤ length (points s))%nat →
  initialize_connections s = Some s2 →
  (∀ a b, (a < Z.to_nat (n_pts s))%nat → (b < Z.to_nat (n_pts s))%nat →
          conn s2 a b = if decide (a = b) then None else Some b) ∧
  (∀ i p, (i < Z.to_nat (n_pts s))%nat →
          points s2 !! i = Some p → pt_self_ix p = i) ∧
  rem_cons s2 = n_pts s * (n_pts s - 1) ∧
  n_pts s2 = n_pts s ∧
  sorted_x_pt s2 = sorted_x_pt s ∧ sorted_y_pt s2 = sorted_y_pt s ∧
  x_lines s2 = x_lines s ∧ y_lines s2 = y_lines s ∧
  all_lines s2 = all_lines s ∧
  (∀ axis k, key axis s2 k = key axis s k).
Proof.
  intros Hn Hlen Hinit.
  destruct (initialize_connections_spec s s2 Hn Hlen Hinit)
    as (Hf & Hrem & Hself & Hconn).
  split; [done|]. split; [done|]. split; [done|].
  destruct Hf as [? ? ? ? ? ? ? ?].
  repeat split; try done.
  intros axis k. apply key_init_frame. by split.
Qed.

Lemma initialize_connections_complete_witness :
  let s := sort_points example_loaded in
  0 ≤ n_pts s ≤ MAX_PTS ∧
  (Z.to_nat (n_pts s) ≤ length (points s))%nat ∧
  ∃ s2, initialize_connections s = Some s2 ∧ conn s2 0 1 = Some 1%nat.
Proof.
  set (s := sort_points example_loaded).
  assert (Hn : 0 ≤ n_pts s ≤ MAX_PTS) by (vm_compute; split; discriminate).
  assert (Hl : (Z.to_nat (n_pts s) ≤ length (points s))%nat)
    by (vm_compute; lia).
  assert (Hi : initialize_connections s
               = Some (default s (initialize_connections s)))
    by (vm_compute; reflexivity).
  split; [exact Hn|]. split; [exact Hl|].
  exists (default s (initialize_connections s)). split; [exact Hi|].
  exact (proj1 (initialize_connections_complete s _ Hn Hl Hi) 0%nat 1%nat
           ltac:(vm_compute; lia) ltac:(vm_compute; lia)).
Defined.

(** X5.  [free_connections] resets the point and line counters but not
    [rem_cons].  When an instance ends with connections left, the next
    instance, whatever file it loads, fails the counter check of the
    initialisation and the program exits: it never reaches the loop. *)
Theorem stale_counter_stops_next_instance (s s1 : state)
    (inst : option (list Z)) :
  rem_cons s ≠ 0 →
  read_instance_file inst (free_connections s) = Some (SUCCESS, s1) →
  instance_start (free_connections s) ∧
  rem_cons (free_connections s) = rem_cons s ∧
  prepare inst (free_connections s) = CounterMismatch.
Proof.
  intros Hrem Hread. split; [by repeat split|]. split; [done|].
  unfold prepare. rewrite Hread.
  destruct (read_instance_file_success _ _ _ Hread)
    as (Hn & _ & _ & _ & _ & _ & _ & Hr).
  destruct (initialize_connections (sort_points s1)) as [s2|] eqn:Hinit;
    [|done].
  exfalso. apply Hrem. unfold initialize_connections in Hinit.
  destruct (initialize_connections_rem_cons (sort_points s1))
    as [Hn2 Hr2]; [simpl; lia|].
  simpl in Hn2, Hr2, Hinit. rewrite Hn2, Hr2, Hr in Hinit.
  change (rem_cons (free_connections s)) with (rem_cons s) in Hinit.
  destruct (Z.eqb_spec (rem_cons s + n_pts s1 * (n_pts s1 - 1))
                       (n_pts s1 * (n_pts s1 - 1))); [lia|done].
Qed.

Lemma stale_counter_stops_next_instance_witness :
  let s := commit (YLn 0) duplicate_ready in
  rem_cons s ≠ 0 ∧
  prepare (Some example_file) (free_connections s) = CounterMismatch.
Proof.
  set (s := commit (YLn 0) duplicate_ready).
  assert (Hrem : rem_cons s ≠ 0) by (vm_compute; discriminate).
  assert (Hread : read_instance_file (Some example_file) (free_connections s)
                  = Some (SUCCESS, loaded_state example_file
                                     (free_connections s)))
    by (vm_compute; reflexivity).
  split; [exact Hrem|].
  exact (proj2 (proj2 (stale_counter_stops_next_instance s _
                         (Some example_file) Hrem Hread))).
Defined.

(** X6.  In every state reached after the initialisation, the
    [con_cnt] field of each point is the number of set entries of its
    row of the connection matrix, and lies between [0] and [n_pts - 1]. *)
Theorem con_cnt_counts_row (s : state) (i : nat) :
  reachable s → (i < Z.to_nat (n_pts s))%nat →
  ∃ p, points s !! i = Some p ∧
       pt_con_cnt p = Z.of_nat (live_in_row s i) ∧
       0 ≤ pt_con_cnt p ≤ n_pts s - 1.
Proof.
  intros Hr Hi. destruct (reachable_ok s Hr) as [Hs Hg].
  pose proof (reachable_con_cnt_ok s Hr i Hi) as Hc. unfold cnt_at in Hc.
  destruct (points s !! i) as [p|] eqn:Hp; [|done].
  injection Hc as Hc. exists p. split; [done|]. split; [done|].
  pose proof (live_in_row_bound s i Hg Hi). lia.
Qed.

Lemma con_cnt_counts_row_witness :
  reachable (commit (XLn 0) example_ready) ∧
  (1 < Z.to_nat (n_pts (commit (XLn 0) example_ready)))%nat ∧
  ∃ p, points (commit (XLn 0) example_ready) !! 1%nat = Some p ∧
       pt_con_cnt p = Z.of_nat (live_in_row (commit (XLn 0) example_ready) 1) ∧
       0 ≤ pt_con_cnt p ≤ n_pts (commit (XLn 0) example_ready) - 1.
Proof.
  assert (Hi : (1 < Z.to_nat (n_pts (commit (XLn 0) example_ready)))%nat)
    by (vm_compute; lia).
  split; [exact example_committed_reachable|]. split; [exact Hi|].
  exact (con_cnt_counts_row _ 1 example_committed_reachable Hi).
Defined.

(** X7.  In every state reached after the initialisation, [rem_cons] is
    the number of set entries of the whole connection matrix, each
    connected pair of points being counted twice, once in each row; it
    is also the sum of the [pt_con_cnt] fields of the points. *)
Theorem rem_cons_counts_entries (s : state) :
  reachable s →
  rem_cons s = Z.of_nat (live_entries s) ∧
  rem_cons s = con_cnt_total s.
Proof.
  intros Hr. pose proof (reachable_rem_cons_ok s Hr) as Hrem.
  split; [done|]. rewrite Hrem. symmetry.
  apply foldr_sum_upto. intros i Hi.
  pose proof (reachable_con_cnt_ok s Hr i Hi) as Hc. unfold cnt_at in Hc.
  destruct (points s !! i) as [p|] eqn:Hp; [|done].
  injection Hc as Hc. by rewrite (list_lookup_total_correct _ _ _ Hp).
Qed.

Lemma rem_cons_counts_entries_witness :
  reachable (commit (XLn 0) example_ready) ∧
  rem_cons (commit (XLn 0) example_ready)
  = con_cnt_total (commit (XLn 0) example_ready).
Proof.
  split; [exact example_committed_reachable|].
  exact (proj2 (rem_cons_counts_entries _ example_committed_reachable)).
Defined.

(** X8.  [disconnect_points] is idempotent: a second call on the same
    pair finds the entry [NULL] and changes nothing, in any state. *)
Theorem disconnect_points_idempotent (pt1 pt2 : nat) (s : state) :
  disconnect_points pt1 pt2 (disconnect_points pt1 pt2 s)
  = disconnect_points pt1 pt2 s.
Proof.
  unfold disconnect_points at 1.
  rewrite is_connected_disconnect.
  destruct (is_connected s pt1 pt2) eqn:Hc; simpl.
  - by rewrite bool_decide_eq_true_2 by (left; done).
  - done.
Qed.

(** X9.  The result [r] of [get_point_nearest_inter] on a sorted view:
    it is at least -1 and at most [n_pts - 2].  If some point lies
    after the line, [r] is the position of the last point at or before
    it, so the positions at or before the line are exactly those up to
    [r].  If no point lies after the line, [r] is -1, although every
    point is at or before the line.  The coordinate of a point is the
    one the scan compares: the integer converted to [float]. *)
Theorem get_point_nearest_inter_spec (axis : axis_t) (inter : Q) (s : state) :
  reachable s →
  let r := get_point_nearest_inter axis inter s in
  -1 ≤ r ∧ (1 ≤ n_pts s → r ≤ n_pts s - 2) ∧
  ((∃ j, (j < Z.to_nat (n_pts s))%nat ∧ (inter < coord_at axis s j)%Q) →
   ∀ m, (m < Z.to_nat (n_pts s))%nat →
        ((coord_at axis s m <= inter)%Q ↔ Z.of_nat m ≤ r)) ∧
  ((∀ j, (j < Z.to_nat (n_pts s))%nat → (coord_at axis s j <= inter)%Q) →
   r = -1).
Proof.
  intros Hr r. destruct (reachable_ok s Hr) as [Hs _].
  pose proof (proj1 (ok_n_pts _ Hs)) as Hn.
  assert (Hgt : ∀ m, Qle_bool (coord_at axis s m) inter = false ↔
                     (inter < coord_at axis s m)%Q).
  { intros m. rewrite <-not_true_iff_false, Qle_bool_iff. split.
    - apply Qnot_le_lt.
    - intros ? ?. lra. }
  unfold r, get_point_nearest_inter.
  destruct (nearest_loop_first (Z.to_nat (n_pts s)) axis inter s 0)
    as [[-> Hall]|(i0 & Hi0 & -> & Hf & Hbefore)].
  - split; [lia|]. split; [lia|]. split; [|done].
    intros (j & Hj & Hjgt) m Hm. apply Hgt in Hjgt.
    rewrite Hall in Hjgt; [done|lia].
  - apply Hgt in Hf. split; [lia|]. split; [lia|]. split.
    + intros _ m Hm. split.
      * intros Hle. destruct (decide (m < i0)%nat); [lia|].
        pose proof (coord_at_sorted axis s i0 m Hs ltac:(lia) Hm). lra.
      * intros Hle. apply Qle_bool_iff, Hbefore. lia.
    + intros Hall. specialize (Hall i0 ltac:(lia)). lra.
Qed.

Lemma get_point_nearest_inter_spec_witness :
  reachable example_ready ∧
  -1 ≤ get_point_nearest_inter X (3 # 2) example_ready ∧
  (1 ≤ n_pts example_ready →
   get_point_nearest_inter X (3 # 2) example_ready ≤ n_pts example_ready - 2).
Proof.
  split; [exact example_reachable|].
  destruct (get_point_nearest_inter_spec X (3 # 2) example_ready
              example_reachable) as (H1 & H2 & _).
  split; [exact H1|exact H2].
Defined.

(** X10.  [check_con] answers 1 exactly when two points of the instance
    that are still connected lie on different sides of the line: one at
    or before it, the other after it, by their coordinates converted to
    [float]. *)
Theorem check_con_iff_splits_connected (l : line_ptr) (s : state) :
  reachable s →
  (check_con l s = true ↔
   ∃ a b, (a < Z.to_nat (n_pts s))%nat ∧ (b < Z.to_nat (n_pts s))%nat ∧
          splits (deref l s) s a b = true ∧ is_connected s a b = true).
Proof.
  intros Hr. destruct (reachable_ok s Hr) as [Hs _].
  pose proof (λ axis, reachable_view_perm axis s Hr) as Hperm.
  rewrite check_con_true. split.
  - intros (i & j & Hac & Hc).
    pose proof Hac as Hac'.
    apply across_iff_sides in Hac' as (Hi & Hj & _); [|done].
    destruct (position_point (ln_axis (deref l s)) s i Hs Hi) as [Ha _].
    destruct (position_point (ln_axis (deref l s)) s j Hs Hj) as [Hb _].
    eexists _, _. split; [exact Ha|]. split; [exact Hb|]. split; [|done].
    apply across_splits; [done..|]. by exists i, j.
  - intros (a & b & Ha & Hb & Hsp & Hc).
    apply across_splits in Hsp as (i & j & Hac & <- & <-); [|done..].
    by exists i, j.
Qed.

Lemma check_con_iff_splits_connected_witness :
  reachable example_ready ∧ check_con (XLn 0) example_ready = true.
Proof.
  split; [exact example_reachable|].
  apply (proj2 (check_con_iff_splits_connected (XLn 0) example_ready
                  example_reachable)).
  exists 1%nat, 2%nat. vm_compute. repeat split; lia.
Defined.

(** X11.  A line is committed only after [check_con] answered 1, and
    such a commit disconnects at least one pair of points: [rem_cons]
    drops by at least two.  When [check_con] answers 0 a commit would
    clear nothing. *)
Theorem commit_after_check_con (l : line_ptr) (s : state) :
  reachable s → valid_ptr l s →
  (check_con l s = true → rem_cons (commit l s) ≤ rem_cons s - 2) ∧
  (check_con l s = false →
   rem_cons (commit l s) = rem_cons s ∧
   ∀ a b, conn (commit l s) a b = conn s a b).
Proof.
  intros Hr Hv. split; [by apply commit_drops|].
  intros Hc. destruct (reachable_ok s Hr) as [Hs Hg].
  assert (Hconn : ∀ a b, conn (commit l s) a b = conn s a b).
  { intros a b. destruct (conn s a b) as [c|] eqn:Hab.
    - rewrite <-Hab. apply commit_other. intros i j Hac [[-> ->]|[-> ->]].
      + by rewrite (proj1 (check_con_false l s) Hc i j Hac) in Hab.
      + pose proof Hac as Hac'.
        apply across_iff_sides in Hac' as (Hi & Hj & _); [|done].
        destruct (position_point (ln_axis (deref l s)) s i Hs Hi) as [Ha _].
        destruct (position_point (ln_axis (deref l s)) s j Hs Hj) as [Hb _].
        pose proof (proj1 (check_con_false l s) Hc i j Hac) as Hn.
        apply (ok_sym _ Hg) in Hn; [|done..]. by rewrite Hn in Hab.
    - by apply commit_cleared_stay. }
  split; [|done].
  destruct (commit_ok l s Hs Hg) as [_ Hg'].
  rewrite (ok_rem_cons _ Hg'), (ok_rem_cons _ Hg).
  rewrite <-(fr_n_pts _ _ (commit_frame l s)).
  do 3 f_equal. unfold disconnected_pairs.
  rewrite <-(fr_n_pts _ _ (commit_frame l s)).
  apply sum_upto_ext. intros j _. apply count_upto_ext. intros i _.
  unfold is_connected. by rewrite Hconn.
Qed.

Lemma commit_after_check_con_witness :
  reachable example_ready ∧ valid_ptr (XLn 0) example_ready ∧
  check_con (XLn 0) example_ready = true ∧
  rem_cons (commit (XLn 0) example_ready) ≤ rem_cons example_ready - 2.
Proof.
  assert (Hv : valid_ptr (XLn 0) example_ready) by (vm_compute; lia).
  assert (Hc : check_con (XLn 0) example_ready = true)
    by (vm_compute; reflexivity).
  split; [exact example_reachable|]. split; [exact Hv|]. split; [exact Hc|].
  exact (proj1 (commit_after_check_con (XLn 0) example_ready
                  example_reachable Hv) Hc).
Defined.

(** X12.  On a range of positions inside the view, [div_axis] returns
    and stores exactly one candidate for every position [k] with
    [from < k < to]: the line half-way between the points at positions
    [k] and [k + 1], as the [float] arithmetic of [div_axis] computes
    it.  There are [to - from - 1] of them; the position
    [from] gets none, so no candidate lies between the first two points
    of the range.  Nothing but the line array of the axis changes. *)
Theorem div_axis_candidates (axis : axis_t) (from to : Z) (s : state) :
  reachable s → 0 ≤ from → from ≤ to → to < n_pts s →
  ∃ s' ks new,
    div_axis axis from to s = Some s' ∧
    div_frame axis s s' ∧
    lines_of axis s' = lines_of axis s ++ new ∧
    Forall2 (midpoint_line axis s) ks new ∧
    ks ≡ₚ seqZ (from + 1) (to - from - 1) ∧
    length new = Z.to_nat (to - from - 1).
Proof.
  intros Hr H0 Hft Hto. destruct (reachable_ok s Hr) as [Hs _].
  destruct (div_axis_positions axis from to s Hs H0 Hft Hto)
    as (s' & ks & new & Hd & Hf & Hl & Hall & Hk).
  exists s', ks, new. repeat (split; [done|]).
  rewrite <-(Forall2_length _ _ _ Hall), Hk. apply length_seqZ.
Qed.

Lemma div_axis_candidates_witness :
  reachable example_ready ∧ 0 ≤ 0 ∧ 0 ≤ 3 ∧ 3 < n_pts example_ready ∧
  ∃ s' new,
    div_axis X 0 3 example_ready = Some s' ∧
    lines_of X s' = lines_of X example_ready ++ new ∧
    length new = 2%nat.
Proof.
  assert (H0 : 0 ≤ 0) by lia.
  assert (H1 : 0 ≤ 3) by lia.
  assert (H2 : 3 < n_pts example_ready) by (vm_compute; reflexivity).
  split; [exact example_reachable|]. split; [exact H0|]. split; [exact H1|].
  split; [exact H2|].
  destruct (div_axis_candidates X 0 3 example_ready example_reachable
              H0 H1 H2) as (s' & ks & new & Hd & _ & Hl & _ & _ & Hn).
  exists s', new. split; [exact Hd|]. split; [exact Hl|exact Hn].
Defined.

(** X13.  While the loop of an instance runs, [all_lines] holds no
    pointer twice, and holds exactly the candidates whose
    [ln_committed] flag is 1; each of them lies behind the cursor of its
    array, carries the axis of that array, and has the intersect it was
    created with.  [serialize_solution] therefore writes every committed
    line once, in the order of the commits. *)
Theorem all_lines_are_the_committed (inst : option (list Z))
    (s0 s s' : state) (k clx cly : nat) :
  instance_start s0 →
  prepare inst s0 = Ready s →
  loop_iter k s 0 0 s' clx cly →
  NoDup (all_lines s') ∧
  (∀ l, l ∈ all_lines s' ↔
        valid_ptr l s' ∧ ln_committed (deref l s') = 1) ∧
  (∀ l, l ∈ all_lines s' →
        behind clx cly l ∧
        ln_axis (deref l s') = ptr_axis l ∧
        ln_inter (deref l s') = ln_inter (deref l s)) ∧
  solution s'
  = (λ l, (ptr_axis l, ln_inter (deref l s))) <$> all_lines s'.
Proof.
  intros H0 Hp Hit.
  destruct (run_facts _ _ _ _ _ _ _ H0 Hp Hit) as (Hl & Hinv & Hk & _ & _).
  destruct Hinv as [Hnd Hbe Hfl _ _]. destruct Hk as [_ Hx Hy Hline].
  assert (Hmem : ∀ l, l ∈ all_lines s' →
            behind clx cly l ∧ ln_axis (deref l s') = ptr_axis l ∧
            ln_inter (deref l s') = ln_inter (deref l s)).
  { intros l Hin. destruct (Hbe l Hin) as [Hb Hv]. split; [done|].
    destruct (Hline l) as [Hax Hi]. split; [|done]. rewrite Hax.
    apply (prepare_line_axis _ _ _ _ H0 Hp).
    destruct l; simpl in *; lia. }
  split; [done|]. split; [|split; [done|]].
  - intros l. split.
    + intros Hin. destruct (Hbe l Hin) as [_ Hv]. split; [done|].
      rewrite (Hfl l Hv). by rewrite bool_decide_eq_true_2.
    + intros [Hv Hc]. rewrite (Hfl l Hv) in Hc.
      by case_bool_decide.
  - unfold solution. apply Forall_fmap_ext, List.Forall_forall.
    intros l Hin%list_elem_of_In.
    destruct (Hmem l Hin) as (_ & -> & ->). done.
Qed.

Lemma all_lines_are_the_committed_witness :
  instance_start initial_state ∧
  prepare (Some example_file) initial_state = Ready example_ready ∧
  loop_iter 1 example_ready 0 0 example_final 1 1 ∧
  NoDup (all_lines example_final) ∧
  solution example_final
  = (λ l, (ptr_axis l, ln_inter (deref l example_ready)))
      <$> all_lines example_final.
Proof.
  destruct (all_lines_are_the_committed _ _ _ _ _ _ _ initial_instance_start
              example_prepared example_run) as (Hnd & _ & _ & Hsol).
  split; [exact initial_instance_start|]. split; [exact example_prepared|].
  split; [exact example_run|]. split; [exact Hnd|exact Hsol].
Defined.

(** X14.  While the loop of an instance runs, two different points are
    disconnected exactly when one of the lines committed so far has
    them on different sides, by their coordinates converted to
    [float]. *)
Theorem disconnected_iff_separated (inst : option (list Z))
    (s0 s s' : state) (k clx cly a b : nat) :
  instance_start s0 →
  prepare inst s0 = Ready s →
  loop_iter k s 0 0 s' clx cly →
  (a < Z.to_nat (n_pts s'))%nat → (b < Z.to_nat (n_pts s'))%nat → a ≠ b →
  (conn s' a b = None ↔
   ∃ l, l ∈ all_lines s' ∧ separates (deref l s') s' a b = true).
Proof.
  intros H0 Hp Hit Ha Hb Hne.
  destruct (run_facts _ _ _ _ _ _ _ H0 Hp Hit) as (_ & Hinv & _).
  by apply (ri_sep _ _ _ Hinv).
Qed.

Lemma disconnected_iff_separated_witness :
  instance_start initial_state ∧
  prepare (Some example_file) initial_state = Ready example_ready ∧
  loop_iter 1 example_ready 0 0 example_final 1 1 ∧
  (1 < Z.to_nat (n_pts example_final))%nat ∧
  (2 < Z.to_nat (n_pts example_final))%nat ∧ 1%nat ≠ 2%nat ∧
  conn example_final 1 2 = None.
Proof.
  assert (H1 : (1 < Z.to_nat (n_pts example_final))%nat) by (vm_compute; lia).
  assert (H2 : (2 < Z.to_nat (n_pts example_final))%nat) by (vm_compute; lia).
  assert (Hne : 1%nat ≠ 2%nat) by lia.
  split; [exact initial_instance_start|]. split; [exact example_prepared|].
  split; [exact example_run|]. split; [exact H1|]. split; [exact H2|].
  split; [exact Hne|].
  apply (proj2 (disconnected_iff_separated _ _ _ _ _ _ _ 1%nat 2%nat
                  initial_instance_start example_prepared example_run
                  H1 H2 Hne)).
  exists (XLn 0). split; [vm_compute|vm_compute; reflexivity].
  apply list_elem_of_here.
Defined.

(** X15.  The loop of an instance is at [rem_cons = 0] exactly when the
    lines committed so far separate every two different points: when
    the program reports an instance as solved with no connection left,
    each pair of points has a written line between them.  Sides are
    taken as the program takes them, by the coordinates converted to
    [float]. *)
Theorem done_iff_all_separated (inst : option (list Z))
    (s0 s s' : state) (k clx cly : nat) :
  instance_start s0 →
  prepare inst s0 = Ready s →
  loop_iter k s 0 0 s' clx cly →
  (rem_cons s' = 0 ↔
   ∀ a b, (a < Z.to_nat (n_pts s'))%nat → (b < Z.to_nat (n_pts s'))%nat →
          a ≠ b →
          ∃ l, l ∈ all_lines s' ∧ separates (deref l s') s' a b = true).
Proof.
  intros H0 Hp Hit.
  destruct (run_facts _ _ _ _ _ _ _ H0 Hp Hit) as (Hl & Hinv & _).
  pose proof (li_reachable _ _ _ Hl) as Hr. split.
  - intros Hz a b Ha Hb Hne. apply (ri_sep _ _ _ Hinv); [done..|].
    by apply rem_cons_zero_clear.
  - intros Hall. apply all_clear_rem_cons; [done|].
    intros a b Ha Hb Hne. apply (ri_sep _ _ _ Hinv); [done..|].
    by apply Hall.
Qed.

Lemma done_iff_all_separated_witness :
  instance_start initial_state ∧
  prepare (Some example_file) initial_state = Ready example_ready ∧
  loop_iter 1 example_ready 0 0 example_final 1 1 ∧
  rem_cons example_final = 0 ∧
  ∃ l, l ∈ all_lines example_final ∧
       separates (deref l example_final) example_final 0 3 = true.
Proof.
  assert (Hz : rem_cons example_final = 0) by (vm_compute; reflexivity).
  split; [exact initial_instance_start|]. split; [exact example_prepared|].
  split; [exact example_run|]. split; [exact Hz|].
  apply (proj1 (done_iff_all_separated _ _ _ _ _ _ _
                  initial_instance_start example_prepared example_run) Hz);
    vm_compute; lia.
Defined.

(** X16.  The loop of an instance of [n] points has [n - 2] candidates
    on each axis, so it runs at most [n - 2] times and commits at most
    two lines in each iteration.  Every commit disconnects at least one
    pair, so twice the number of committed lines plus [rem_cons] never
    exceeds [n (n - 1)]. *)
Theorem committed_lines_bound (inst : option (list Z))
    (s0 s s' : state) (k clx cly : nat) :
  instance_start s0 →
  prepare inst s0 = Ready s →
  loop_iter k s 0 0 s' clx cly →
  n_x_lines s' = Z.to_nat (n_pts s' - 2) ∧
  n_y_lines s' = Z.to_nat (n_pts s' - 2) ∧
  clx = k ∧ cly = k ∧
  (k ≤ Z.to_nat (n_pts s' - 2))%nat ∧
  (n_lines s' ≤ 2 * k)%nat ∧
  2 * Z.of_nat (n_lines s') + rem_cons s' ≤ n_pts s' * (n_pts s' - 1).
Proof.
  intros H0 Hp Hit.
  destruct (run_facts _ _ _ _ _ _ _ H0 Hp Hit)
    as (Hl & Hinv & Hk & -> & ->).
  destruct (prepare_line_count _ _ _ H0 Hp) as (_ & Hx & Hy).
  destruct Hk as [Hf Hx' Hy' _]. rewrite <-(fr_n_pts _ _ Hf).
  pose proof (li_bound _ _ _ Hl) as Hb.
  pose proof (behind_count (all_lines s') k k (ri_nodup _ _ _ Hinv)) as Hcnt.
  split; [congruence|]. split; [congruence|]. split; [done|]. split; [done|].
  split; [lia|]. split.
  - unfold n_lines. etrans; [apply Hcnt|lia].
    intros l Hin. by apply (ri_behind _ _ _ Hinv).
  - rewrite (fr_n_pts _ _ Hf). apply (ri_count _ _ _ Hinv).
Qed.

Lemma committed_lines_bound_witness :
  instance_start initial_state ∧
  prepare (Some example_file) initial_state = Ready example_ready ∧
  loop_iter 1 example_ready 0 0 example_final 1 1 ∧
  (n_lines example_final ≤ 2 * 1)%nat.
Proof.
  destruct (committed_lines_bound _ _ _ _ _ _ _ initial_instance_start
              example_prepared example_run) as (_ & _ & _ & _ & _ & Hn & _).
  split; [exact initial_instance_start|]. split; [exact example_prepared|].
  split; [exact example_run|exact Hn].
Defined.

(** X17.  No candidate of an axis lies between the first two points of
    the view of that axis.  So when the same two points hold the first
    two positions of both views (the two leftmost points are also the
    two lowest), no line ever separates them: they stay connected
    through the whole loop, [rem_cons] stays at 2 or more, and the loop
    can only end with both candidate arrays used up. *)
Theorem first_two_stay_connected (inst : option (list Z))
    (s0 s s' : state) (k clx cly a b : nat) :
  instance_start s0 →
  prepare inst s0 = Ready s →
  loop_iter k s 0 0 s' clx cly →
  first_two X s a b → first_two Y s a b →
  conn s' a b ≠ None ∧
  2 ≤ rem_cons s' ∧
  (loop_cond s' clx cly = false →
   clx = n_x_lines s' ∧ cly = n_y_lines s').
Proof.
  intros H0 Hp Hit HftX HftY.
  destruct (run_facts _ _ _ _ _ _ _ H0 Hp Hit) as (Hl & Hinv & Hk & _ & _).
  pose proof (li_reachable _ _ _ Hl) as Hr'.
  pose proof (prepare_reachable _ _ _ Hp) as Hr.
  destruct (first_two_points X s a b Hr HftX) as (Hne & Ha & Hb).
  pose proof (fr_n_pts _ _ (lk_frame _ _ Hk)) as Hn. rewrite Hn in Ha, Hb.
  assert (Hc : conn s' a b ≠ None).
  { intros Hc. apply (ri_sep _ _ _ Hinv) in Hc as (l & Hin & Hsep); [|done..].
    rewrite (separates_kept s) in Hsep by done.
    destruct (ri_behind _ _ _ Hinv l Hin) as [_ Hv].
    assert (Hv0 : valid_ptr l s).
    { pose proof (lk_x _ _ Hk). pose proof (lk_y _ _ Hk).
      destruct l; simpl in *; lia. }
    rewrite (first_two_same_side _ _ _ _ a b H0 Hp Hv0) in Hsep; [done|].
    by destruct l. }
  split; [done|].
  pose proof (rem_cons_positive s' a b Hr' Ha Hb Hc) as Hpos.
  split; [done|]. intros Hcond.
  destruct (proj2 (loop_inv_cond _ _ _ Hl) Hcond) as [Hz|(_ & ? & ?)];
    [lia|done].
Qed.

Lemma first_two_stay_connected_witness :
  instance_start initial_state ∧
  prepare (Some diagonal_file) initial_state = Ready diagonal_ready ∧
  loop_iter 1 diagonal_ready 0 0 diagonal_final 1 1 ∧
  first_two X diagonal_ready 0 1 ∧ first_two Y diagonal_ready 0 1 ∧
  conn diagonal_final 0 1 ≠ None ∧ 2 ≤ rem_cons diagonal_final.
Proof.
  assert (HX : first_two X diagonal_ready 0 1)
    by (left; split; vm_compute; reflexivity).
  assert (HY : first_two Y diagonal_ready 0 1)
    by (left; split; vm_compute; reflexivity).
  destruct (first_two_stay_connected _ _ _ _ _ _ _ 0%nat 1%nat
              initial_instance_start diagonal_prepared diagonal_run HX HY)
    as (Hc & Hr & _).
  split; [exact initial_instance_start|]. split; [exact diagonal_prepared|].
  split; [exact diagonal_run|]. split; [exact HX|]. split; [exact HY|].
  split; [exact Hc|exact Hr].
Defined.

(** X18.  A file whose last integer has no partner is not rejected for
    it: the last call of [fscanf] assigns [x] only, and the point stored
    takes the [y] of the pair before it (zero when it is the first
    point).  With the header counting that point, and every [x] from 0
    to [MAX_PTS - 1], the load succeeds. *)
Theorem read_instance_file_trailing_integer (pairs : list (Z * Z)) (x : Z)
    (s : state) :
  Z.of_nat (length pairs) < MAX_PTS →
  Forall (λ xy, pair_ok xy = true) pairs →
  in_taken x = true →
  ∃ s1 p,
    read_instance_file
      (Some (Z.of_nat (S (length pairs)) :: flatten_pairs pairs ++ [x])) s
    = Some (SUCCESS, s1) ∧
    n_pts s1 = Z.of_nat (S (length pairs)) ∧
    points s1 !! length pairs = Some p ∧
    pt_x p = x ∧ pt_y p = default 0 (snd <$> last pairs).
Proof.
  intros Hmax Hok Hx. unfold read_instance_file.
  assert (fits_int (Z.of_nat (S (length pairs))) = true) as ->.
  { unfold fits_int, INT_MIN, INT_MAX, MAX_PTS in *.
    rewrite andb_true_iff, !Z.leb_le. lia. }
  cbn [negb].
  destruct (read_points_trailing pairs x 0 0 0%nat
              (points (set_n_pts (Z.of_nat (S (length pairs))) s)))
    as (ps & p & Hr & Hp & Hpx & Hpy); [lia|simpl; lia|done|done|].
  rewrite Hr. cbn [n_pts set_points set_n_pts Nat.add].
  rewrite Z.eqb_refl. cbn [negb].
  eexists _, p. split; [done|]. split; [done|]. split; [exact Hp|done].
Qed.

Lemma read_instance_file_trailing_integer_witness :
  Z.of_nat (length [(1, 5)]) < MAX_PTS ∧
  Forall (λ xy, pair_ok xy = true) [(1, 5)] ∧
  in_taken 7 = true ∧
  ∃ s1, read_instance_file (Some [2; 1; 5; 7]) initial_state
        = Some (SUCCESS, s1).
Proof.
  assert (H : Z.of_nat (length [(1, 5)]) < MAX_PTS)
    by (vm_compute; reflexivity).
  assert (Hok : Forall (λ xy, pair_ok xy = true) [(1, 5)])
    by (repeat constructor).
  assert (Hx : in_taken 7 = true) by reflexivity.
  split; [exact H|]. split; [exact Hok|]. split; [exact Hx|].
  destruct (read_instance_file_trailing_integer [(1, 5)] 7 initial_state
              H Hok Hx) as (s1 & p & Hs1 & _).
  exists s1. exact Hs1.
Defined.

(** X19.  [sort_points] leaves each view sorted by the coordinate of its
    axis, with the same entries as before, and changes nothing else.
    The comparison functions answer with the sign of the difference of
    the two coordinates. *)
Theorem sort_points_sorts (axis : axis_t) (s : state) :
  StronglySorted (λ a b, key axis s a ≤ key axis s b)
    (view axis (sort_points s)) ∧
  view axis (sort_points s) ≡ₚ view axis s ∧
  points (sort_points s) = points s ∧
  n_pts (sort_points s) = n_pts s ∧
  rem_cons (sort_points s) = rem_cons s ∧
  x_lines (sort_points s) = x_lines s ∧
  y_lines (sort_points s) = y_lines s ∧
  all_lines (sort_points s) = all_lines s ∧
  ∀ p q, pt_compare axis s p q = Z.sgn (key axis s p - key axis s q).
Proof.
  split; [destruct axis; apply qsort_sorted|].
  split; [apply sort_points_views|].
  repeat (split; [done|]).
  intros p q. unfold pt_compare, key.
  destruct (Z.gtb_spec (pt_coord axis (points s !!! p))
              (pt_coord axis (points s !!! q))); [lia|].
  destruct (Z.ltb_spec (pt_coord axis (points s !!! p))
              (pt_coord axis (points s !!! q))); lia.
Qed.

(** X20.  In every state reached after the initialisation both views
    are permutations of the point indices, sorted by coordinate, and
    every point holds its own index: no later operation moves a point
    or reorders a view. *)
Theorem views_stay_sorted (axis : axis_t) (s : state) :
  reachable s →
  0 ≤ n_pts s ≤ MAX_PTS ∧
  view axis s ≡ₚ seq 0 (Z.to_nat (n_pts s)) ∧
  StronglySorted (λ a b, key axis s a ≤ key axis s b) (view axis s) ∧
  (∀ i j, (i ≤ j)%nat → (j < Z.to_nat (n_pts s))%nat →
          (coord_at axis s i <= coord_at axis s j)%Q) ∧
  (∀ i p, (i < Z.to_nat (n_pts s))%nat → points s !! i = Some p →
          pt_self_ix p = i).
Proof.
  intros Hr. destruct (reachable_ok s Hr) as [Hs _].
  split; [apply (ok_n_pts _ Hs)|].
  split; [by apply reachable_view_perm|].
  split; [apply (ok_sorted _ Hs)|].
  split; [intros i j; by apply coord_at_sorted|apply (ok_self_ix _ Hs)].
Qed.

Lemma views_stay_sorted_witness :
  reachable (commit (XLn 0) example_ready) ∧
  view Y (commit (XLn 0) example_ready)
  ≡ₚ seq 0 (Z.to_nat (n_pts (commit (XLn 0) example_ready))).
Proof.
  split; [exact example_committed_reachable|].
  exact (proj1 (proj2 (views_stay_sorted Y _ example_committed_reachable))).
Defined.

(** X21.  When the loop is entered, every candidate is the line that
    [div_axis] computes half-way between the points at two adjacent
    positions [k] and [k + 1] of its view, [0 < k < n_pts - 1].  If the
    two coordinates differ and are at most 2^23 in absolute value,
    [get_point_nearest_inter] answers [k] for it, so committing it
    splits the view between these two positions.  If the two
    coordinates are equal as [float]s, the candidate lies on both. *)
Theorem candidate_splits_at_its_position (inst : option (list Z))
    (s0 s : state) (l : line_ptr) :
  instance_start s0 →
  prepare inst s0 = Ready s →
  valid_ptr l s →
  ∃ k : nat,
    (0 < k)%nat ∧ (S k < Z.to_nat (n_pts s))%nat ∧
    ln_axis (deref l s) = ptr_axis l ∧
    midpoint_line (ptr_axis l) s (Z.of_nat k) (deref l s) ∧
    (exact_pair (ptr_axis l) s k →
     get_point_nearest_inter (ptr_axis l) (ln_inter (deref l s)) s
     = Z.of_nat k) ∧
    ((coord_at (ptr_axis l) s k == coord_at (ptr_axis l) s (S k))%Q →
     (ln_inter (deref l s) == coord_at (ptr_axis l) s k)%Q).
Proof.
  intros H0 Hp Hv.
  pose proof (prepare_reachable _ _ _ Hp) as Hr.
  destruct (reachable_ok s Hr) as [Hs _].
  destruct (prepare_line _ _ _ _ H0 Hp Hv) as (k & Hk & Hm).
  destruct (prepare_line_axis _ _ _ _ H0 Hp Hv) as [Hax _].
  assert (Hkn : k = Z.of_nat (Z.to_nat k)) by lia.
  rewrite Hkn in Hm. exists (Z.to_nat k).
  split; [lia|]. split; [lia|]. split; [done|]. split; [done|].
  apply midpoint_nearest; [done|lia|done].
Qed.

Lemma candidate_splits_at_its_position_witness :
  instance_start initial_state ∧
  prepare (Some example_file) initial_state = Ready example_ready ∧
  valid_ptr (XLn 0) example_ready ∧
  ∃ k : nat, (0 < k)%nat ∧ (S k < Z.to_nat (n_pts example_ready))%nat.
Proof.
  assert (Hv : valid_ptr (XLn 0) example_ready) by (vm_compute; lia).
  destruct (candidate_splits_at_its_position _ _ _ (XLn 0)
              initial_instance_start example_prepared Hv)
    as (k & Hk0 & Hk1 & _).
  split; [exact initial_instance_start|]. split; [exact example_prepared|].
  split; [exact Hv|]. exists k. split; [exact Hk0|exact Hk1].
Defined.

(** X22.  The loop only moves one way.  Between any two of its states,
    the earlier one first: an entry that was [NULL] stays [NULL],
    [rem_cons] does not grow, and [all_lines] is only extended, so a
    line once written into the solution is never taken out or moved. *)
Theorem loop_is_monotone (inst : option (list Z)) (s0 s s1 s2 : state)
    (k1 k2 c1 c1' c2 c2' : nat) :
  instance_start s0 →
  prepare inst s0 = Ready s →
  loop_iter k1 s 0 0 s1 c1 c1' →
  loop_iter k2 s1 c1 c1' s2 c2 c2' →
  (∀ a b, conn s1 a b = None → conn s2 a b = None) ∧
  rem_cons s2 ≤ rem_cons s1 ∧
  all_lines s1 `prefix_of` all_lines s2.
Proof.
  intros H0 Hp Hit1 Hit2.
  destruct (run_facts _ _ _ _ _ _ _ H0 Hp Hit1) as (Hl & _).
  exact (loop_iter_mono _ _ _ _ _ _ _ Hit2 Hl).
Qed.

Lemma loop_is_monotone_witness :
  instance_start initial_state ∧
  prepare (Some example_file) initial_state = Ready example_ready ∧
  loop_iter 0 example_ready 0 0 example_ready 0 0 ∧
  loop_iter 1 example_ready 0 0 example_final 1 1 ∧
  rem_cons example_final ≤ rem_cons example_ready.
Proof.
  assert (Hi : loop_iter 0 example_ready 0 0 example_ready 0 0)
    by constructor.
  destruct (loop_is_monotone _ _ _ _ _ _ _ _ _ _ _ initial_instance_start
              example_prepared Hi example_run) as (_ & Hm & _).
  split; [exact initial_instance_start|]. split; [exact example_prepared|].
  split; [exact Hi|]. split; [exact example_run|exact Hm].
Defined.

(** X23.  The candidates are stored, and so tried by the loop, in the
    order of the recursion of [div_axis]: on an instance of three or
    more points the first candidate of each axis is the one at the
    middle of the view, computed in [float] arithmetic from the points
    at the positions [h] and [h + 1] for [h = half (n_pts - 1)]. *)
Theorem first_candidate_is_the_middle (inst : option (list Z))
    (s0 s : state) (axis : axis_t) :
  instance_start s0 →
  prepare inst s0 = Ready s →
  3 ≤ n_pts s →
  let h := half_of (n_pts s - 1) in
  1 ≤ h ≤ n_pts s - 2 ∧
  (n_pts s - 2) / 2 ≤ h ≤ n_pts s / 2 ∧
  ∃ ln, lines_of axis s !! 0%nat = Some ln ∧ midpoint_line axis s h ln.
Proof.
  intros H0 Hp Hn h.
  pose proof (half_of_bounds (n_pts s - 1) ltac:(lia) ltac:(lia) ltac:(lia))
    as Hh.
  split; [unfold h; lia|]. split.
  - unfold h, half_of. case_match; Z.to_euclidean_division_equations; lia.
  - by apply (prepare_first_line inst s0).
Qed.

Lemma first_candidate_is_the_middle_witness :
  instance_start initial_state ∧
  prepare (Some example_file) initial_state = Ready example_ready ∧
  3 ≤ n_pts example_ready ∧
  ∃ ln, lines_of X example_ready !! 0%nat = Some ln ∧
        midpoint_line X example_ready (half_of (n_pts example_ready - 1)) ln.
Proof.
  assert (Hn : 3 ≤ n_pts example_ready) by (vm_compute; discriminate).
  split; [exact initial_instance_start|]. split; [exact example_prepared|].
  split; [exact Hn|].
  exact (proj2 (proj2 (first_candidate_is_the_middle _ _ _ X
                         initial_instance_start example_prepared Hn))).
Defined.

(** X24.  When [rem_cons] is zero at the start of an instance (the
    first instance of a run, or one that follows an instance ended with
    no connection left), every instance with at least one point that
    the loader accepts reaches the loop, and the loop ends: given fuel
    for as many iterations as one axis has lines it returns, after [k]
    iterations that test [clx + cly = 2 k] candidates, no more than the
    two axes have together.  It ends with no connection left (DONE) or
    with connections left and both arrays consumed (EXHAUSTED). *)
Theorem greedy_loop_terminates (inst : option (list Z)) (s0 s1 : state) :
  instance_start s0 →
  rem_cons s0 = 0 →
  read_instance_file inst s0 = Some (SUCCESS, s1) →
  1 ≤ n_pts s1 →
  ∃ s,
    prepare inst s0 = Ready s ∧
    ∀ fuel, (n_x_lines s ≤ fuel)%nat →
      ∃ k s' clx cly,
        greedy_loop fuel s 0 0 = Some (s', clx, cly) ∧
        loop_iter k s 0 0 s' clx cly ∧
        loop_cond s' clx cly = false ∧
        (k ≤ n_x_lines s + n_y_lines s)%nat ∧
        (clx + cly = 2 * k)%nat ∧
        (clx + cly ≤ n_x_lines s + n_y_lines s)%nat ∧
        (rem_cons s' = 0 ∨
         (0 < rem_cons s' ∧ clx = n_x_lines s' ∧ cly = n_y_lines s')).
Proof.
  intros Hstart Hrem Hread Hn.
  destruct (valid_instance_ready _ _ _ Hrem Hread Hn) as (s & Hprep & _).
  exists s. split; [done|]. intros fuel Hfuel.
  pose proof (prepare_loop_inv _ _ _ Hstart Hprep) as Hinv.
  destruct (greedy_loop_runs fuel s 0 0 Hinv)
    as (k & s' & clx & cly & Hg & Hiter & Hc & Hk); [lia|].
  destruct (loop_iter_inv _ _ _ _ _ _ _ Hiter Hinv)
    as (Hinv' & -> & -> & Hx & Hy).
  pose proof (li_lines _ _ _ Hinv) as Hl.
  exists k, s', (0 + k)%nat, (0 + k)%nat.
  split; [done|]. split; [done|]. split; [done|].
  split; [lia|]. split; [lia|]. split; [lia|].
  by apply loop_inv_cond.
Qed.

Lemma greedy_loop_terminates_witness :
  instance_start initial_state ∧
  rem_cons initial_state = 0 ∧
  read_instance_file (Some example_file) initial_state =
    Some (SUCCESS, example_loaded) ∧
  1 ≤ n_pts example_loaded ∧
  ∃ s, prepare (Some example_file) initial_state = Ready s ∧
       ∀ fuel, (n_x_lines s ≤ fuel)%nat →
         ∃ k s' clx cly,
           greedy_loop fuel s 0 0 = Some (s', clx, cly) ∧
           loop_iter k s 0 0 s' clx cly ∧
           loop_cond s' clx cly = false ∧
           (k ≤ n_x_lines s + n_y_lines s)%nat ∧
           (clx + cly = 2 * k)%nat ∧
           (clx + cly ≤ n_x_lines s + n_y_lines s)%nat ∧
           (rem_cons s' = 0 ∨
            (0 < rem_cons s' ∧ clx = n_x_lines s' ∧ cly = n_y_lines s')).
Proof.
  assert (H0 : instance_start initial_state) by (by repeat split).
  assert (Hr : rem_cons initial_state = 0) by reflexivity.
  assert (Hread : read_instance_file (Some example_file) initial_state =
    Some (SUCCESS, example_loaded))
    by (vm_compute; reflexivity).
  assert (Hn : 1 ≤ n_pts example_loaded) by (vm_compute; discriminate).
  split; [exact H0|]. split; [exact Hr|]. split; [exact Hread|].
  split; [exact Hn|].
  exact (greedy_loop_terminates (Some example_file) initial_state _
           H0 Hr Hread Hn).
Defined.
